(** * BMP image compression: LZ77 + Huffman codec and container reader

    A shallow embedding of [lz77.py], [huffman.py] and of the container
    reader and writer and the bit-string helpers of [helper.py], with
    the properties of the codec that the specification states and
    further properties of the code.

    Conventions of the embedding
    - a Python [bytes]/[bytearray] is a [list byte] ([Byte.byte], so an
      element is in [range(256)] by its type); a Python [int] is a [Z];
      positions, counters and sizes, which the code keeps non-negative,
      are [nat];
    - a Python [str] is a [list ascii];
    - a [dict] is an association list in insertion order (iteration
      order of a Python dict), updated by [dict_set];
    - a Python exception is a value [Raise e] of the type [outcome]. *)

From Stdlib Require Import ZArith NArith Lia Bool.
From Stdlib.Strings Require Import Byte Ascii.
From stdpp Require Import base list.

Local Open Scope Z_scope.

(** ** Python runtime *)

Inductive exn : Set :=
| IndexError | TypeError | ValueError | KeyError | OverflowError | StructError.

Inductive outcome (A : Type) : Type :=
| Ok (a : A)
| Raise (e : exn).
Arguments Ok {A} a.
Arguments Raise {A} e.

Definition bind {A B} (m : outcome A) (k : A -> outcome B) : outcome B :=
  match m with
  | Ok a => k a
  | Raise e => Raise e
  end.

Notation "'let*' x ':=' m 'in' k" := (bind m (fun x => k))
  (at level 10, x pattern, m at level 100, k at level 200).

(** Reduce the [let] and [bind] of a step that has been evaluated. *)
Ltac step := cbv beta iota; cbn [bind].

Abbreviation str := (list ascii).

#[global] Instance byte_eq_dec : EqDecision byte := Byte.byte_eq_dec.
#[global] Instance ascii_eq_dec : EqDecision ascii := Ascii.ascii_dec.

(** The integer value of an element of a [bytes] object. *)
Definition int_of_byte (b : byte) : Z := Z.of_N (Byte.to_N b).

(** [bytearray.append(z)] and [bytes([z])] accept an int of [range(256)]
    and raise [ValueError] otherwise. *)
Definition byte_of_int (z : Z) : outcome byte :=
  if z <? 0 then Raise ValueError
  else match Byte.of_N (Z.to_N z) with
       | Some b => Ok b
       | None => Raise ValueError
       end.

(** The byte [byte_of_int] returns for an int of [range(256)]. *)
Definition byte_of_Z (z : Z) : byte := default x00 (Byte.of_N (Z.to_N z)).

(** [buf.append(z)] *)
Definition append (buf : list byte) (z : Z) : outcome (list byte) :=
  let* b := byte_of_int z in Ok (buf ++ [b]).

(** [buf.extend(zs)] *)
Fixpoint extend (buf : list byte) (zs : list Z) : outcome (list byte) :=
  match zs with
  | [] => Ok buf
  | z :: zs' => let* buf := append buf z in extend buf zs'
  end.

(** [data[i]] for an index [i >= 0]. *)
Definition index {A} (data : list A) (i : nat) : outcome A :=
  match data !! i with
  | Some x => Ok x
  | None => Raise IndexError
  end.

(** [data[i]] for any int: a negative index counts from the end. *)
Definition getitem {A} (data : list A) (i : Z) : outcome A :=
  let j := if i <? 0 then i + Z.of_nat (length data) else i in
  if j <? 0 then Raise IndexError else index data (Z.to_nat j).

(** Dictionaries: [d[k] = v], [d[k]], [k in d]. *)
Fixpoint dict_set {K V} `{EqDecision K} (k : K) (v : V) (d : list (K * V))
  : list (K * V) :=
  match d with
  | [] => [(k, v)]
  | (k', v') :: d' =>
      if decide (k' = k) then (k', v) :: d' else (k', v') :: dict_set k v d'
  end.

Fixpoint dict_get {K V} `{EqDecision K} (k : K) (d : list (K * V)) : option V :=
  match d with
  | [] => None
  | (k', v') :: d' => if decide (k' = k) then Some v' else dict_get k d'
  end.

Definition dict_item {K V} `{EqDecision K} (d : list (K * V)) (k : K) : outcome V :=
  match dict_get k d with
  | Some v => Ok v
  | None => Raise KeyError
  end.

(** ** lz77.py *)

Module LZ77.

(** The [while] loop of [find_longest_match] for one start index [i]:
    the run is extended while the lookahead has room and the bytes agree,
    and is cut when [i + match_length] reaches [current_pos]. Both reads
    are below [end_of_buffer <= len(data)] when they happen, so comparing
    the lookups compares the bytes. The run grows at every iteration and
    stays inside the lookahead, so [end_of_buffer - current_pos]
    iterations are enough (see [match_run_fuel]). *)
Fixpoint match_run (fuel : nat) (data : list byte)
    (i current_pos end_of_buffer match_length : nat) : nat :=
  match fuel with
  | O => match_length
  | S fuel' =>
      if (current_pos + match_length <? end_of_buffer)%nat
         && bool_decide (data !! (i + match_length)%nat
                         = data !! (current_pos + match_length)%nat)
      then
        let match_length := (match_length + 1)%nat in
        if (current_pos <=? i + match_length)%nat then match_length
        else match_run fuel' data i current_pos end_of_buffer match_length
      else match_length
  end.

(** One iteration of the [for i in range(...)] loop; the state is
    [(best_match_length, best_match_offset)]. *)
Definition scan_step (data : list byte) (current_pos end_of_buffer : nat)
    (best : nat * nat) (i : nat) : nat * nat :=
  let match_length :=
    match_run (end_of_buffer - current_pos) data i current_pos end_of_buffer 0 in
  if (best.1 <? match_length)%nat then (match_length, (current_pos - i)%nat)
  else best.

Definition scan (data : list byte) (current_pos end_of_buffer lo : nat)
  : nat * nat :=
  foldl (scan_step data current_pos end_of_buffer) (0%nat, 0%nat)
        (seq lo (current_pos - lo)).

(** [find_longest_match(data, current_pos, window_size, lookahead_buffer_size)]
    returns [(offset, length, next_char)]. *)
Definition find_longest_match (data : list byte)
    (current_pos window_size lookahead_buffer_size : nat)
  : nat * nat * option byte :=
  let end_of_buffer :=
    Nat.min (current_pos + lookahead_buffer_size) (length data) in
  if (length data <=? current_pos)%nat then (0%nat, 0%nat, None)
  else
    let next_char :=
      if (end_of_buffer =? length data)%nat then None
      else data !! end_of_buffer in
    if (end_of_buffer <=? current_pos)%nat then (0%nat, 0%nat, next_char)
    else
      let best :=
        scan data current_pos end_of_buffer (current_pos - window_size) in
      (best.2, best.1,
       if (current_pos + best.1 <? length data)%nat
       then data !! (current_pos + best.1)%nat else None).

(** The run length the inner loop computes for the start index [i] when
    the lookahead ends at [end_of_buffer], and for the lookahead of
    [find_longest_match]. *)
Definition run_in (data : list byte) (current_pos end_of_buffer i : nat)
  : nat :=
  match_run (end_of_buffer - current_pos) data i current_pos end_of_buffer 0.

Definition run_length (data : list byte)
    (current_pos lookahead_buffer_size i : nat) : nat :=
  run_in data current_pos
         (Nat.min (current_pos + lookahead_buffer_size) (length data)) i.

(** What the scan holds after the start indices [lo .. hi-1]: nothing
    when no run is positive; otherwise the first index, in scan order,
    whose run is the longest. *)
Definition scanned (data : list byte) (current_pos end_of_buffer lo : nat)
    (hi : nat) (best : nat * nat) : Prop :=
  (best = (0, 0)
   /\ forall j, lo <= j < hi -> run_in data current_pos end_of_buffer j = 0)%nat
  \/ (exists i, lo <= i < hi
        /\ best = (run_in data current_pos end_of_buffer i, current_pos - i)
        /\ 0 < run_in data current_pos end_of_buffer i
        /\ forall j, lo <= j < hi ->
             run_in data current_pos end_of_buffer j
             <= run_in data current_pos end_of_buffer i
             /\ (run_in data current_pos end_of_buffer j
                 = run_in data current_pos end_of_buffer i -> i <= j))%nat.

(** The tie-break as the specification words it: among the start indices
    of the window whose run is as long as the match returned, the match
    has the smallest offset. *)
Definition ties_keep_smallest_offset (data : list byte)
    (current_pos window_size lookahead_buffer_size : nat) : Prop :=
  let found :=
    find_longest_match data current_pos window_size lookahead_buffer_size in
  forall i : nat,
    (current_pos - window_size <= i < current_pos)%nat ->
    run_length data current_pos lookahead_buffer_size i = found.1.2 ->
    (found.1.1 <= current_pos - i)%nat.

(** One field of [variable_length_encode]. *)
Definition encode_field (buf : list byte) (value : Z) : outcome (list byte) :=
  if value <? 128 then append buf value
  else extend buf [Z.lor (Z.shiftr value 8) 128; Z.land value 255].

Definition variable_length_encode (offset length : Z) : outcome (list byte) :=
  let* buf := encode_field [] offset in
  let* buf := encode_field buf length in
  Ok buf.

(** The bytes the specification gives for one value: one byte below 128,
    otherwise the high byte [(value >> 8) | 0x80] and the low byte
    [value & 0xFF]. *)
Definition spec_field (value : Z) : list Z :=
  if value <? 128 then [value]
  else [Z.lor (Z.shiftr value 8) 128; Z.land value 255].

(** One field of [variable_length_decode]: the value and the new position. *)
Definition decode_field (data : list byte) (pos : nat) : outcome (Z * nat) :=
  let* b := index data pos in
  if int_of_byte b <? 128 then Ok (int_of_byte b, (pos + 1)%nat)
  else
    let* b1 := index data (pos + 1) in
    Ok (Z.lor (Z.shiftl (Z.land (int_of_byte b) 127) 8) (int_of_byte b1),
        (pos + 2)%nat).

Definition variable_length_decode (data : list byte) (pos : nat)
  : outcome (Z * Z * nat) :=
  let* (offset, pos) := decode_field data pos in
  let* (length, pos) := decode_field data pos in
  Ok (offset, length, pos).

(** The metadata dictionaries the stage produces:
    [{'compressed': False}] and
    [{'window_size': w, 'lookahead_buffer_size': l, 'compressed': True}]. *)
Inductive metadata : Set :=
| Skipped
| Applied (window_size lookahead_buffer_size : nat).

Definition sentinel : byte := xff.

(** The [while current_pos < len(data)] loop of [compress_lz77]. Every
    iteration advances by at least one byte, so [len(data)] iterations
    are enough (see [compress_loop_fuel]). *)
Fixpoint compress_loop (fuel : nat) (data : list byte)
    (window_size lookahead_buffer_size current_pos : nat) (result : list byte)
  : outcome (list byte) :=
  if (current_pos <? length data)%nat then
    match fuel with
    | O => Ok result
    | S fuel' =>
        let '(offset, length, next_char) :=
          find_longest_match data current_pos window_size lookahead_buffer_size in
        let* enc := variable_length_encode (Z.of_nat offset) (Z.of_nat length) in
        let result := result ++ enc in
        let result := result ++ [default sentinel next_char] in
        compress_loop fuel' data window_size lookahead_buffer_size
                      (current_pos + length + 1) result
    end
  else Ok result.

Definition compress_lz77 (data : list byte)
    (window_size lookahead_buffer_size : nat)
  : outcome (list byte * metadata) :=
  if (length data <? 50)%nat then Ok (data, Skipped)
  else
    let* result :=
      compress_loop (length data) data window_size lookahead_buffer_size 0 [] in
    if (length result <? length data)%nat
    then Ok (result, Applied window_size lookahead_buffer_size)
    else Ok (data, Skipped).

(** [for _ in range(length): result.append(result[-offset])] *)
Fixpoint copy_back (n : nat) (offset : Z) (result : list byte)
  : outcome (list byte) :=
  match n with
  | O => Ok result
  | S n' =>
      let* b := getitem result (- offset) in
      copy_back n' offset (result ++ [b])
  end.

(** [if next_char != 0xFF: result.append(next_char)], where [next_char]
    is [None] when the stream ended: [None != 0xFF] holds and
    [result.append(None)] raises [TypeError]. *)
Definition append_literal (result : list byte) (next_char : option byte)
  : outcome (list byte) :=
  match next_char with
  | None => Raise TypeError
  | Some c => if decide (c = sentinel) then Ok result else Ok (result ++ [c])
  end.

(** The body of the [while pos < len(compressed_data)] loop. *)
Definition decode_token (compressed_data : list byte) (pos : nat)
    (result : list byte) : outcome (nat * list byte) :=
  let* (offset, length, pos) := variable_length_decode compressed_data pos in
  let next_char := compressed_data !! pos in
  let pos := (pos + 1)%nat in
  if (offset =? 0) && (length =? 0) then
    let* result := append_literal result next_char in Ok (pos, result)
  else
    let* result := copy_back (Z.to_nat length) offset result in
    let* result := append_literal result next_char in Ok (pos, result).

(** Every iteration consumes at least three bytes, so
    [len(compressed_data)] iterations are enough. *)
Fixpoint decompress_loop (fuel : nat) (compressed_data : list byte)
    (pos : nat) (result : list byte) : outcome (list byte) :=
  if (pos <? length compressed_data)%nat then
    match fuel with
    | O => Ok result
    | S fuel' =>
        let* (pos, result) := decode_token compressed_data pos result in
        decompress_loop fuel' compressed_data pos result
    end
  else Ok result.

Definition decompress_lz77 (compressed_data : list byte) (md : metadata)
  : outcome (list byte) :=
  match md with
  | Skipped => Ok compressed_data
  | Applied _ _ => decompress_loop (length compressed_data) compressed_data 0 []
  end.

(** *** The token stream

    [compress_loop] and [decompress_loop] seen token by token: the
    triples [(offset, length, next_char)] of the successive matches, the
    bytes one triple is written as, and what the decoder does with one
    triple. *)

Definition token : Type := nat * nat * option byte.

Fixpoint tokens_from (fuel : nat) (data : list byte)
    (window_size lookahead_buffer_size current_pos : nat) : list token :=
  if (current_pos <? length data)%nat then
    match fuel with
    | O => []
    | S fuel' =>
        let t :=
          find_longest_match data current_pos window_size lookahead_buffer_size in
        t :: tokens_from fuel' data window_size lookahead_buffer_size
               (current_pos + t.1.2 + 1)
    end
  else [].

Definition lz_tokens (data : list byte)
    (window_size lookahead_buffer_size : nat) : list token :=
  tokens_from (length data) data window_size lookahead_buffer_size 0.

(** The literal byte written for a token: [next_char], or the sentinel. *)
Definition literal_byte (t : token) : byte := default sentinel t.2.

Definition emit (result : list byte) (t : token) : outcome (list byte) :=
  let* enc := variable_length_encode (Z.of_nat t.1.1) (Z.of_nat t.1.2) in
  Ok ((result ++ enc) ++ [literal_byte t]).

(** The decoder's step on a token read back as [(offset, length)] and the
    literal byte. *)
Definition replay (result : list byte) (t : token) : outcome (list byte) :=
  let offset := Z.of_nat t.1.1 in
  let length := Z.of_nat t.1.2 in
  if (offset =? 0) && (length =? 0) then
    append_literal result (Some (literal_byte t))
  else
    let* result := copy_back (Z.to_nat length) offset result in
    append_literal result (Some (literal_byte t)).

(** A token whose literal is a byte [0xFF] of the data, not the
    end-of-buffer sentinel. *)
Definition genuine_ff (t : token) : bool := bool_decide (t.2 = Some sentinel).

(** What holds of every token the compressor emits from a position on. *)
Definition token_ok (data : list byte) (window_size : nat)
    (current_pos : nat) (t : token) : Prop :=
  (t.2 = data !! (current_pos + t.1.2)
   /\ current_pos + t.1.2 <= length data
   /\ ((t.1.1 = 0 /\ t.1.2 = 0)
       \/ (0 < t.1.2 /\ t.1.2 <= t.1.1 /\ t.1.1 <= current_pos
           /\ t.1.1 <= window_size
           /\ forall k, k < t.1.2 ->
                data !! (current_pos - t.1.1 + k)
                = data !! (current_pos + k))))%nat.

(** A token whose two fields fit the 15 bits of the encoding. *)
Definition encodable (t : token) : Prop :=
  Z.of_nat t.1.1 <= 32767 /\ Z.of_nat t.1.2 <= 32767.

(** The bytes of the data a token stands for, and the bytes the decoder
    writes for it. *)
Definition consumed (t : token) : nat :=
  (t.1.2 + (if t.2 is Some _ then 1 else 0))%nat.

Definition written (t : token) : nat :=
  (t.1.2 + (if decide (literal_byte t = sentinel) then 0 else 1))%nat.

Definition sum_of (f : token -> nat) (toks : list token) : nat :=
  foldr (fun t acc => (f t + acc)%nat) 0%nat toks.

(** The states [(pos, result)] the decoder is in at the head of its
    [while] loop on a stream. *)
Inductive decodes_to (compressed_data : list byte)
  : nat -> list byte -> Prop :=
| decodes_start : decodes_to compressed_data 0 []
| decodes_step (pos : nat) (result : list byte)
               (pos' : nat) (result' : list byte) :
    decodes_to compressed_data pos result ->
    (pos < length compressed_data)%nat ->
    decode_token compressed_data pos result = Ok (pos', result') ->
    decodes_to compressed_data pos' result'.

(** Validation before indexing, as the specification words it: no read
    of the decoder is out of range, that is, none raises [IndexError]. *)
Definition validates_before_indexing (compressed_data : list byte) : Prop :=
  forall window_size lookahead_buffer_size,
    decompress_lz77 compressed_data
      (Applied window_size lookahead_buffer_size) <> Raise IndexError.

(** The loss of a genuine [0xFF] literal as the specification words it:
    when the stage is applied and a token carries such a literal,
    decompression returns a buffer, and the buffer lacks a byte. *)
Definition drops_literal_silently (data : list byte)
    (window_size lookahead_buffer_size : nat) : Prop :=
  forall stream,
    compress_lz77 data window_size lookahead_buffer_size
    = Ok (stream, Applied window_size lookahead_buffer_size) ->
    existsb genuine_ff (lz_tokens data window_size lookahead_buffer_size)
    = true ->
    exists out,
      decompress_lz77 stream (Applied window_size lookahead_buffer_size)
      = Ok out
      /\ (length out < length data)%nat.

End LZ77.

(** [for x in l: s = f(s, x)] where the body may raise. *)
Fixpoint for_each {A S} (f : S -> A -> outcome S) (s : S) (l : list A)
  : outcome S :=
  match l with
  | [] => Ok s
  | x :: l' => let* s := f s x in for_each f s l'
  end.

(** [range(0, n, 8)] *)
Definition range_by_8 (n : nat) : list nat :=
  map (fun k => (8 * k)%nat) (seq 0 ((n + 7) / 8)).

(** [int.from_bytes(bs, 'little')] *)
Definition int_from_bytes_le (bs : list byte) : Z :=
  foldr (fun b acc => int_of_byte b + 256 * acc) 0 bs.

(** ** huffman.py *)

Module Huffman.

(** [Counter(data)]: the counts, keyed in order of first occurrence. *)
Definition build_frequency_table (data : list byte) : list (byte * nat) :=
  foldl (fun table b => dict_set b (S (default O (dict_get b table))) table)
        [] data.

(** A heap entry [[weight, [symbol, code], [symbol, code], ...]]. *)
Definition node : Type := nat * list (byte * str).

(** Python's [<] on lists: the first position where the elements differ
    decides; a proper prefix is smaller. *)
Fixpoint lex_lt {A} `{EqDecision A} (lt : A -> A -> bool) (l1 l2 : list A)
  : bool :=
  match l1, l2 with
  | [], [] => false
  | [], _ :: _ => true
  | _ :: _, [] => false
  | x :: l1', y :: l2' => if decide (x = y) then lex_lt lt l1' l2' else lt x y
  end.

Definition char_lt (a b : ascii) : bool := (N_of_ascii a <? N_of_ascii b)%N.

(** [[symbol, code] < [symbol', code']] *)
Definition pair_lt (p q : byte * str) : bool :=
  if decide (p.1 = q.1) then lex_lt char_lt p.2 q.2
  else int_of_byte p.1 <? int_of_byte q.1.

(** [x < y] on heap entries. *)
Definition node_lt (x y : node) : bool :=
  if decide (x.1 = y.1) then lex_lt pair_lt x.2 y.2 else (x.1 <? y.1)%nat.

(** [heapq]: the heap is kept as the list of its entries, [heappop]
    removes the least entry for [node_lt] and [heappush] adds one. The
    entries of a heap of [build_huffman_tree] hold disjoint symbols, so
    two of them always differ at the weight or at the first symbol,
    [node_lt] orders them strictly and totally, and the least entry is
    the one [heapq.heappop] returns, whatever the array layout. The
    properties of the code table proved below hold whichever entry is
    removed. *)
Fixpoint pop_min (x : node) (heap : list node) : node * list node :=
  match heap with
  | [] => (x, [])
  | y :: heap' =>
      let (m, rest) := pop_min y heap' in
      if node_lt m x then (m, x :: rest) else (x, y :: heap')
  end.

Definition heappop (heap : list node) : outcome (node * list node) :=
  match heap with
  | [] => Raise IndexError
  | x :: heap' => Ok (pop_min x heap')
  end.

Definition heappush (heap : list node) (x : node) : list node := x :: heap.

(** [for pair in entry[1:]: pair[1] = bit + pair[1]] *)
Definition relabel (bit : ascii) (pairs : list (byte * str))
  : list (byte * str) :=
  map (fun leaf => (leaf.1, bit :: leaf.2)) pairs.

(** The [while len(heap) > 1] loop: every iteration removes two entries
    and adds one, so [len(heap)] iterations are enough. *)
Fixpoint merge_loop (fuel : nat) (heap : list node) : outcome (list node) :=
  if (1 <? length heap)%nat then
    match fuel with
    | O => Ok heap
    | S fuel' =>
        let* (lo, heap) := heappop heap in
        let* (hi, heap) := heappop heap in
        merge_loop fuel'
          (heappush heap
             ((lo.1 + hi.1)%nat, relabel "0" lo.2 ++ relabel "1" hi.2))
    end
  else Ok heap.

Definition build_huffman_tree (freq_table : list (byte * nat)) : outcome node :=
  let heap := map (fun item => (item.2, [(item.1, [])])) freq_table in
  if (length heap =? 1)%nat then
    let* entry := index heap 0 in
    let* leaf := index entry.2 0 in
    Ok (1%nat, [(leaf.1, ["0"%char])])
  else
    let* heap := merge_loop (length heap) heap in
    index heap 0.

Definition build_huffman_codes (huffman_tree : node) : list (byte * str) :=
  foldl (fun codes leaf => dict_set leaf.1 leaf.2 codes) [] huffman_tree.2.

(** [len(codes).to_bytes(2, 'little')] *)
Definition to_bytes2_le (n : Z) : outcome (list byte) :=
  if (n <? 0) || (65536 <=? n) then Raise OverflowError
  else
    let* lo := byte_of_int (n mod 256) in
    let* hi := byte_of_int (n / 256) in
    Ok [lo; hi].

(** [sum((1 << (7-j)) * (code[i+j] == '1') for j in range(8) if i+j < len(code))] *)
Definition chunk_value (code : str) (i : nat) : Z :=
  foldr (fun j acc =>
           if (i + j <? length code)%nat
           then Z.shiftl 1 (7 - Z.of_nat j)
                * Z.b2z (bool_decide (code !! (i + j)%nat = Some "1"%char))
                + acc
           else acc)
        0 (seq 0 8).

Definition serialize_entry (result : list byte) (entry : byte * str)
  : outcome (list byte) :=
  let result := result ++ [entry.1] in
  let* result := append result (Z.of_nat (length entry.2)) in
  for_each (fun result i => append result (chunk_value entry.2 i))
           result (range_by_8 (length entry.2)).

Definition serialize_tree (codes : list (byte * str)) : outcome (list byte) :=
  let* result := to_bytes2_le (Z.of_nat (length codes)) in
  for_each serialize_entry result codes.

(** ['1' if data[pos + i//8] & (1 << (7 - i%8)) else '0'] joined over
    [range(code_length)]. *)
Definition read_code (data : list byte) (pos code_length : nat) : outcome str :=
  for_each (fun code i =>
              let* b := index data (pos + i / 8) in
              Ok (code ++ [if Z.land (int_of_byte b)
                                     (Z.shiftl 1 (7 - Z.of_nat (i mod 8))) =? 0
                           then "0"%char else "1"%char]))
           [] (seq 0 code_length).

(** One iteration of the loop of [deserialize_tree], on [(codes, pos)]. *)
Definition deserialize_entry (data : list byte)
    (state : list (byte * str) * nat) : outcome (list (byte * str) * nat) :=
  let (codes, pos) := state in
  let* symbol := index data pos in
  let* code_length := index data (pos + 1) in
  let code_length := Z.to_nat (int_of_byte code_length) in
  let pos := (pos + 2)%nat in
  let* code := read_code data pos code_length in
  Ok (dict_set symbol code codes, (pos + (code_length + 7) / 8)%nat).

Definition deserialize_tree (data : list byte) : outcome (list (byte * str)) :=
  let count := Z.to_nat (int_from_bytes_le (take 2 data)) in
  let* state :=
    for_each (fun state _ => deserialize_entry data state)
             ([], 2%nat) (seq 0 count) in
  Ok state.1.

(** [int(s, 2)] on a string of binary digits; Python raises [ValueError]
    on the empty string and on other digits. *)
Definition int_base2 (s : str) : outcome Z :=
  match s with
  | [] => Raise ValueError
  | _ =>
      for_each (fun acc c =>
                  if decide (c = "0"%char) then Ok (2 * acc)
                  else if decide (c = "1"%char) then Ok (2 * acc + 1)
                  else Raise ValueError)
               0 s
  end.

Definition efficient_binary_string_to_bytes (binary_string : str)
  : outcome (list byte * nat) :=
  let padding :=
    if (length binary_string mod 8 =? 0)%nat then O
    else (8 - length binary_string mod 8)%nat in
  let binary_string := binary_string ++ replicate padding "0"%char in
  let* packed :=
    for_each (fun packed i =>
                let* v := int_base2 (take 8 (drop i binary_string)) in
                append packed v)
             [] (range_by_8 (length binary_string)) in
  Ok (packed, padding).

(** [format(byte, '08b')] *)
Definition format_08b (b : byte) : str :=
  map (fun j => if Z.testbit (int_of_byte b) (7 - Z.of_nat j)
                then "1"%char else "0"%char)
      (seq 0 8).

Definition efficient_bytes_to_binary_string (data : list byte) (padding : nat)
  : str :=
  let result := concat (map format_08b data) in
  if (padding =? 0)%nat then result
  else take (length result - padding) result.

(** The metadata dictionaries the stage produces:
    [{'compressed': False}] and
    [{'huffman_codes': tree_bytes, 'padding': padding, 'compressed': True}]. *)
Inductive metadata : Set :=
| Skipped
| Applied (huffman_codes : list byte) (padding : nat).

(** [''.join(codes[byte] for byte in data)] *)
Definition encode (codes : list (byte * str)) (data : list byte) : outcome str :=
  for_each (fun encoded b => let* code := dict_item codes b in
                             Ok (encoded ++ code))
           [] data.

Definition compress_huffman (data : list byte)
  : outcome (list byte * metadata) :=
  if (length data <? 100)%nat then Ok (data, Skipped)
  else
    let freq_table := build_frequency_table data in
    let* tree := build_huffman_tree freq_table in
    let codes := build_huffman_codes tree in
    let* encoded := encode codes data in
    let* (compressed_bytes, padding) :=
      efficient_binary_string_to_bytes encoded in
    let* tree_bytes := serialize_tree codes in
    if (length data <=? length compressed_bytes + length tree_bytes + 10)%nat
    then Ok (data, Skipped)
    else Ok (compressed_bytes, Applied tree_bytes padding).

(** The body of [for bit in binary_string], on [(result, code)]. *)
Definition decode_bit (lookup : list (str * byte))
    (state : list byte * str) (bit : ascii) : list byte * str :=
  let code := state.2 ++ [bit] in
  match dict_get code lookup with
  | Some symbol => (state.1 ++ [symbol], [])
  | None => (state.1, code)
  end.

(** [{code: symbol for symbol, code in codes.items()}] *)
Definition invert (codes : list (byte * str)) : list (str * byte) :=
  foldl (fun lookup item => dict_set item.2 item.1 lookup) [] codes.

Definition decompress_huffman (compressed_data : list byte) (md : metadata)
  : outcome (list byte) :=
  match md with
  | Skipped => Ok compressed_data
  | Applied huffman_codes padding =>
      let* codes := deserialize_tree huffman_codes in
      let lookup := invert codes in
      let binary_string :=
        efficient_bytes_to_binary_string compressed_data padding in
      Ok (foldl (decode_bit lookup) ([], []) binary_string).1
  end.

(** *** Code tables *)

Definition is_bit (c : ascii) : Prop := c = "0"%char \/ c = "1"%char.

(** No code of the table is a prefix of the code of another symbol. *)
Definition prefix_free (codes : list (byte * str)) : Prop :=
  forall p q, p ∈ codes -> q ∈ codes -> p.1 <> q.1 -> ~ p.2 `prefix_of` q.2.

(** The [[symbol, code]] pairs of all the entries of a heap. *)
Definition leaves (heap : list node) : list (byte * str) :=
  concat (map snd heap).

(** What holds of every entry of the heap of [build_huffman_tree]: it has
    a pair; its codes are prefix-free; it is a lone symbol with the empty
    code or all its codes are non-empty; a code is shorter than the
    number of pairs and is made of binary digits. *)
Definition entry_ok (entry : node) : Prop :=
  entry.2 <> []
  /\ prefix_free entry.2
  /\ ((exists symbol, entry.2 = [(symbol, [])])
      \/ Forall (fun p => p.2 <> []) entry.2)
  /\ Forall (fun p => (length p.2 < length entry.2)%nat /\ Forall is_bit p.2)
            entry.2.

(** *** The serialized table

    The bit of a code at an index (absent digits count as zero), the
    value of eight bits most-significant first, the bytes of one entry,
    and the layout the specification gives: count on two bytes
    little-endian, then per symbol the symbol, the code length in bits
    and [ceil(length/8)] bytes that hold the code padded with zeros and
    read eight digits at a time. *)

Definition bit_at (code : str) (n : nat) : bool :=
  bool_decide (code !! n = Some "1"%char).

Definition pack8 (b0 b1 b2 b3 b4 b5 b6 b7 : bool) : Z :=
  128 * Z.b2z b0 + 64 * Z.b2z b1 + 32 * Z.b2z b2 + 16 * Z.b2z b3
  + 8 * Z.b2z b4 + 4 * Z.b2z b5 + 2 * Z.b2z b6 + Z.b2z b7.

Definition chunk_bytes (code : str) : list byte :=
  map (fun i => byte_of_Z (chunk_value code i)) (range_by_8 (length code)).

Definition entry_bytes (entry : byte * str) : list byte :=
  entry.1 :: byte_of_Z (Z.of_nat (length entry.2)) :: chunk_bytes entry.2.

Definition table_bytes (codes : list (byte * str)) : list byte :=
  [byte_of_Z (Z.of_nat (length codes) mod 256);
   byte_of_Z (Z.of_nat (length codes) / 256)]
  ++ concat (map entry_bytes codes).

Definition bits_value (digits : str) : Z :=
  foldl (fun acc c => 2 * acc + (if decide (c = "1"%char) then 1 else 0))
        0 digits.

Definition spec_code_bytes (code : str) : list Z :=
  let padded :=
    code ++ replicate ((8 - length code mod 8) mod 8) "0"%char in
  map (fun k => bits_value (take 8 (drop (8 * k) padded)))
      (seq 0 ((length code + 7) / 8)).

Definition spec_table_layout (codes : list (byte * str)) : list Z :=
  [Z.of_nat (length codes) mod 256; Z.of_nat (length codes) / 256]
  ++ concat (map (fun entry =>
                    [int_of_byte entry.1; Z.of_nat (length entry.2)]
                    ++ spec_code_bytes entry.2)
                 codes).

(** The code of a byte in a table (empty when the byte has none), and the
    chunks of eight digits of a string. *)
Definition code_of (codes : list (byte * str)) (b : byte) : str :=
  default [] (dict_get b codes).

Definition chunk (digits : str) (k : nat) : str :=
  take 8 (drop (8 * k) digits).

(** [{'lz77': lz77_metadata, 'huffman': huffman_metadata}] *)
Record combined_metadata : Set :=
  { lz77 : LZ77.metadata; huffman : metadata }.

Definition combined_compress (data : list byte)
  : outcome (list byte * combined_metadata) :=
  let* (lz77_compressed, lz77_metadata) := LZ77.compress_lz77 data 4096 128 in
  let* (huffman_compressed, huffman_metadata) :=
    compress_huffman lz77_compressed in
  Ok (huffman_compressed,
      {| lz77 := lz77_metadata; huffman := huffman_metadata |}).

Definition combined_decompress (compressed_data : list byte)
    (md : combined_metadata) : outcome (list byte) :=
  let* huffman_decoded := decompress_huffman compressed_data (huffman md) in
  LZ77.decompress_lz77 huffman_decoded (lz77 md).

End Huffman.

(** ** helper.py: the container reader *)

Module Container.

Record metadata : Set :=
  { width : Z; height : Z; channels : Z;
    header_data : list byte; encoding_metadata : list byte }.

(** [f.read(n)] on the unread part of the file: the bytes returned (all
    that remain when fewer than [n] do) and what is left to read. *)
Definition read (n : Z) (file : list byte) : list byte * list byte :=
  (take (Z.to_nat n) file, drop (Z.to_nat n) file).

(** [struct.unpack('<I', buf)], [struct.unpack('<II', buf)] and
    [struct.unpack('<B', buf)]: little-endian unsigned fields;
    [struct.error] unless the buffer has exactly the size of the format. *)
Definition unpack_u32 (buf : list byte) : outcome Z :=
  if (length buf =? 4)%nat then Ok (int_from_bytes_le buf)
  else Raise StructError.

Definition unpack_u32_u32 (buf : list byte) : outcome (Z * Z) :=
  if (length buf =? 8)%nat
  then Ok (int_from_bytes_le (take 4 buf), int_from_bytes_le (drop 4 buf))
  else Raise StructError.

Definition unpack_u8 (buf : list byte) : outcome Z :=
  if (length buf =? 1)%nat then Ok (int_from_bytes_le buf)
  else Raise StructError.

(** [f.read(struct.unpack('<I', f.read(4))[0])] *)
Definition read_blob (file : list byte) : outcome (list byte * list byte) :=
  let (buf, file) := read 4 file in
  let* n := unpack_u32 buf in
  Ok (read n file).

(** The body of the [try] block of [load_compressed_file], on the content
    of the file. *)
Definition load_body (file : list byte) : outcome (list byte * metadata) :=
  let (buf, file) := read 8 file in
  let* (width, height) := unpack_u32_u32 buf in
  let (buf, file) := read 1 file in
  let* channels := unpack_u8 buf in
  let* (header_data, file) := read_blob file in
  let* (encoding_metadata, file) := read_blob file in
  let* (compressed_data, file) := read_blob file in
  Ok (compressed_data,
      {| width := width; height := height; channels := channels;
         header_data := header_data;
         encoding_metadata := encoding_metadata |}).

(** [load_compressed_file]: [except Exception] turns every exception of
    the body into the result [(None, None)], here [None]. *)
Definition load_compressed_file (file : list byte)
  : option (list byte * metadata) :=
  match load_body file with
  | Ok loaded => Some loaded
  | Raise _ => None
  end.

(** A stream that holds every field up to and including the
    [payload_length] prefix: the metadata it yields and the payload
    length it declares. *)
Definition head_declares (head : list byte) (declared : Z) (md : metadata)
  : Prop :=
  exists w h c p1 hdr p2 meta p3 : list byte,
    head = w ++ h ++ c ++ p1 ++ hdr ++ p2 ++ meta ++ p3
    /\ length w = 4%nat /\ length h = 4%nat /\ length c = 1%nat
    /\ length p1 = 4%nat /\ length hdr = Z.to_nat (int_from_bytes_le p1)
    /\ length p2 = 4%nat /\ length meta = Z.to_nat (int_from_bytes_le p2)
    /\ length p3 = 4%nat
    /\ declared = int_from_bytes_le p3
    /\ md = {| width := int_from_bytes_le w; height := int_from_bytes_le h;
               channels := int_from_bytes_le c;
               header_data := hdr; encoding_metadata := meta |}.

(** The read failure the specification asks for: when fewer bytes remain
    than the [payload_length] prefix declares, the load fails. *)
Definition rejects_short_payload : Prop :=
  forall head declared md rest,
    head_declares head declared md ->
    Z.of_nat (length rest) < declared ->
    load_compressed_file (head ++ rest) = None.

End Container.

(** ** helper.py: the container writer and the bit-string helpers *)

Module Helper.

(** The [size] low bytes of [v], least significant first. *)
Fixpoint to_bytes_le (size : nat) (v : Z) : list byte :=
  match size with
  | O => []
  | S size' => byte_of_Z (v mod 256) :: to_bytes_le size' (v / 256)
  end.

(** One unsigned field of a [struct.pack('<...')]: [struct.error] unless
    [0 <= v < 256 ** size]. *)
Definition pack_uint (size : nat) (v : Z) : outcome (list byte) :=
  if (v <? 0) || (256 ^ Z.of_nat size <=? v) then Raise StructError
  else Ok (to_bytes_le size v).

(** [struct.pack('<IIB', width, height, channels)] *)
Definition pack_u32_u32_u8 (width height channels : Z)
  : outcome (list byte) :=
  let* w := pack_uint 4 width in
  let* h := pack_uint 4 height in
  let* c := pack_uint 1 channels in
  Ok (w ++ h ++ c).

(** [struct.pack('<I', len(blob)) + blob] *)
Definition pack_blob (blob : list byte) : outcome (list byte) :=
  let* n := pack_uint 4 (Z.of_nat (length blob)) in
  Ok (n ++ blob).

(** [save_compressed_file], for metadata whose [encoding_metadata] is a
    [bytes] object: the value returned and the content of the file when
    the call returns.  The file is opened for writing, so it starts
    empty; each [f.write] happens once its argument has been built, and
    [except Exception] turns a failure into the result [False], with the
    writes made so far left in the file. *)
Definition save_compressed_file (compressed_data : list byte)
    (md : Container.metadata) : bool * list byte :=
  match pack_u32_u32_u8 (Container.width md) (Container.height md)
          (Container.channels md) with
  | Raise _ => (false, [])
  | Ok dims =>
      let file := dims in
      match pack_blob (Container.header_data md) with
      | Raise _ => (false, file)
      | Ok blob =>
          let file := file ++ blob in
          match pack_blob (Container.encoding_metadata md) with
          | Raise _ => (false, file)
          | Ok blob =>
              let file := file ++ blob in
              match pack_blob compressed_data with
              | Raise _ => (false, file)
              | Ok blob => (true, file ++ blob)
              end
          end
      end
  end.

(** The fields of a container that [struct.pack] accepts. *)
Definition packable (compressed_data : list byte) (md : Container.metadata)
  : Prop :=
  0 <= Container.width md < 2 ^ 32
  /\ 0 <= Container.height md < 2 ^ 32
  /\ 0 <= Container.channels md < 256
  /\ Z.of_nat (length (Container.header_data md)) < 2 ^ 32
  /\ Z.of_nat (length (Container.encoding_metadata md)) < 2 ^ 32
  /\ Z.of_nat (length compressed_data) < 2 ^ 32.

(** [''.join(format(byte, '08b') for byte in data)] *)
Definition bytes_to_binary_string (data : list byte) : str :=
  concat (map Huffman.format_08b data).

(** [bytes(int(binary_string[i:i+8], 2)
           for i in range(0, len(binary_string) + padding, 8))]:
    the string itself is not padded, so the last slice is shorter than
    eight digits when the length is no multiple of eight. The slices
    are read by [int_base2], which is [int(s, 2)] on strings of the
    digits ['0'] and ['1'], the strings the properties below are about. *)
Definition binary_string_to_bytes (binary_string : str)
  : outcome (list byte) :=
  let padding :=
    if (length binary_string mod 8 =? 0)%nat then O
    else (8 - length binary_string mod 8)%nat in
  for_each (fun out i =>
              let* v := Huffman.int_base2 (take 8 (drop i binary_string)) in
              append out v)
           [] (range_by_8 (length binary_string + padding)).

End Helper.

(** * Properties *)

(** ** Bytes and indexing *)

Lemma int_of_byte_range (b : byte) : 0 <= int_of_byte b < 256.
Proof.
  unfold int_of_byte. pose proof (Byte.to_N_bounded b). lia.
Qed.

Lemma byte_of_int_of_byte (b : byte) : byte_of_int (int_of_byte b) = Ok b.
Proof.
  unfold byte_of_int, int_of_byte.
  destruct (Z.ltb_spec (Z.of_N (Byte.to_N b)) 0) as [Hneg|_]; [lia|].
  by rewrite N2Z.id, Byte.of_to_N.
Qed.

Lemma byte_of_int_Ok (z : Z) :
  0 <= z < 256 -> exists b, byte_of_int z = Ok b /\ int_of_byte b = z.
Proof.
  intros Hz. unfold byte_of_int.
  destruct (Z.ltb_spec z 0) as [|_]; [lia|].
  destruct (Byte.of_N (Z.to_N z)) as [b|] eqn:Hb.
  - exists b. split; [done|]. unfold int_of_byte.
    apply Byte.to_of_N in Hb. lia.
  - apply Byte.of_N_None_iff in Hb. lia.
Qed.

Lemma byte_of_int_byte_of_Z (z : Z) :
  0 <= z < 256 ->
  byte_of_int z = Ok (byte_of_Z z) /\ int_of_byte (byte_of_Z z) = z.
Proof.
  intros Hz. destruct (byte_of_int_Ok z Hz) as (b & Hb & Hv).
  assert (byte_of_Z z = b) as ->; [|done].
  unfold byte_of_int, byte_of_Z in *.
  destruct (z <? 0); [done|].
  destruct (Byte.of_N (Z.to_N z)); [|done]. simpl. congruence.
Qed.

Lemma append_Ok (buf : list byte) (z : Z) :
  0 <= z < 256 -> append buf z = Ok (buf ++ [byte_of_Z z]).
Proof.
  intros Hz. unfold append.
  by destruct (byte_of_int_byte_of_Z z Hz) as [-> _].
Qed.

Lemma index_Ok {A} (data : list A) (i : nat) (x : A) :
  index data i = Ok x <-> data !! i = Some x.
Proof. unfold index. destruct (data !! i); split; congruence. Qed.

Lemma index_app_r {A} (pre l : list A) (k : nat) :
  index (pre ++ l) (length pre + k) = index l k.
Proof. unfold index. by rewrite lookup_app_r, Nat.add_comm, Nat.add_sub by lia. Qed.

Lemma index_app_here {A} (pre l : list A) (x : A) :
  index (pre ++ x :: l) (length pre) = Ok x.
Proof. unfold index. by rewrite list_lookup_middle. Qed.

(** ** Bit arithmetic of the two-byte form *)

Lemma land_shifted_low (a b n : Z) :
  0 <= n -> 0 <= b < 2 ^ n -> Z.land (a * 2 ^ n) b = 0.
Proof.
  intros Hn Hb. apply Z.bits_inj'. intros m Hm.
  rewrite Z.land_spec, Z.bits_0.
  destruct (Z.lt_ge_cases m n) as [Hlt|Hge].
  - by rewrite Z.mul_pow2_bits_low.
  - rewrite <- (Z.mod_small b (2 ^ n)) by lia.
    rewrite Z.mod_pow2_bits_high by lia. apply andb_false_r.
Qed.

Lemma lor_shifted_low (a b n : Z) :
  0 <= n -> 0 <= b < 2 ^ n -> Z.lor (a * 2 ^ n) b = a * 2 ^ n + b.
Proof.
  intros Hn Hb. pose proof (land_shifted_low a b n Hn Hb) as Hland.
  by rewrite <- Z.lxor_lor, <- Z.add_nocarry_lxor.
Qed.

Lemma high_byte_value (v : Z) :
  128 <= v <= 32767 ->
  Z.lor (Z.shiftr v 8) 128 = v / 256 + 128 /\ 128 <= v / 256 + 128 < 256.
Proof.
  intros Hv. rewrite Z.shiftr_div_pow2 by lia. change (2 ^ 8) with 256.
  assert (0 <= v / 256 < 128) as Hq.
  { split; [apply Z.div_pos; lia|apply Z.div_lt_upper_bound; lia]. }
  split; [|lia].
  rewrite Z.lor_comm.
  pose proof (lor_shifted_low 1 (v / 256) 7) as H.
  change (1 * 2 ^ 7) with 128 in H. rewrite H; lia.
Qed.

Lemma two_byte_value (h l : Z) :
  128 <= h < 256 -> 0 <= l < 256 ->
  Z.lor (Z.shiftl (Z.land h 127) 8) l = (h - 128) * 256 + l.
Proof.
  intros Hh Hl. change 127 with (Z.ones 7). rewrite Z.land_ones by lia.
  change (2 ^ 7) with 128.
  replace (h mod 128) with (h - 128).
  2:{ apply Z.mod_unique with 1; lia. }
  rewrite Z.shiftl_mul_pow2 by lia. apply lor_shifted_low; lia.
Qed.

Lemma low_byte_value (v : Z) : Z.land v 255 = v mod 256.
Proof. change 255 with (Z.ones 8). by rewrite Z.land_ones by lia. Qed.

(** ** Variable-length integers *)

Module VarintProofs.
Import LZ77.

Lemma encode_field_spec (buf : list byte) (v : Z) :
  0 <= v <= 32767 ->
  exists enc,
    encode_field buf v = Ok (buf ++ enc)
    /\ map int_of_byte enc = spec_field v
    /\ forall pre suf,
        decode_field (pre ++ enc ++ suf) (length pre)
        = Ok (v, (length pre + length enc)%nat).
Proof.
  intros Hv. unfold encode_field, spec_field.
  destruct (Z.ltb_spec v 128) as [Hsmall|Hlarge].
  - destruct (byte_of_int_Ok v) as (b & Hb & Hbv); [lia|].
    exists [b]. unfold append. rewrite Hb. simpl. rewrite Hbv.
    split; [done|]. split; [done|]. intros pre suf.
    unfold decode_field. simpl. rewrite index_app_here. simpl.
    rewrite Hbv. by destruct (Z.ltb_spec v 128); [|lia].
  - destruct (high_byte_value v) as [Hh Hhr]; [lia|].
    pose proof (low_byte_value v) as Hl.
    assert (0 <= v mod 256 < 256) as Hlr by (apply Z.mod_pos_bound; lia).
    destruct (byte_of_int_Ok (Z.lor (Z.shiftr v 8) 128)) as (h & Hhb & Hhv);
      [lia|].
    destruct (byte_of_int_Ok (Z.land v 255)) as (l & Hlb & Hlv); [lia|].
    exists [h; l]. simpl. unfold append. rewrite Hhb. simpl. rewrite Hlb. simpl.
    rewrite <- app_assoc. simpl. rewrite Hhv, Hlv.
    split; [done|]. split; [done|]. intros pre suf.
    unfold decode_field. simpl. rewrite index_app_here. simpl.
    rewrite Hhv. destruct (Z.ltb_spec (Z.lor (Z.shiftr v 8) 128) 128); [lia|].
    rewrite index_app_r. simpl. rewrite Hlv, two_byte_value by lia.
    do 2 f_equal. rewrite Hh, Hl.
    pose proof (Z.div_mod v 256). lia.
Qed.

Lemma variable_length_spec (offset length : Z) :
  0 <= offset <= 32767 -> 0 <= length <= 32767 ->
  exists enc,
    variable_length_encode offset length = Ok enc
    /\ map int_of_byte enc = spec_field offset ++ spec_field length
    /\ forall pre suf,
        variable_length_decode (pre ++ enc ++ suf) (List.length pre)
        = Ok (offset, length, (List.length pre + List.length enc)%nat).
Proof.
  intros Ho Hl. unfold variable_length_encode.
  destruct (encode_field_spec [] offset Ho) as (e1 & He1 & Hm1 & Hd1).
  rewrite He1. simpl.
  destruct (encode_field_spec e1 length Hl) as (e2 & He2 & Hm2 & Hd2).
  rewrite He2. simpl.
  exists (e1 ++ e2). split; [done|]. split.
  { by rewrite map_app, Hm1, Hm2. }
  intros pre suf. unfold variable_length_decode.
  rewrite <- (app_assoc e1 e2 suf), Hd1. simpl.
  rewrite (app_assoc pre e1 (e2 ++ suf)), <- (length_app pre e1), Hd2. simpl.
  by rewrite !length_app, Nat.add_assoc.
Qed.

End VarintProofs.

(** C9. For every offset and length in 0..32767, [variable_length_encode]
    succeeds and emits, for each of the two values, one byte when the
    value is below 128 and otherwise the two bytes
    [(value >> 8) | 0x80] and [value & 0xFF]; [variable_length_decode]
    at the place of these bytes in any stream returns the offset and the
    length and the position just past the bytes emitted. *)
Theorem variable_length_roundtrip (offset length : Z) :
  0 <= offset <= 32767 -> 0 <= length <= 32767 ->
  exists enc,
    LZ77.variable_length_encode offset length = Ok enc
    /\ map int_of_byte enc
       = (if offset <? 128 then [offset]
          else [Z.lor (Z.shiftr offset 8) 128; Z.land offset 255])
         ++ (if length <? 128 then [length]
             else [Z.lor (Z.shiftr length 8) 128; Z.land length 255])
    /\ List.length enc
       = Nat.add (if offset <? 128 then 1%nat else 2%nat)
                 (if length <? 128 then 1%nat else 2%nat)
    /\ forall pre suf,
        LZ77.variable_length_decode (pre ++ enc ++ suf) (List.length pre)
        = Ok (offset, length, (List.length pre + List.length enc)%nat).
Proof.
  intros Ho Hl.
  destruct (VarintProofs.variable_length_spec offset length Ho Hl)
    as (enc & Henc & Hmap & Hdec).
  exists enc. split; [done|]. split; [done|]. split; [|done].
  rewrite <- (length_map int_of_byte enc), Hmap, length_app.
  unfold LZ77.spec_field.
  by destruct (offset <? 128), (length <? 128).
Qed.

Lemma variable_length_roundtrip_witness :
  exists enc,
    LZ77.variable_length_encode 300 5 = Ok enc
    /\ map int_of_byte enc = [129; 44; 5]
    /\ List.length enc = 3%nat
    /\ forall pre suf,
        LZ77.variable_length_decode (pre ++ enc ++ suf) (List.length pre)
        = Ok (300, 5, (List.length pre + List.length enc)%nat).
Proof. apply (variable_length_roundtrip 300 5); lia. Defined.

(** ** The match finder *)

Module FinderProofs.
Import LZ77.

Section MatchRun.
Variable data : list byte.
Variables i current_pos end_of_buffer : nat.

Local Open Scope nat_scope.

(** The fuel does not matter once it covers the room left in the
    lookahead. *)
Lemma match_run_fuel (fuel fuel' ml : nat) :
  end_of_buffer - (current_pos + ml) <= fuel ->
  end_of_buffer - (current_pos + ml) <= fuel' ->
  match_run fuel data i current_pos end_of_buffer ml
  = match_run fuel' data i current_pos end_of_buffer ml.
Proof.
  revert fuel' ml. induction fuel as [|fuel IH]; intros fuel' ml H1 H2.
  - destruct fuel' as [|fuel']; [done|]. simpl.
    destruct (Nat.ltb_spec (current_pos + ml) end_of_buffer); [lia|done].
  - destruct fuel' as [|fuel']; simpl.
    + destruct (Nat.ltb_spec (current_pos + ml) end_of_buffer); [lia|done].
    + destruct (_ && _); [|done].
      destruct (current_pos <=? i + (ml + 1)); [done|].
      apply IH; lia.
Qed.

(** The run stops when it reaches [current_pos]. *)
Lemma match_run_before (fuel ml : nat) :
  i + ml < current_pos ->
  i + match_run fuel data i current_pos end_of_buffer ml <= current_pos.
Proof.
  revert ml. induction fuel as [|fuel IH]; intros ml Hml; simpl; [lia|].
  destruct (_ && _); [|lia].
  destruct (Nat.leb_spec current_pos (i + (ml + 1))); [lia|].
  apply IH. lia.
Qed.

(** The run stays inside the lookahead. *)
Lemma match_run_room (fuel ml : nat) :
  current_pos + ml <= end_of_buffer ->
  current_pos + match_run fuel data i current_pos end_of_buffer ml
  <= end_of_buffer.
Proof.
  revert ml. induction fuel as [|fuel IH]; intros ml Hml; simpl; [lia|].
  destruct (Nat.ltb_spec (current_pos + ml) end_of_buffer); simpl; [|lia].
  destruct (bool_decide _); [|lia].
  destruct (current_pos <=? i + (ml + 1)); [lia|].
  apply IH. lia.
Qed.

(** The bytes of the run agree with the bytes at [current_pos]. *)
Lemma match_run_agree (fuel ml : nat) :
  (forall k, k < ml -> data !! (i + k) = data !! (current_pos + k)) ->
  forall k, k < match_run fuel data i current_pos end_of_buffer ml ->
            data !! (i + k) = data !! (current_pos + k).
Proof.
  revert ml. induction fuel as [|fuel IH]; intros ml Hml; simpl; [done|].
  destruct (Nat.ltb_spec (current_pos + ml) end_of_buffer); simpl; [|done].
  destruct (bool_decide_reflect
              (data !! (i + ml) = data !! (current_pos + ml))) as [Heq|];
    [|done].
  assert (forall k, k < ml + 1 ->
                    data !! (i + k) = data !! (current_pos + k)) as Hml'.
  { intros k Hk. destruct (decide (k = ml)) as [->|]; [done|].
    apply Hml. lia. }
  destruct (current_pos <=? i + (ml + 1)); [done|].
  by apply IH.
Qed.
End MatchRun.

Section Scan.
Variable data : list byte.
Variables current_pos end_of_buffer lo : nat.

Local Open Scope nat_scope.

Local Abbreviation rl := (run_in data current_pos end_of_buffer).
Local Abbreviation scanned := (scanned data current_pos end_of_buffer lo).

Lemma scan_prefix (n : nat) :
  scanned (lo + n)
    (foldl (scan_step data current_pos end_of_buffer) (0, 0) (seq lo n)).
Proof.
  induction n as [|n IH].
  - left. split; [done|]. intros j Hj. lia.
  - rewrite seq_S, foldl_app. simpl.
    set (best := foldl _ _ _) in *.
    unfold scan_step. fold (rl (lo + n)).
    destruct IH as [[Hbest Hzero]|(i & Hi & Hbest & Hpos & Hmax)].
    + rewrite Hbest. simpl.
      destruct (Nat.ltb_spec 0 (rl (lo + n))) as [Hlt|Hge].
      * right. exists (lo + n). split; [lia|]. split; [done|].
        split; [done|]. intros j Hj.
        destruct (decide (j = lo + n)) as [->|Hne]; [lia|].
        rewrite (Hzero j) by lia. lia.
      * left. split; [done|]. intros j Hj.
        destruct (decide (j = lo + n)) as [->|Hne]; [lia|].
        apply Hzero. lia.
    + rewrite Hbest. simpl.
      destruct (Nat.ltb_spec (rl i) (rl (lo + n))) as [Hlt|Hge].
      * right. exists (lo + n). split; [lia|]. split; [done|].
        split; [lia|]. intros j Hj.
        destruct (decide (j = lo + n)) as [->|Hne]; [lia|].
        destruct (Hmax j) as [Hle _]; lia.
      * right. exists i. split; [lia|]. split; [done|].
        split; [done|]. intros j Hj.
        destruct (decide (j = lo + n)) as [->|Hne]; [lia|].
        apply Hmax. lia.
Qed.

Lemma scan_scanned :
  lo <= current_pos ->
  scanned current_pos (scan data current_pos end_of_buffer lo).
Proof.
  intros Hlo. unfold scan.
  pose proof (scan_prefix (current_pos - lo)) as H.
  by replace (lo + (current_pos - lo)) with current_pos in H by lia.
Qed.
End Scan.

Local Open Scope nat_scope.

(** Everything the compressor uses about a match. *)
Lemma find_longest_match_spec (data : list byte)
    (current_pos window_size lookahead_buffer_size : nat)
    (offset len : nat) (next_char : option byte) :
  current_pos < length data ->
  find_longest_match data current_pos window_size lookahead_buffer_size
  = (offset, len, next_char) ->
  next_char = data !! (current_pos + len)
  /\ current_pos + len <= length data
  /\ len <= lookahead_buffer_size
  /\ ((offset = 0 /\ len = 0)
      \/ (0 < len /\ len <= offset /\ offset <= current_pos
          /\ offset <= window_size
          /\ forall k, k < len ->
               data !! (current_pos - offset + k) = data !! (current_pos + k))).
Proof.
  intros Hpos. unfold find_longest_match.
  set (eob := Nat.min (current_pos + lookahead_buffer_size) (length data)).
  destruct (Nat.leb_spec (length data) current_pos) as [|_]; [lia|].
  destruct (Nat.leb_spec eob current_pos) as [Hempty|Hroom].
  - intros [= <- <- <-]. rewrite Nat.add_0_r.
    assert (eob = current_pos) as -> by lia.
    destruct (Nat.eqb_spec current_pos (length data)); [lia|].
    repeat split; lia.
  - pose proof (scan_scanned data current_pos eob
                  (current_pos - window_size) ltac:(lia)) as Hscan.
    unfold scanned, run_in in Hscan.
    set (best := scan _ _ _ _) in *.
    intros [= <- <- <-].
    assert (current_pos + best.1 <= eob /\ best.1 <= lookahead_buffer_size)
      as [Hin Hla].
    { destruct Hscan as [[-> _]|(i & Hi & -> & _)]; simpl; [lia|].
      pose proof (match_run_room data i current_pos eob
                    (eob - current_pos) 0 ltac:(lia)). lia. }
    split.
    { destruct (Nat.ltb_spec (current_pos + best.1) (length data)); [done|].
      symmetry. apply lookup_ge_None_2. lia. }
    split; [lia|]. split; [done|].
    destruct Hscan as [[-> _]|(i & Hi & -> & Hlen & _)]; simpl; [by left|].
    right. split; [done|].
    pose proof (match_run_before data i current_pos eob
                  (eob - current_pos) 0 ltac:(lia)) as Hbefore.
    split; [lia|]. split; [lia|]. split; [lia|].
    intros k Hk. replace (current_pos - (current_pos - i)) with i by lia.
    eapply match_run_agree; [|exact Hk]. intros k' Hk'. lia.
Qed.

End FinderProofs.

(** C10. A match with a positive length has [0 < length <= offset <=
    current_pos]: it never reaches the current position, and no match has
    an offset below its length. *)
Theorem find_longest_match_no_overlap (data : list byte)
    (current_pos window_size lookahead_buffer_size : nat)
    (offset len : nat) (next_char : option byte) :
  LZ77.find_longest_match data current_pos window_size lookahead_buffer_size
  = (offset, len, next_char) ->
  ((0 < len)%nat -> (0 < len <= offset)%nat /\ (offset <= current_pos)%nat)
  /\ ~ (offset < len)%nat.
Proof.
  intros Hfind.
  destruct (Nat.lt_ge_cases current_pos (length data)) as [Hpos|Hpos].
  - destruct (FinderProofs.find_longest_match_spec _ _ _ _ _ _ _ Hpos Hfind)
      as (_ & _ & _ & [[-> ->]|(H1 & H2 & H3 & _)]); split; lia.
  - unfold LZ77.find_longest_match in Hfind.
    destruct (Nat.leb_spec (length data) current_pos); [|lia].
    injection Hfind as <- <- <-. split; lia.
Qed.

Lemma find_longest_match_no_overlap_witness :
  LZ77.find_longest_match [x01; x02; x01; x02; x03] 2 4096 128
  = (2%nat, 2%nat, Some x03)
  /\ ((0 < 2 <= 2)%nat /\ (2 <= 2)%nat)
  /\ ~ (2 < 2)%nat.
Proof.
  split; [reflexivity|].
  destruct (find_longest_match_no_overlap
              [x01; x02; x01; x02; x03] 2 4096 128 2 2 (Some x03) eq_refl)
    as [H1 H2].
  split; [apply H1; lia|exact H2].
Defined.

(** C5, as stated, fails: in [01 01 01] at position 2 the start indices 0
    and 1 both give a run of length 1, and the match returned has offset
    2, not the smallest offset 1. *)
Lemma tie_break_counterexample :
  LZ77.find_longest_match [x01; x01; x01] 2 4096 128 = (2%nat, 1%nat, None)
  /\ LZ77.run_length [x01; x01; x01] 2 128 0 = 1%nat
  /\ LZ77.run_length [x01; x01; x01] 2 128 1 = 1%nat
  /\ ~ LZ77.ties_keep_smallest_offset [x01; x01; x01] 2 4096 128.
Proof.
  split; [reflexivity|]. split; [reflexivity|]. split; [reflexivity|].
  intros H. specialize (H 1%nat). simpl in H.
  assert (2 <= 1)%nat; [apply H; [lia|reflexivity]|lia].
Qed.

(** C5, amended. When a match of positive length is returned, its length
    is the longest run over the start indices of the window, and among
    the start indices with a run that long the match comes from the
    first one in scan order, that is the smallest start index: the match
    has the largest offset. *)
Theorem find_longest_match_tie_break (data : list byte)
    (current_pos window_size lookahead_buffer_size : nat)
    (offset len : nat) (next_char : option byte) :
  LZ77.find_longest_match data current_pos window_size lookahead_buffer_size
  = (offset, len, next_char) ->
  (0 < len)%nat ->
  (exists i : nat,
      (current_pos - window_size <= i < current_pos)%nat
      /\ offset = (current_pos - i)%nat
      /\ LZ77.run_length data current_pos lookahead_buffer_size i = len)
  /\ forall j : nat,
      (current_pos - window_size <= j < current_pos)%nat ->
      (LZ77.run_length data current_pos lookahead_buffer_size j <= len)%nat
      /\ (LZ77.run_length data current_pos lookahead_buffer_size j = len ->
          (current_pos - j <= offset)%nat).
Proof.
  unfold LZ77.find_longest_match, LZ77.run_length.
  set (eob := Nat.min (current_pos + lookahead_buffer_size) (length data)).
  destruct (length data <=? current_pos)%nat;
    [intros [= <- <- <-]; lia|].
  destruct (Nat.leb_spec eob current_pos) as [|Hroom];
    [intros [= <- <- <-]; lia|].
  pose proof (FinderProofs.scan_scanned data current_pos eob
                (current_pos - window_size) ltac:(lia)) as Hscan.
  unfold LZ77.scanned, LZ77.run_in in Hscan.
  set (best := LZ77.scan _ _ _ _) in *.
  intros [= <- <- <-] Hlen.
  destruct Hscan as [[Hbest _]|(i & Hi & Hbest & _ & Hmax)];
    rewrite Hbest in *; simpl in *; [lia|].
  split; [by exists i|].
  intros j Hj. destruct (Hmax j Hj) as [Hle Hfirst].
  split; [done|]. intros Heq. specialize (Hfirst Heq). lia.
Qed.

Lemma find_longest_match_tie_break_witness :
  (exists i : nat,
      (2 - 4096 <= i < 2)%nat /\ 2%nat = (2 - i)%nat
      /\ LZ77.run_length [x01; x01; x01] 2 128 i = 1%nat)
  /\ forall j : nat,
      (2 - 4096 <= j < 2)%nat ->
      (LZ77.run_length [x01; x01; x01] 2 128 j <= 1)%nat
      /\ (LZ77.run_length [x01; x01; x01] 2 128 j = 1%nat ->
          (2 - j <= 2)%nat).
Proof.
  apply (find_longest_match_tie_break
           [x01; x01; x01] 2 4096 128 2 1 None); [reflexivity|lia].
Defined.

(** ** The LZ77 stage, token by token *)

Module LZ77Proofs.
Import LZ77.

Local Open Scope nat_scope.

Lemma for_each_app {A S} (f : S -> A -> outcome S) (s : S) (l1 l2 : list A) :
  for_each f s (l1 ++ l2) = bind (for_each f s l1) (fun s' => for_each f s' l2).
Proof.
  revert s. induction l1 as [|x l1 IH]; intros s; simpl; [done|].
  destruct (f s x); simpl; [apply IH|done].
Qed.

(** The compressor writes its tokens one after the other. *)
Lemma compress_loop_tokens (fuel : nat) (data : list byte)
    (window_size lookahead_buffer_size current_pos : nat) (result : list byte) :
  compress_loop fuel data window_size lookahead_buffer_size current_pos result
  = for_each emit result
      (tokens_from fuel data window_size lookahead_buffer_size current_pos).
Proof.
  revert current_pos result.
  induction fuel as [|fuel IH]; intros current_pos result; simpl.
  - by destruct (current_pos <? length data).
  - destruct (current_pos <? length data); [|done].
    destruct (find_longest_match _ _ _ _) as [[offset len] next_char] eqn:Hf.
    simpl. unfold emit at 1. simpl.
    destruct (variable_length_encode _ _) as [enc|e]; simpl; [|done].
    apply IH.
Qed.

(** [len(data)] iterations are enough for the compressor: more fuel
    yields the same tokens. *)
Lemma tokens_from_fuel (fuel fuel' : nat) (data : list byte)
    (window_size lookahead_buffer_size current_pos : nat) :
  length data - current_pos <= fuel ->
  length data - current_pos <= fuel' ->
  tokens_from fuel data window_size lookahead_buffer_size current_pos
  = tokens_from fuel' data window_size lookahead_buffer_size current_pos.
Proof.
  revert fuel' current_pos.
  induction fuel as [|fuel IH]; intros fuel' current_pos H1 H2.
  - destruct fuel'; simpl;
      by destruct (Nat.ltb_spec current_pos (length data)); [lia|].
  - destruct fuel' as [|fuel']; simpl;
      destruct (Nat.ltb_spec current_pos (length data)); try done; [lia|].
    f_equal. apply IH; lia.
Qed.

Lemma compress_loop_fuel (fuel : nat) (data : list byte)
    (window_size lookahead_buffer_size : nat) :
  length data <= fuel ->
  compress_loop fuel data window_size lookahead_buffer_size 0 []
  = compress_loop (length data) data window_size lookahead_buffer_size 0 [].
Proof.
  intros H. rewrite !compress_loop_tokens. f_equal.
  apply tokens_from_fuel; lia.
Qed.

Lemma find_longest_match_token_ok (data : list byte)
    (current_pos window_size lookahead_buffer_size : nat) :
  current_pos < length data ->
  token_ok data window_size current_pos
    (find_longest_match data current_pos window_size lookahead_buffer_size).
Proof.
  intros Hpos.
  destruct (find_longest_match _ _ _ _) as [[offset len] next_char] eqn:Hf.
  destruct (FinderProofs.find_longest_match_spec _ _ _ _ _ _ _ Hpos Hf)
    as (H1 & H2 & _ & H3).
  unfold token_ok. simpl. split; [done|]. split; [done|].
  destruct H3 as [H3|(? & ? & ? & ? & ?)]; [by left|by right].
Qed.

Lemma token_ok_range (data : list byte) (window_size pos : nat) (t : token) :
  token_ok data window_size pos t ->
  t.1.1 <= window_size /\ t.1.2 <= window_size.
Proof. intros (_ & _ & [[-> ->]|(? & ? & ? & ? & _)]); lia. Qed.

Lemma emit_spec (result : list byte) (t : token) :
  encodable t ->
  exists enc,
    emit result t = Ok (result ++ enc ++ [literal_byte t])
    /\ 2 <= length enc
    /\ forall pre suf,
        variable_length_decode (pre ++ enc ++ suf) (length pre)
        = Ok (Z.of_nat t.1.1, Z.of_nat t.1.2, length pre + length enc).
Proof.
  intros [Ho Hl].
  destruct (VarintProofs.variable_length_spec
              (Z.of_nat t.1.1) (Z.of_nat t.1.2)) as (enc & Henc & Hmap & Hdec);
    [lia|lia|].
  exists enc. unfold emit. rewrite Henc. simpl. rewrite <- app_assoc.
  split; [done|]. split; [|done].
  rewrite <- (length_map int_of_byte enc), Hmap, length_app.
  unfold LZ77.spec_field.
  destruct (_ <? 128)%Z, (_ <? 128)%Z; simpl; lia.
Qed.

Lemma emit_all_prefix (toks : list token) (pre stream : list byte) :
  Forall encodable toks ->
  for_each emit pre toks = Ok stream ->
  exists suf, stream = pre ++ suf /\ 3 * length toks <= length suf.
Proof.
  revert pre. induction toks as [|t toks IH]; intros pre Hok; simpl.
  - intros [= <-]. exists []. by rewrite app_nil_r.
  - apply Forall_cons in Hok as [Ht Hok].
    destruct (emit_spec pre t Ht) as (enc & -> & Hlen & _). simpl.
    intros Hrest. destruct (IH _ Hok Hrest) as (suf & -> & Hsuf).
    exists (enc ++ [literal_byte t] ++ suf).
    split; [by rewrite <- !app_assoc|].
    rewrite !length_app. simpl. lia.
Qed.

(** The decoder reads an emitted token back and replays it. *)
Lemma decode_token_emitted (t : token) (enc pre suf result : list byte) :
  (forall pre suf,
      variable_length_decode (pre ++ enc ++ suf) (length pre)
      = Ok (Z.of_nat t.1.1, Z.of_nat t.1.2, length pre + length enc)) ->
  decode_token (pre ++ enc ++ [literal_byte t] ++ suf) (length pre) result
  = bind (replay result t)
         (fun result' => Ok (length pre + length enc + 1, result')).
Proof.
  intros Hdec. unfold decode_token. rewrite Hdec. simpl.
  rewrite (app_assoc pre enc), <- (length_app pre enc).
  rewrite list_lookup_middle by done.
  unfold replay.
  destruct ((Z.of_nat t.1.1 =? 0)%Z && (Z.of_nat t.1.2 =? 0)%Z); [done|].
  by destruct (copy_back _ _ _).
Qed.

Lemma decompress_loop_emitted (toks : list token) (fuel : nat)
    (pre stream result : list byte) :
  Forall encodable toks ->
  length toks <= fuel ->
  for_each emit pre toks = Ok stream ->
  decompress_loop fuel stream (length pre) result
  = for_each replay result toks.
Proof.
  revert fuel pre result.
  induction toks as [|t toks IH]; intros fuel pre result Hok Hfuel; simpl.
  - intros [= <-].
    destruct fuel; simpl;
      by destruct (Nat.ltb_spec (length pre) (length pre)); [lia|].
  - apply Forall_cons in Hok as [Ht Hok].
    destruct (emit_spec pre t Ht) as (enc & -> & Hlen & Hdec). simpl.
    intros Hrest.
    destruct (emit_all_prefix _ _ _ Hok Hrest) as (suf & -> & _).
    destruct fuel as [|fuel]; [simpl in Hfuel; lia|]. simpl.
    destruct (Nat.ltb_spec (length pre)
                (length ((pre ++ enc ++ [literal_byte t]) ++ suf))) as [_|Hlt].
    2:{ rewrite !length_app in Hlt. simpl in Hlt. lia. }
    rewrite <- !app_assoc.
    rewrite (decode_token_emitted t enc pre suf result Hdec).
    destruct (replay result t) as [result'|e]; simpl; [|done].
    specialize (IH fuel (pre ++ enc ++ [literal_byte t]) result' Hok).
    rewrite !length_app in IH. simpl in IH.
    rewrite Nat.add_assoc in IH. rewrite <- !app_assoc in IH. simpl in IH.
    rewrite <- !app_assoc in Hrest.
    apply IH; [simpl in Hfuel; lia|done].
Qed.

(** *** Replaying the compressor's tokens *)

Lemma getitem_back (result : list byte) (offset : nat) (b : byte) :
  0 < offset <= length result ->
  result !! (length result - offset) = Some b ->
  getitem result (- Z.of_nat offset) = Ok b.
Proof.
  intros Ho Hb. unfold getitem.
  destruct (Z.ltb_spec (- Z.of_nat offset) 0); [|lia].
  destruct (Z.ltb_spec (- Z.of_nat offset + Z.of_nat (length result)) 0);
    [lia|].
  replace (Z.to_nat (- Z.of_nat offset + Z.of_nat (length result)))
    with (length result - offset) by lia.
  by apply index_Ok.
Qed.

(** A back-reference into the bytes already written copies the match. *)
Lemma copy_back_match (data : list byte) (n pos offset : nat) :
  0 < offset <= pos ->
  pos + n <= length data ->
  (forall k, k < n -> data !! (pos - offset + k) = data !! (pos + k)) ->
  copy_back n (Z.of_nat offset) (take pos data) = Ok (take (pos + n) data).
Proof.
  revert pos. induction n as [|n IH]; intros pos Ho Hlen Hagree; simpl.
  - by rewrite Nat.add_0_r.
  - destruct (lookup_lt_is_Some_2 data pos ltac:(lia)) as [b Hb].
    assert (length (take pos data) = pos) as Hlt
        by (rewrite length_take; lia).
    rewrite (getitem_back _ offset b); simpl.
    + rewrite <- (take_S_r data pos b Hb).
      replace (pos + S n) with (S pos + n) by lia.
      apply IH; [lia|lia|].
      intros k Hk. replace (S pos - offset + k) with (pos - offset + S k) by lia.
      replace (S pos + k) with (pos + S k) by lia.
      apply Hagree. lia.
    + lia.
    + rewrite Hlt, lookup_take_lt by lia.
      specialize (Hagree 0 ltac:(lia)).
      rewrite !Nat.add_0_r in Hagree. by rewrite Hagree.
Qed.

Lemma replay_faithful (data : list byte) (window_size pos : nat) (t : token) :
  pos < length data ->
  token_ok data window_size pos t ->
  genuine_ff t = false ->
  replay (take pos data) t = Ok (take (pos + t.1.2 + 1) data).
Proof.
  destruct t as [[offset len] next_char].
  unfold token_ok, genuine_ff, replay, literal_byte. cbn [fst snd].
  intros Hpos (Hnc & Hlen & Hmatch) Hff.
  apply bool_decide_eq_false in Hff.
  assert (append_literal (take (pos + len) data)
                         (Some (default sentinel next_char))
          = Ok (take (pos + len + 1) data)) as Hlit.
  { subst next_char. unfold append_literal.
    destruct (data !! (pos + len)) as [c|] eqn:Hc; simpl.
    - destruct (decide (c = sentinel)) as [->|_]; [done|].
      by rewrite Nat.add_1_r, (take_S_r data (pos + len) c Hc).
    - destruct (decide (sentinel = sentinel)); [|done].
      apply lookup_ge_None_1 in Hc.
      by rewrite !take_ge by lia. }
  destruct Hmatch as [[-> ->]|(Hl & Hol & Hop & _ & Hagree)].
  - change ((Z.of_nat 0 =? 0)%Z && (Z.of_nat 0 =? 0)%Z) with true.
    rewrite !Nat.add_0_r in *. exact Hlit.
  - destruct (Z.eqb_spec (Z.of_nat offset) 0); [lia|]. cbn [andb].
    rewrite Nat2Z.id, (copy_back_match data len pos offset) by (done || lia).
    exact Hlit.
Qed.

(** Without a genuine [0xFF] literal, replaying the tokens of the
    compressor rebuilds the data. *)
Lemma replay_all_faithful (data : list byte)
    (window_size lookahead_buffer_size : nat) (fuel pos : nat) :
  length data - pos <= fuel ->
  Forall (fun t => genuine_ff t = false)
         (tokens_from fuel data window_size lookahead_buffer_size pos) ->
  for_each replay (take pos data)
           (tokens_from fuel data window_size lookahead_buffer_size pos)
  = Ok data.
Proof.
  revert pos. induction fuel as [|fuel IH]; intros pos Hfuel; simpl.
  - destruct (Nat.ltb_spec pos (length data)); [lia|].
    intros _. simpl. by rewrite take_ge by lia.
  - destruct (Nat.ltb_spec pos (length data)) as [Hpos|Hpos].
    2:{ intros _. simpl. by rewrite take_ge by lia. }
    intros Hall. apply Forall_cons in Hall as [Ht Hall]. simpl.
    rewrite (replay_faithful data window_size pos _ Hpos
               (find_longest_match_token_ok _ _ _ _ Hpos) Ht).
    simpl. apply IH; [lia|done].
Qed.

(** The tokens the compressor emits are encodable when the window is. *)
Lemma tokens_from_encodable (data : list byte)
    (window_size lookahead_buffer_size : nat) (fuel pos : nat) :
  (Z.of_nat window_size <= 32767)%Z ->
  Forall encodable
         (tokens_from fuel data window_size lookahead_buffer_size pos).
Proof.
  intros Hw. revert pos. induction fuel as [|fuel IH]; intros pos; simpl.
  - by destruct (pos <? length data).
  - destruct (Nat.ltb_spec pos (length data)) as [Hpos|]; [|done].
    apply Forall_cons. split; [|apply IH].
    destruct (token_ok_range _ _ _ _
                (find_longest_match_token_ok data pos window_size
                   lookahead_buffer_size Hpos)).
    unfold encodable. lia.
Qed.

Lemma emit_all_Ok (toks : list token) (pre : list byte) :
  Forall encodable toks -> exists stream, for_each emit pre toks = Ok stream.
Proof.
  revert pre. induction toks as [|t toks IH]; intros pre Hok; simpl.
  - by exists pre.
  - apply Forall_cons in Hok as [Ht Hok].
    destruct (emit_spec pre t Ht) as (enc & -> & _). simpl. by apply IH.
Qed.

(** The stage never raises, and says [Applied] exactly when the token
    stream is shorter than an input of at least 50 bytes. *)
Lemma compress_lz77_cases (data : list byte)
    (window_size lookahead_buffer_size : nat) :
  (Z.of_nat window_size <= 32767)%Z ->
  exists stream,
    for_each emit [] (lz_tokens data window_size lookahead_buffer_size)
    = Ok stream
    /\ compress_lz77 data window_size lookahead_buffer_size
       = if (length data <? 50) || negb (length stream <? length data)
         then Ok (data, Skipped)
         else Ok (stream, Applied window_size lookahead_buffer_size).
Proof.
  intros Hw.
  destruct (emit_all_Ok (lz_tokens data window_size lookahead_buffer_size) [])
    as [stream Hstream].
  { by apply tokens_from_encodable. }
  exists stream. split; [done|].
  unfold compress_lz77. destruct (length data <? 50); [done|].
  rewrite compress_loop_tokens. fold (lz_tokens data window_size
                                        lookahead_buffer_size).
  rewrite Hstream. simpl. by destruct (length stream <? length data).
Qed.

Lemma decompress_lz77_emitted (toks : list token) (stream : list byte)
    (window_size lookahead_buffer_size : nat) :
  Forall encodable toks ->
  for_each emit [] toks = Ok stream ->
  decompress_lz77 stream (Applied window_size lookahead_buffer_size)
  = for_each replay [] toks.
Proof.
  intros Hok Hstream. unfold decompress_lz77.
  apply (decompress_loop_emitted toks (length stream) [] stream [] Hok);
    [|done].
  destruct (emit_all_prefix _ _ _ Hok Hstream) as (suf & -> & Hlen).
  simpl. lia.
Qed.

(** The stage alone round-trips when no token carries a genuine [0xFF]. *)
Lemma lz77_roundtrip (data : list byte)
    (window_size lookahead_buffer_size : nat) :
  (Z.of_nat window_size <= 32767)%Z ->
  (forall stream,
      compress_lz77 data window_size lookahead_buffer_size
      = Ok (stream, Applied window_size lookahead_buffer_size) ->
      Forall (fun t => genuine_ff t = false)
             (lz_tokens data window_size lookahead_buffer_size)) ->
  exists stream md,
    compress_lz77 data window_size lookahead_buffer_size = Ok (stream, md)
    /\ decompress_lz77 stream md = Ok data.
Proof.
  intros Hw Hff.
  destruct (compress_lz77_cases data window_size lookahead_buffer_size Hw)
    as (stream & Hstream & Hc).
  destruct ((length data <? 50) || negb (length stream <? length data)).
  - by exists data, Skipped.
  - exists stream, (Applied window_size lookahead_buffer_size).
    split; [done|].
    rewrite (decompress_lz77_emitted _ _ _ _
               (tokens_from_encodable _ _ _ _ _ Hw) Hstream).
    apply (replay_all_faithful data window_size lookahead_buffer_size
             (length data) 0); [lia|].
    by apply (Hff stream).
Qed.

(** Data without a byte [0xFF] has no genuine [0xFF] literal. *)
Lemma tokens_no_sentinel (data : list byte)
    (window_size lookahead_buffer_size : nat) (fuel pos : nat) :
  sentinel ∉ data ->
  Forall (fun t => genuine_ff t = false)
         (tokens_from fuel data window_size lookahead_buffer_size pos).
Proof.
  intros Hno. revert pos. induction fuel as [|fuel IH]; intros pos; simpl.
  - by destruct (pos <? length data).
  - destruct (Nat.ltb_spec pos (length data)) as [Hpos|]; [|done].
    apply Forall_cons. split; [|apply IH].
    destruct (find_longest_match_token_ok data pos window_size
                lookahead_buffer_size Hpos) as (Hnc & _).
    unfold genuine_ff. apply bool_decide_eq_false_2. rewrite Hnc.
    intros Hff. apply Hno. by apply list_elem_of_lookup_2 in Hff.
Qed.

(** *** What a genuine [0xFF] literal costs *)

Lemma copy_back_length (n : nat) (offset : Z) (result result' : list byte) :
  copy_back n offset result = Ok result' ->
  length result' = length result + n.
Proof.
  revert result. induction n as [|n IH]; intros result; simpl.
  - intros [= <-]. lia.
  - destruct (getitem result (- offset)); simpl; [|done].
    intros H. apply IH in H. rewrite length_app in H. simpl in H. lia.
Qed.

Lemma getitem_Raise {A} (l : list A) (i : Z) (e : exn) :
  getitem l i = Raise e -> e = IndexError.
Proof.
  unfold getitem, index. destruct (_ <? 0)%Z; [congruence|].
  destruct (l !! _); congruence.
Qed.

Lemma copy_back_Raise (n : nat) (offset : Z) (result : list byte) (e : exn) :
  copy_back n offset result = Raise e -> e = IndexError.
Proof.
  revert result. induction n as [|n IH]; intros result; simpl; [done|].
  destruct (getitem result (- offset)) eqn:Hg; simpl.
  - apply IH.
  - intros [= <-]. by apply getitem_Raise in Hg.
Qed.

Lemma replay_length (result result' : list byte) (t : token) :
  replay result t = Ok result' ->
  length result' = length result + written t.
Proof.
  unfold replay, written, append_literal.
  destruct (decide (literal_byte t = sentinel)) as [Hs|Hs].
  - destruct (Z.eqb_spec (Z.of_nat t.1.1) 0);
      destruct (Z.eqb_spec (Z.of_nat t.1.2) 0); simpl;
      try (intros [= <-]; lia);
      (destruct (copy_back _ _ _) eqn:Hc; simpl; [|done]);
      intros [= <-]; apply copy_back_length in Hc; lia.
  - destruct (Z.eqb_spec (Z.of_nat t.1.1) 0);
      destruct (Z.eqb_spec (Z.of_nat t.1.2) 0); simpl;
      try (intros [= <-]; rewrite length_app; simpl; lia);
      (destruct (copy_back _ _ _) eqn:Hc; simpl; [|done]);
      intros [= <-]; apply copy_back_length in Hc;
      rewrite length_app; simpl; lia.
Qed.

Lemma replay_Raise (result : list byte) (t : token) (e : exn) :
  replay result t = Raise e -> e = IndexError.
Proof.
  unfold replay, append_literal.
  destruct (_ && _).
  - by destruct (decide _).
  - destruct (copy_back _ _ _) eqn:Hc; simpl.
    + by destruct (decide _).
    + intros [= <-]. by apply copy_back_Raise in Hc.
Qed.

Lemma replay_all_length (toks : list token) (result out : list byte) :
  for_each replay result toks = Ok out ->
  length out = length result + sum_of written toks.
Proof.
  revert result. induction toks as [|t toks IH]; intros result; simpl.
  - intros [= <-]. lia.
  - destruct (replay result t) as [result'|] eqn:Hr; simpl; [|done].
    intros H. apply IH in H. apply replay_length in Hr. lia.
Qed.

Lemma replay_all_Raise (toks : list token) (result : list byte) (e : exn) :
  for_each replay result toks = Raise e -> e = IndexError.
Proof.
  revert result. induction toks as [|t toks IH]; intros result; simpl; [done|].
  destruct (replay result t) as [result'|e'] eqn:Hr; simpl.
  - apply IH.
  - intros [= <-]. by apply replay_Raise in Hr.
Qed.

(** The tokens stand for the whole of the data. *)
Lemma tokens_from_consumed (data : list byte)
    (window_size lookahead_buffer_size : nat) (fuel pos : nat) :
  pos <= length data ->
  length data - pos <= fuel ->
  sum_of consumed
         (tokens_from fuel data window_size lookahead_buffer_size pos)
  = length data - pos.
Proof.
  revert pos. induction fuel as [|fuel IH]; intros pos Hpos Hfuel; simpl.
  - destruct (Nat.ltb_spec pos (length data)); simpl; lia.
  - destruct (Nat.ltb_spec pos (length data)) as [Hlt|]; simpl; [|lia].
    pose proof (find_longest_match_token_ok data pos window_size
                  lookahead_buffer_size Hlt) as (Hnc & Hlen & _).
    set (t := find_longest_match _ _ _ _) in *.
    unfold consumed at 1. rewrite Hnc.
    destruct (data !! (pos + t.1.2)) as [c|] eqn:Hc.
    + apply lookup_lt_Some in Hc. rewrite IH by lia. lia.
    + apply lookup_ge_None_1 in Hc.
      replace (tokens_from fuel data window_size lookahead_buffer_size
                 (pos + t.1.2 + 1)) with (@nil token).
      * simpl. lia.
      * destruct fuel; simpl;
          by destruct (Nat.ltb_spec (pos + t.1.2 + 1) (length data)); [lia|].
Qed.

(** Every genuine [0xFF] literal is one byte consumed and not written. *)
Lemma consumed_written (toks : list token) :
  sum_of consumed toks
  = sum_of written toks + length (filter (fun t => genuine_ff t) toks).
Proof.
  induction toks as [|t toks IH]; simpl; [done|].
  rewrite IH. unfold consumed, written, genuine_ff, literal_byte.
  destruct t as [[offset len] [c|]]; simpl.
  - rewrite filter_cons. simpl.
    destruct (decide (c = sentinel)) as [->|Hc].
    + rewrite bool_decide_eq_true_2 by done. simpl. lia.
    + rewrite bool_decide_eq_false_2 by congruence. simpl. lia.
  - rewrite filter_cons. simpl.
    destruct (decide (sentinel = sentinel)); [|done]. lia.
Qed.

End LZ77Proofs.

(** C2, as stated, fails: on sixty bytes [0xFF] the stage is applied, the
    first token carries a genuine [0xFF] literal, and decompression does
    not return a shortened buffer: the first literal is dropped, the
    next token copies from one byte back in an empty output, and
    [result[-1]] raises [IndexError]. *)
Lemma sentinel_drop_counterexample :
  LZ77.compress_lz77 (replicate 60 xff) 4096 128
  = Ok ([x00; x00; xff; x01; x01; xff; x03; x03; xff; x07; x07; xff;
         x0f; x0f; xff; x1f; x1d; xff], LZ77.Applied 4096 128)
  /\ LZ77.lz_tokens (replicate 60 xff) 4096 128
     = [(0, 0, Some xff); (1, 1, Some xff); (3, 3, Some xff);
        (7, 7, Some xff); (15, 15, Some xff); (31, 29, None)]%nat
  /\ LZ77.decompress_lz77
       [x00; x00; xff; x01; x01; xff; x03; x03; xff; x07; x07; xff;
        x0f; x0f; xff; x1f; x1d; xff] (LZ77.Applied 4096 128)
     = Raise IndexError
  /\ ~ LZ77.drops_literal_silently (replicate 60 xff) 4096 128.
Proof.
  split; [vm_compute; reflexivity|].
  split; [vm_compute; reflexivity|].
  split; [vm_compute; reflexivity|].
  intros H.
  destruct (H [x00; x00; xff; x01; x01; xff; x03; x03; xff; x07; x07; xff;
               x0f; x0f; xff; x1f; x1d; xff]) as (out & Hout & _);
    [vm_compute; reflexivity|vm_compute; reflexivity|].
  vm_compute in Hout. discriminate Hout.
Qed.

(** C2, amended. When the stage is applied (window within the 15 bits of
    the encoding) and some token carries a genuine [0xFF] literal,
    decompression never rebuilds the input: either it raises
    [IndexError], a later back-reference reaching before the start of
    the shortened output, or it returns a buffer that is shorter than
    the input by the number of tokens with such a literal. *)
Theorem genuine_ff_literal_is_lost (data stream : list byte)
    (window_size lookahead_buffer_size : nat) :
  Z.of_nat window_size <= 32767 ->
  LZ77.compress_lz77 data window_size lookahead_buffer_size
  = Ok (stream, LZ77.Applied window_size lookahead_buffer_size) ->
  existsb LZ77.genuine_ff
          (LZ77.lz_tokens data window_size lookahead_buffer_size) = true ->
  LZ77.decompress_lz77 stream
    (LZ77.Applied window_size lookahead_buffer_size) = Raise IndexError
  \/ exists out,
      LZ77.decompress_lz77 stream
        (LZ77.Applied window_size lookahead_buffer_size) = Ok out
      /\ (length out
          + length (filter (fun t => LZ77.genuine_ff t)
                      (LZ77.lz_tokens data window_size lookahead_buffer_size))
          = length data)%nat
      /\ (length out < length data)%nat.
Proof.
  intros Hw Hc Hff.
  destruct (LZ77Proofs.compress_lz77_cases data window_size
              lookahead_buffer_size Hw) as (stream' & Hstream & Hc').
  rewrite Hc in Hc'.
  destruct (_ || _); [done|]. injection Hc' as ->.
  rewrite (LZ77Proofs.decompress_lz77_emitted
             (LZ77.lz_tokens data window_size lookahead_buffer_size) _ _ _
             (LZ77Proofs.tokens_from_encodable _ _ _ _ _ Hw) Hstream).
  set (toks := LZ77.lz_tokens data window_size lookahead_buffer_size) in *.
  destruct (for_each LZ77.replay [] toks) as [out|e] eqn:Hr.
  - right. exists out. split; [done|].
    apply LZ77Proofs.replay_all_length in Hr.
    pose proof (LZ77Proofs.tokens_from_consumed data window_size
                  lookahead_buffer_size (length data) 0
                  ltac:(lia) ltac:(lia)) as Hcons.
    fold (LZ77.lz_tokens data window_size lookahead_buffer_size) in Hcons.
    fold toks in Hcons. rewrite LZ77Proofs.consumed_written in Hcons.
    assert (0 < length (filter (fun t => LZ77.genuine_ff t) toks))%nat.
    { apply existsb_exists in Hff as (t & Hin & Ht).
      apply list_elem_of_In in Hin.
      assert (t ∈ filter (fun t => LZ77.genuine_ff t) toks) as Hin'.
      { apply list_elem_of_filter. split; [by rewrite Ht|done]. }
      destruct (filter _ toks); [by apply elem_of_nil in Hin'|simpl; lia]. }
    simpl in Hr. lia.
  - left. by rewrite (LZ77Proofs.replay_all_Raise _ _ _ Hr).
Qed.

Lemma genuine_ff_literal_is_lost_witness :
  LZ77.decompress_lz77
    [x00; x00; x00; x01; x01; x00; x03; x03; x00; x07; x07; x00;
     x0f; x0f; x00; x1f; x1f; xff] (LZ77.Applied 4096 128) = Raise IndexError
  \/ exists out,
      LZ77.decompress_lz77
        [x00; x00; x00; x01; x01; x00; x03; x03; x00; x07; x07; x00;
         x0f; x0f; x00; x1f; x1f; xff] (LZ77.Applied 4096 128) = Ok out
      /\ (length out
          + length (filter (fun t => LZ77.genuine_ff t)
                      (LZ77.lz_tokens (replicate 62 x00 ++ [xff]) 4096 128))
          = length (replicate 62 x00 ++ [xff]))%nat
      /\ (length out < length (replicate 62 x00 ++ [xff]))%nat.
Proof.
  apply (genuine_ff_literal_is_lost (replicate 62 x00 ++ [xff])
           [x00; x00; x00; x01; x01; x00; x03; x03; x00; x07; x07; x00;
            x0f; x0f; x00; x1f; x1f; xff] 4096 128);
    [lia|vm_compute; reflexivity|vm_compute; reflexivity].
Defined.

(** ** The decoder on arbitrary streams *)

Module DecoderProofs.
Import LZ77.

Local Open Scope nat_scope.

Lemma decode_field_Ok (data : list byte) (pos : nat) (v : Z) (pos' : nat) :
  decode_field data pos = Ok (v, pos') ->
  (0 <= v)%Z /\ pos + 1 <= pos' <= pos + 2.
Proof.
  unfold decode_field, index.
  destruct (data !! pos) as [b|]; simpl; [|done].
  pose proof (int_of_byte_range b).
  destruct (Z.ltb_spec (int_of_byte b) 128).
  - intros [= <- <-]. lia.
  - destruct (data !! (pos + 1)) as [b1|]; simpl; [|done].
    pose proof (int_of_byte_range b1).
    intros [= <- <-]. split; [|lia].
    apply Z.lor_nonneg. split; [|lia].
    apply Z.shiftl_nonneg, Z.land_nonneg. lia.
Qed.

Lemma decode_field_Raise (data : list byte) (pos : nat) (e : exn) :
  decode_field data pos = Raise e -> e = IndexError.
Proof.
  unfold decode_field, index.
  destruct (data !! pos) as [b|]; simpl; [|congruence].
  destruct (_ <? 128)%Z; [done|].
  destruct (data !! (pos + 1)); simpl; congruence.
Qed.

Lemma variable_length_decode_Ok (data : list byte) (pos : nat)
    (offset len : Z) (pos' : nat) :
  variable_length_decode data pos = Ok (offset, len, pos') ->
  (0 <= offset)%Z /\ (0 <= len)%Z /\ pos + 2 <= pos'.
Proof.
  unfold variable_length_decode.
  destruct (decode_field data pos) as [[o p]|] eqn:H1; simpl; [|done].
  destruct (decode_field data p) as [[l p']|] eqn:H2; simpl; [|done].
  intros [= <- <- <-].
  apply decode_field_Ok in H1, H2. lia.
Qed.

Lemma variable_length_decode_Raise (data : list byte) (pos : nat) (e : exn) :
  variable_length_decode data pos = Raise e -> e = IndexError.
Proof.
  unfold variable_length_decode.
  destruct (decode_field data pos) as [[o p]|] eqn:H1; simpl.
  - destruct (decode_field data p) as [[l p']|] eqn:H2; simpl; [done|].
    intros [= <-]. by apply decode_field_Raise in H2.
  - intros [= <-]. by apply decode_field_Raise in H1.
Qed.

(** Every iteration of the decoder consumes at least three bytes. *)
Lemma decode_token_advance (data : list byte) (pos : nat) (result : list byte)
    (pos' : nat) (result' : list byte) :
  decode_token data pos result = Ok (pos', result') -> pos + 3 <= pos'.
Proof.
  unfold decode_token.
  destruct (variable_length_decode data pos) as [[[o l] p]|] eqn:Hv;
    simpl; [|done].
  apply variable_length_decode_Ok in Hv as (_ & _ & Hp).
  destruct (_ && _).
  - destruct (append_literal _ _); simpl; [|done]. intros [= <- <-]. lia.
  - destruct (copy_back _ _ _); simpl; [|done].
    destruct (append_literal _ _); simpl; [|done]. intros [= <- <-]. lia.
Qed.

(** [len(compressed_data)] iterations are enough for the decoder. *)
Lemma decompress_loop_fuel (fuel fuel' : nat) (data : list byte)
    (pos : nat) (result : list byte) :
  length data - pos <= fuel ->
  length data - pos <= fuel' ->
  decompress_loop fuel data pos result = decompress_loop fuel' data pos result.
Proof.
  revert fuel' pos result.
  induction fuel as [|fuel IH]; intros fuel' pos result H1 H2.
  - destruct fuel'; simpl;
      by destruct (Nat.ltb_spec pos (length data)); [lia|].
  - destruct fuel' as [|fuel']; simpl;
      destruct (Nat.ltb_spec pos (length data)); try done; [lia|].
    destruct (decode_token data pos result) as [[pos' result']|] eqn:Hd;
      simpl; [|done].
    apply decode_token_advance in Hd. apply IH; lia.
Qed.

(** From a state the decoder reaches, the run goes on as from the start. *)
Lemma decodes_to_loop (data : list byte) (pos : nat) (result : list byte) :
  decodes_to data pos result ->
  decompress_loop (length data) data 0 []
  = decompress_loop (length data - pos) data pos result.
Proof.
  induction 1 as [|pos result pos' result' _ IH Hpos Hd].
  - by rewrite Nat.sub_0_r.
  - rewrite IH.
    destruct (length data - pos) as [|fuel] eqn:Hfuel; [lia|]. simpl.
    destruct (Nat.ltb_spec pos (length data)); [|lia].
    rewrite Hd. simpl. apply decode_token_advance in Hd.
    apply decompress_loop_fuel; lia.
Qed.

Lemma decodes_to_end (data : list byte) (pos : nat) (result : list byte) :
  decodes_to data pos result ->
  length data <= pos ->
  decompress_loop (length data) data 0 [] = Ok result.
Proof.
  intros Hreach Hpos. rewrite (decodes_to_loop _ _ _ Hreach).
  replace (length data - pos) with 0 by lia. simpl.
  by destruct (Nat.ltb_spec pos (length data)); [lia|].
Qed.

Lemma decodes_to_Raise (data : list byte) (pos : nat) (result : list byte)
    (e : exn) :
  decodes_to data pos result ->
  pos < length data ->
  decode_token data pos result = Raise e ->
  decompress_loop (length data) data 0 [] = Raise e.
Proof.
  intros Hreach Hpos Hd. rewrite (decodes_to_loop _ _ _ Hreach).
  destruct (length data - pos) as [|fuel] eqn:Hfuel; [lia|]. simpl.
  destruct (Nat.ltb_spec pos (length data)); [|lia].
  by rewrite Hd.
Qed.

(** When the back-copy raises and when it does not. *)
Lemma copy_back_out_of_range (n : nat) (offset : Z) (result : list byte) :
  0 < n ->
  (Z.of_nat (length result) < offset)%Z \/ result = [] ->
  copy_back n offset result = Raise IndexError.
Proof.
  intros Hn Hbad. destruct n as [|n]; [lia|]. simpl.
  replace (getitem result (- offset)) with (@Raise byte IndexError); [done|].
  unfold getitem. destruct Hbad as [Hbig| ->].
  - destruct (Z.ltb_spec (- offset) 0); [|lia].
    by destruct (Z.ltb_spec (- offset + Z.of_nat (length result)) 0); [|lia].
  - simpl. by repeat destruct (_ <? 0)%Z.
Qed.

Lemma copy_back_in_range (n : nat) (offset : Z) (result : list byte) :
  (0 <= offset <= Z.of_nat (length result))%Z -> result <> [] ->
  exists result', copy_back n offset result = Ok result'.
Proof.
  revert result. induction n as [|n IH]; intros result Ho Hne; simpl.
  - by exists result.
  - assert (exists b, getitem result (- offset) = Ok b) as [b ->].
    { unfold getitem.
      assert (0 < length result) by (destruct result; [done|simpl; lia]).
      destruct (Z.ltb_spec (- offset) 0).
      - destruct (Z.ltb_spec (- offset + Z.of_nat (length result)) 0); [lia|].
        destruct (lookup_lt_is_Some_2 result
                    (Z.to_nat (- offset + Z.of_nat (length result)))
                    ltac:(lia)) as [b Hb].
        exists b. by apply index_Ok.
      - assert (offset = 0%Z) as -> by lia. simpl.
        destruct result as [|b result]; [done|]. by exists b. }
    simpl. apply IH.
    + rewrite length_app. simpl. lia.
    + by destruct result.
Qed.

End DecoderProofs.

(** C4, as stated, fails: the decoder indexes without validating. A
    stream cut inside a two-byte field is read one byte past its end
    ([IndexError] from the out-of-range index), a token without its
    literal byte ends in [TypeError], and a token whose offset exceeds
    the bytes reconstructed is accepted when its length is zero. *)
Lemma no_validation_counterexample :
  LZ77.decompress_lz77 [x80] (LZ77.Applied 4096 128) = Raise IndexError
  /\ LZ77.decompress_lz77 [x00; x00] (LZ77.Applied 4096 128) = Raise TypeError
  /\ LZ77.decompress_lz77 [x05; x00; x41] (LZ77.Applied 4096 128) = Ok [x41]
  /\ ~ LZ77.validates_before_indexing [x80].
Proof.
  split; [reflexivity|]. split; [reflexivity|]. split; [reflexivity|].
  intros H. by apply (H 4096%nat 128%nat).
Qed.

(** C4, amended. [decompress_lz77] validates nothing itself; what stops
    it is the failure of the operation it attempts. From any state
    [(pos, result)] it reaches on a stream: at the end of the stream it
    returns [result]; a token cut inside its offset or length field
    raises [IndexError]; a token with a positive length whose offset is
    larger than the output, or with an empty output, raises
    [IndexError]; a token whose literal byte is missing raises
    [TypeError] once its copy is done; and a token of length zero is
    accepted whatever its offset. *)
Theorem decompress_lz77_unchecked (stream : list byte) (pos : nat)
    (result : list byte) (window_size lookahead_buffer_size : nat) :
  LZ77.decodes_to stream pos result ->
  ((length stream <= pos)%nat ->
   LZ77.decompress_lz77 stream
     (LZ77.Applied window_size lookahead_buffer_size) = Ok result)
  /\ ((pos < length stream)%nat ->
      match LZ77.variable_length_decode stream pos with
      | Raise _ =>
          LZ77.decompress_lz77 stream
            (LZ77.Applied window_size lookahead_buffer_size)
          = Raise IndexError
      | Ok (offset, len, pos') =>
          (0 < len ->
           Z.of_nat (length result) < offset \/ result = [] ->
           LZ77.decompress_lz77 stream
             (LZ77.Applied window_size lookahead_buffer_size)
           = Raise IndexError)
          /\ ((length stream <= pos')%nat ->
              len = 0 \/ (offset <= Z.of_nat (length result) /\ result <> []) ->
              LZ77.decompress_lz77 stream
                (LZ77.Applied window_size lookahead_buffer_size)
              = Raise TypeError)
          /\ (len = 0 ->
              forall c, stream !! pos' = Some c ->
                LZ77.decodes_to stream (pos' + 1)
                  (if decide (c = LZ77.sentinel) then result
                   else result ++ [c]))
      end).
Proof.
  intros Hreach. split.
  { intros Hend. by apply DecoderProofs.decodes_to_end with pos. }
  intros Hpos. unfold LZ77.decompress_lz77.
  destruct (LZ77.variable_length_decode stream pos)
    as [[[offset len] pos']|e] eqn:Hv.
  - destruct (DecoderProofs.variable_length_decode_Ok _ _ _ _ _ Hv)
      as (Ho & Hl & _).
    split; [|split].
    + intros Hlen Hbad.
      apply (DecoderProofs.decodes_to_Raise _ _ _ _ Hreach Hpos).
      unfold LZ77.decode_token. rewrite Hv. simpl.
      destruct (Z.eqb_spec len 0); [lia|]. rewrite andb_false_r.
      by rewrite DecoderProofs.copy_back_out_of_range by (lia || done).
    + intros Hend Hcopy.
      apply (DecoderProofs.decodes_to_Raise _ _ _ _ Hreach Hpos).
      unfold LZ77.decode_token. rewrite Hv. simpl.
      rewrite (lookup_ge_None_2 stream pos' Hend).
      destruct (_ && _); [done|].
      destruct Hcopy as [->|[Hin Hne]]; [done|].
      by destruct (DecoderProofs.copy_back_in_range (Z.to_nat len) offset
                     result ltac:(lia) Hne) as [result' ->].
    + intros -> c Hc.
      apply (LZ77.decodes_step stream pos result _ _ Hreach Hpos).
      unfold LZ77.decode_token. rewrite Hv. simpl. rewrite Hc.
      destruct (_ && _); simpl; by destruct (decide (c = LZ77.sentinel)).
  - apply DecoderProofs.variable_length_decode_Raise in Hv as Hv'.
    apply (DecoderProofs.decodes_to_Raise _ _ _ _ Hreach Hpos).
    unfold LZ77.decode_token. by rewrite Hv, Hv'.
Qed.

Lemma decompress_lz77_unchecked_witness :
  LZ77.decodes_to [x05; x00; x41] 3 [x41].
Proof.
  destruct (decompress_lz77_unchecked [x05; x00; x41] 0 [] 4096 128
              (LZ77.decodes_start _)) as [_ H].
  specialize (H ltac:(simpl; lia)).
  change (LZ77.variable_length_decode [x05; x00; x41] 0)
    with (@Ok (Z * Z * nat) (5, 0, 2%nat)) in H.
  destruct H as (_ & _ & H).
  exact (H eq_refl x41 eq_refl).
Defined.

(** ** Dictionaries *)

Module DictProofs.

Section Dict.
Context {K V : Type} `{EqDecision K}.
Implicit Types (d : list (K * V)) (k : K) (v : V).

Lemma dict_get_Some_elem d k v : dict_get k d = Some v -> (k, v) ∈ d.
Proof.
  induction d as [|[k' v'] d IH]; csimpl; [done|].
  destruct (decide (k' = k)) as [->|].
  - intros [= ->]. apply list_elem_of_here.
  - intros H. apply list_elem_of_further. by apply IH.
Qed.

Lemma dict_get_None d k : dict_get k d = None <-> k ∉ d.*1.
Proof.
  induction d as [|[k' v'] d IH]; csimpl.
  - split; [intros _; apply not_elem_of_nil|done].
  - rewrite not_elem_of_cons. destruct (decide (k' = k)) as [->|Hne].
    + split; [done|]. by intros [? _].
    + rewrite IH. split; [by intros ?; split|by intros [_ ?]].
Qed.

Lemma dict_get_NoDup d k v :
  NoDup d.*1 -> (k, v) ∈ d -> dict_get k d = Some v.
Proof.
  induction d as [|[k' v'] d IH]; csimpl; intros Hnd Hin.
  - by apply elem_of_nil in Hin.
  - apply NoDup_cons in Hnd as [Hk' Hnd].
    apply elem_of_cons in Hin as [[= -> ->]|Hin].
    + by destruct (decide (k' = k')).
    + destruct (decide (k' = k)) as [->|].
      * exfalso. apply Hk'. apply list_elem_of_fmap. by exists (k, v).
      * by apply IH.
Qed.

Lemma dict_set_fresh d k v : k ∉ d.*1 -> dict_set k v d = d ++ [(k, v)].
Proof.
  induction d as [|[k' v'] d IH]; csimpl; [done|].
  rewrite not_elem_of_cons. intros [Hne Hk].
  destruct (decide (k' = k)); [done|]. by rewrite IH.
Qed.

Lemma dict_set_present d k v : k ∈ d.*1 -> (dict_set k v d).*1 = d.*1.
Proof.
  induction d as [|[k' v'] d IH]; csimpl.
  - intros H. by apply elem_of_nil in H.
  - destruct (decide (k' = k)) as [->|Hne]; [done|].
    rewrite elem_of_cons. intros [->|Hk]; [done|]. csimpl. by rewrite IH.
Qed.

Lemma dict_set_keys d k v :
  (dict_set k v d).*1 = if decide (k ∈ d.*1) then d.*1 else d.*1 ++ [k].
Proof.
  destruct (decide (k ∈ d.*1)) as [Hin|Hnin].
  - by apply dict_set_present.
  - by rewrite dict_set_fresh, fmap_app.
Qed.

(** Filling a dictionary from items with distinct fresh keys lists the
    items in their order. *)
Lemma dict_fill (items acc : list (K * V)) :
  NoDup (acc ++ items).*1 ->
  foldl (fun d item => dict_set item.1 item.2 d) acc items = acc ++ items.
Proof.
  revert acc. induction items as [|[k v] items IH]; intros acc Hnd; csimpl.
  - by rewrite app_nil_r.
  - rewrite dict_set_fresh.
    + rewrite IH; rewrite <- (app_assoc acc [(k, v)] items); done.
    + rewrite fmap_app in Hnd. apply NoDup_app in Hnd as (_ & Hdisj & _).
      intros Hin. apply (Hdisj _ Hin). csimpl. apply list_elem_of_here.
Qed.

End Dict.

End DictProofs.

(** ** The Huffman code table *)

Module TreeProofs.
Import Huffman DictProofs.

Local Open Scope nat_scope.

Lemma byte_NoDup_length (l : list byte) : NoDup l -> length l <= 256.
Proof.
  intros Hnd.
  assert (NoDup (Byte.to_nat <$> l)) as Hnd'.
  { apply NoDup_fmap_2; [|done]. intros a b Hab.
    pose proof (Byte.of_to_nat a) as Ha. rewrite Hab, Byte.of_to_nat in Ha.
    congruence. }
  assert (incl (Byte.to_nat <$> l) (seq 0 256)) as Hincl.
  { intros n Hn.
    apply list_elem_of_In, list_elem_of_fmap in Hn as (b & -> & _).
    apply in_seq. pose proof (Byte.to_nat_bounded b). lia. }
  apply NoDup_ListNoDup in Hnd'.
  pose proof (NoDup_incl_length Hnd' Hincl) as Hlen.
  by rewrite length_fmap, length_seq in Hlen.
Qed.

(** [Counter(data)] has one key for each distinct byte of the data. *)
Lemma frequency_table_keys (data : list byte) (acc : list (byte * nat)) :
  NoDup acc.*1 ->
  let table :=
    foldl (fun table b => dict_set b (S (default O (dict_get b table))) table)
          acc data in
  NoDup table.*1 /\ forall b, b ∈ table.*1 <-> b ∈ acc.*1 \/ b ∈ data.
Proof.
  revert acc. induction data as [|x data IH]; intros acc Hnd; simpl.
  - split; [done|]. intros b. rewrite elem_of_nil. tauto.
  - set (acc' := dict_set x _ acc).
    assert (NoDup acc'.*1 /\ forall b, b ∈ acc'.*1 <-> b ∈ acc.*1 \/ b = x)
      as [Hnd' Hkeys].
    { unfold acc'. rewrite dict_set_keys.
      destruct (decide (x ∈ acc.*1)) as [Hin|Hnin].
      - split; [done|]. intros b. split; [tauto|]. by intros [?| ->].
      - split.
        + apply NoDup_app. split; [done|]. split; [|apply NoDup_singleton].
          intros b Hb Hx. apply list_elem_of_singleton in Hx. by subst.
        + intros b. by rewrite elem_of_app, list_elem_of_singleton. }
    destruct (IH acc' Hnd') as [Hnd'' Hkeys'']. split; [done|].
    intros b. rewrite Hkeys'', Hkeys, elem_of_cons. tauto.
Qed.

Lemma build_frequency_table_keys (data : list byte) :
  NoDup (build_frequency_table data).*1
  /\ forall b, b ∈ (build_frequency_table data).*1 <-> b ∈ data.
Proof.
  destruct (frequency_table_keys data [] (NoDup_nil_2)) as [Hnd Hkeys].
  split; [done|]. intros b. rewrite (Hkeys b). simpl. rewrite elem_of_nil.
  tauto.
Qed.

Lemma frequency_table_single (b : byte) (data : list byte) (n : nat) :
  (forall x, x ∈ data -> x = b) ->
  foldl (fun table b => dict_set b (S (default O (dict_get b table))) table)
        [(b, n)] data
  = [(b, n + length data)].
Proof.
  revert n. induction data as [|x data IH]; intros n Hall; simpl.
  - by rewrite Nat.add_0_r.
  - rewrite (Hall x) by apply list_elem_of_here.
    destruct (decide (b = b)); [|done]. simpl.
    rewrite IH; [f_equal; f_equal; lia|].
    intros y Hy. apply Hall. by apply list_elem_of_further.
Qed.

Lemma build_frequency_table_single (b : byte) (data : list byte) :
  data <> [] -> (forall x, x ∈ data -> x = b) ->
  build_frequency_table data = [(b, length data)].
Proof.
  destruct data as [|x data]; [done|]. intros _ Hall.
  unfold build_frequency_table. simpl.
  rewrite (Hall x) by apply list_elem_of_here.
  rewrite frequency_table_single; [done|].
  intros y Hy. apply Hall. by apply list_elem_of_further.
Qed.

(** [heappop] removes one entry of the heap. *)
Lemma pop_min_perm (heap : list node) (x m : node) (rest : list node) :
  pop_min x heap = (m, rest) -> x :: heap ≡ₚ m :: rest.
Proof.
  revert x m rest. induction heap as [|y heap IH]; intros x m rest; simpl.
  - by intros [= <- <-].
  - destruct (pop_min y heap) as [m' rest'] eqn:Hp.
    destruct (node_lt m' x).
    + intros [= <- <-]. rewrite (IH _ _ _ Hp). apply perm_swap.
    + by intros [= <- <-].
Qed.

Lemma heappop_perm (heap : list node) :
  heap <> [] ->
  exists m rest, heappop heap = Ok (m, rest) /\ heap ≡ₚ m :: rest.
Proof.
  destruct heap as [|x heap]; [done|]. intros _. simpl.
  destruct (pop_min x heap) as [m rest] eqn:Hp.
  exists m, rest. split; [done|]. by apply pop_min_perm.
Qed.

Lemma leaves_perm (heap heap' : list node) :
  heap ≡ₚ heap' -> leaves heap ≡ₚ leaves heap'.
Proof.
  unfold leaves. induction 1 as [|x h h' _ IH|x y h|h1 h2 h3 _ IH1 _ IH2];
    simpl.
  - done.
  - by rewrite IH.
  - rewrite !(app_assoc _ _ (concat _)). f_equiv. apply Permutation_app_comm.
  - by rewrite IH1.
Qed.

Lemma relabel_keys (bit : ascii) (pairs : list (byte * str)) :
  (relabel bit pairs).*1 = pairs.*1.
Proof.
  unfold relabel. induction pairs as [|p pairs IH]; csimpl; [done|].
  by rewrite IH.
Qed.

Lemma elem_of_relabel (bit : ascii) (pairs : list (byte * str))
    (p : byte * str) :
  p ∈ relabel bit pairs <->
  exists c, p.2 = bit :: c /\ (p.1, c) ∈ pairs.
Proof.
  unfold relabel. rewrite list_elem_of_fmap. split.
  - intros ([s c] & -> & Hin). by exists c.
  - intros (c & Hc & Hin). exists (p.1, c). split; [|done].
    destruct p as [s c']. simpl in *. by subst.
Qed.

(** Merging two entries keeps the invariant and leaves no empty code. *)
Lemma merge_entry_ok (lo hi : node) (weight : nat) :
  entry_ok lo -> entry_ok hi ->
  entry_ok (weight, relabel "0" lo.2 ++ relabel "1" hi.2)
  /\ Forall (fun p => p.2 <> []) (relabel "0" lo.2 ++ relabel "1" hi.2).
Proof.
  intros (Hlo_ne & Hlo_pf & _ & Hlo_len) (Hhi_ne & Hhi_pf & _ & Hhi_len).
  assert (Forall (fun p : byte * str => p.2 <> [])
                 (relabel "0" lo.2 ++ relabel "1" hi.2)) as Hne.
  { apply Forall_forall. intros p Hp.
    apply elem_of_app in Hp as [Hp|Hp];
      apply elem_of_relabel in Hp as (c & -> & _); done. }
  split; [|done]. unfold entry_ok. cbn [snd].
  split; [|split; [|split]].
  - destruct lo.2; [done|]. discriminate.
  - intros p q Hp Hq Hsym Hpre.
    apply elem_of_app in Hp as [Hp|Hp];
      apply elem_of_relabel in Hp as (c & Hc & Hp);
      apply elem_of_app in Hq as [Hq|Hq];
      apply elem_of_relabel in Hq as (c' & Hc' & Hq);
      rewrite Hc, Hc' in Hpre.
    + apply (Hlo_pf _ _ Hp Hq Hsym). simpl.
      by apply prefix_cons_inv_2 in Hpre.
    + by apply prefix_cons_inv_1 in Hpre.
    + by apply prefix_cons_inv_1 in Hpre.
    + apply (Hhi_pf _ _ Hp Hq Hsym). simpl.
      by apply prefix_cons_inv_2 in Hpre.
  - by right.
  - assert (0 < length lo.2 /\ 0 < length hi.2) as [? ?].
    { destruct lo.2, hi.2; simpl; try done; lia. }
    apply Forall_forall. intros p Hp.
    rewrite length_app. unfold relabel at 1 2. rewrite !length_fmap.
    apply elem_of_app in Hp as [Hp|Hp];
      apply elem_of_relabel in Hp as (c & -> & Hp).
    + rewrite Forall_forall in Hlo_len.
      destruct (Hlo_len _ Hp) as [Hl Hb]. simpl in *.
      split; [lia|]. apply Forall_cons. split; [by left|done].
    + rewrite Forall_forall in Hhi_len.
      destruct (Hhi_len _ Hp) as [Hl Hb]. simpl in *.
      split; [lia|]. apply Forall_cons. split; [by right|done].
Qed.

(** The merge loop ends with a single entry that holds every symbol. *)
Lemma merge_loop_spec (fuel : nat) (heap : list node) :
  heap <> [] ->
  length heap <= S fuel ->
  Forall entry_ok heap ->
  exists root,
    merge_loop fuel heap = Ok [root]
    /\ entry_ok root
    /\ root.2.*1 ≡ₚ (leaves heap).*1.
Proof.
  revert heap. induction fuel as [|fuel IH]; intros heap Hne Hlen Hok.
  - destruct heap as [|n [|n' heap]]; [done| |simpl in Hlen; lia].
    exists n. simpl. apply Forall_cons in Hok as [Hn _].
    split; [done|]. split; [done|]. unfold leaves. simpl.
    by rewrite app_nil_r.
  - simpl. destruct (Nat.ltb_spec 1 (length heap)) as [Hlong|Hshort].
    2:{ destruct heap as [|n [|n' heap]]; [done| |simpl in Hshort; lia].
        exists n. apply Forall_cons in Hok as [Hn _].
        split; [done|]. split; [done|]. unfold leaves. simpl.
        by rewrite app_nil_r. }
    destruct (heappop_perm heap Hne) as (lo & h1 & -> & Hp1). simpl.
    assert (h1 <> []) as Hne1.
    { intros ->. apply Permutation_length in Hp1. simpl in Hp1. lia. }
    destruct (heappop_perm h1 Hne1) as (hi & h2 & -> & Hp2). simpl.
    assert (heap ≡ₚ lo :: hi :: h2) as Hperm by (by rewrite Hp1, Hp2).
    rewrite Hperm in Hok.
    apply Forall_cons in Hok as [Hlo Hok].
    apply Forall_cons in Hok as [Hhi Hok].
    destruct (merge_entry_ok lo hi (lo.1 + hi.1) Hlo Hhi) as [Hm _].
    unfold heappush.
    destruct (IH ((lo.1 + hi.1, relabel "0" lo.2 ++ relabel "1" hi.2) :: h2))
      as (root & Hroot & Hroot_ok & Hkeys).
    + done.
    + apply Permutation_length in Hperm. simpl in *. lia.
    + by apply Forall_cons.
    + exists root. split; [done|]. split; [done|].
      rewrite Hkeys, (leaves_perm _ _ Hperm). unfold leaves. simpl.
      by rewrite !fmap_app, !relabel_keys, <- !app_assoc.
Qed.

(** The code table of a non-empty frequency table. *)
Lemma build_huffman_tree_spec (freq_table : list (byte * nat)) :
  freq_table <> [] ->
  NoDup freq_table.*1 ->
  exists tree,
    build_huffman_tree freq_table = Ok tree
    /\ build_huffman_codes tree = tree.2
    /\ NoDup tree.2.*1
    /\ tree.2.*1 ≡ₚ freq_table.*1
    /\ prefix_free tree.2
    /\ Forall (fun p => p.2 <> [] /\ length p.2 <= 255 /\ Forall is_bit p.2)
              tree.2
    /\ (forall symbol weight,
           freq_table = [(symbol, weight)] -> tree.2 = [(symbol, ["0"%char])]).
Proof.
  intros Hne Hnd. unfold build_huffman_tree.
  set (heap := map (fun item : byte * nat => (item.2, [(item.1, [])]))
                   freq_table).
  assert (length heap = length freq_table) as Hlen
      by (unfold heap; by rewrite length_map).
  assert (forall tree : node,
             NoDup tree.2.*1 -> build_huffman_codes tree = tree.2) as Hcodes.
  { intros tree Ht. unfold build_huffman_codes.
    by rewrite (dict_fill tree.2 []). }
  destruct (Nat.eqb_spec (length heap) 1) as [Hone|Hmany].
  - destruct freq_table as [|[symbol weight] [|item freq_table]];
      [done| |simpl in *; lia].
    simpl. eexists. split; [done|]. simpl.
    split; [by apply Hcodes|]. split; [done|]. split; [done|].
    split.
    { intros p q Hp Hq Hsym.
      apply list_elem_of_singleton in Hp, Hq. by subst. }
    split.
    { apply Forall_singleton. simpl. split; [done|]. split; [lia|].
      apply Forall_singleton. by left. }
    by intros ? ? [= <- <-].
  - assert (Forall entry_ok heap) as Hok.
    { apply Forall_forall. intros n Hn.
      apply list_elem_of_fmap in Hn as ([symbol weight] & -> & _).
      unfold entry_ok. simpl. split; [done|]. split.
      { intros p q Hp Hq Hsym.
        apply list_elem_of_singleton in Hp, Hq. by subst. }
      split; [left; by exists symbol|].
      apply Forall_singleton. simpl. split; [lia|done]. }
    destruct (merge_loop_spec (length heap) heap) as
      (root & -> & (Hr_ne & Hr_pf & Hr_code & Hr_len) & Hkeys).
    { intros Hnil. rewrite Hnil in Hlen. by destruct freq_table. }
    { apply Nat.le_succ_diag_r. }
    { done. }
    assert ((leaves heap).*1 = freq_table.*1) as Hleaves.
    { unfold heap, leaves. clear.
      induction freq_table as [|item freq_table IH]; csimpl; [done|].
      by rewrite IH. }
    rewrite Hleaves in Hkeys.
    assert (NoDup root.2.*1) as Hnd_root by (by rewrite Hkeys).
    exists root. simpl. split; [done|]. split; [by apply Hcodes|].
    split; [done|]. split; [done|]. split; [done|]. split.
    + assert (length root.2 = length freq_table) as Hcount.
      { rewrite <- (length_fmap fst root.2), <- (length_fmap fst freq_table).
        by apply Permutation_length. }
      assert (length freq_table <= 256) as Hbytes.
      { rewrite <- (length_fmap fst freq_table).
        by apply byte_NoDup_length. }
      assert (Forall (fun p : byte * str => p.2 <> []) root.2) as Hnonempty.
      { destruct Hr_code as [[symbol Hsingle]|]; [|done].
        rewrite Hsingle in Hcount. simpl in Hcount. lia. }
      rewrite Forall_forall in Hr_len, Hnonempty |- *.
      intros p Hp. destruct (Hr_len p Hp). split; [by apply Hnonempty|].
      split; [lia|done].
    + intros symbol weight ->. simpl in *. lia.
Qed.

End TreeProofs.

(** C6. For every non-empty buffer the code table is built without error;
    it gives each byte of the buffer a non-empty string of binary digits;
    no code is a prefix of the code of another symbol; and when the
    buffer holds one distinct byte value the table maps that byte to the
    one-bit code ["0"] and holds nothing else. *)
Theorem huffman_codes_prefix_free (data : list byte) :
  data <> [] ->
  exists tree,
    Huffman.build_huffman_tree (Huffman.build_frequency_table data) = Ok tree
    /\ (forall b, b ∈ data ->
          exists code,
            dict_get b (Huffman.build_huffman_codes tree) = Some code
            /\ code <> [] /\ Forall Huffman.is_bit code)
    /\ (forall s1 c1 s2 c2,
          dict_get s1 (Huffman.build_huffman_codes tree) = Some c1 ->
          dict_get s2 (Huffman.build_huffman_codes tree) = Some c2 ->
          s1 <> s2 -> ~ c1 `prefix_of` c2)
    /\ (forall b, (forall x, x ∈ data -> x = b) ->
          Huffman.build_huffman_codes tree = [(b, ["0"%char])]).
Proof.
  intros Hne.
  destruct (TreeProofs.build_frequency_table_keys data) as [Hnd Hkeys].
  destruct (TreeProofs.build_huffman_tree_spec
              (Huffman.build_frequency_table data))
    as (tree & Htree & Hcodes & Hnd_tree & Hperm & Hpf & Hall & Hsingle).
  { destruct data as [|x data]; [done|]. intros Hnil.
    assert (x ∈ (Huffman.build_frequency_table (x :: data)).*1) as Hx
        by (apply Hkeys, list_elem_of_here).
    rewrite Hnil in Hx. by apply elem_of_nil in Hx. }
  { done. }
  exists tree. split; [done|]. rewrite Hcodes. split; [|split].
  - intros b Hb. apply Hkeys in Hb. rewrite <- Hperm in Hb.
    apply list_elem_of_fmap in Hb as ([s code] & -> & Hin).
    exists code. split; [by apply DictProofs.dict_get_NoDup|].
    rewrite Forall_forall in Hall. destruct (Hall _ Hin) as (? & _ & ?).
    done.
  - intros s1 c1 s2 c2 H1 H2 Hsym.
    apply DictProofs.dict_get_Some_elem in H1, H2.
    apply (Hpf _ _ H1 H2 Hsym).
  - intros b Hb.
    apply (Hsingle b (length data)).
    by apply TreeProofs.build_frequency_table_single.
Qed.

Lemma huffman_codes_prefix_free_witness :
  exists tree,
    Huffman.build_huffman_tree
      (Huffman.build_frequency_table [x41; x42; x41; x43; x41]) = Ok tree
    /\ (forall b, b ∈ [x41; x42; x41; x43; x41] ->
          exists code,
            dict_get b (Huffman.build_huffman_codes tree) = Some code
            /\ code <> [] /\ Forall Huffman.is_bit code)
    /\ (forall s1 c1 s2 c2,
          dict_get s1 (Huffman.build_huffman_codes tree) = Some c1 ->
          dict_get s2 (Huffman.build_huffman_codes tree) = Some c2 ->
          s1 <> s2 -> ~ c1 `prefix_of` c2)
    /\ (forall b, (forall x, x ∈ [x41; x42; x41; x43; x41] -> x = b) ->
          Huffman.build_huffman_codes tree = [(b, ["0"%char])]).
Proof. apply (huffman_codes_prefix_free [x41; x42; x41; x43; x41]). done. Defined.

(** ** The serialized code table *)

Module TableProofs.
Import Huffman DictProofs.

Local Open Scope nat_scope.

Lemma pack8_range (b0 b1 b2 b3 b4 b5 b6 b7 : bool) :
  (0 <= pack8 b0 b1 b2 b3 b4 b5 b6 b7 < 256)%Z.
Proof.
  unfold pack8. destruct b0, b1, b2, b3, b4, b5, b6, b7; simpl; lia.
Qed.

(** The guard [i + j < len(code)] only leaves out digits that are absent. *)
Lemma chunk_guard (code : str) (n : nat) (z acc : Z) :
  (if n <? length code
   then (z * Z.b2z (bool_decide (code !! n = Some "1"%char)) + acc)%Z
   else acc)
  = (z * Z.b2z (bit_at code n) + acc)%Z.
Proof.
  unfold bit_at. destruct (Nat.ltb_spec n (length code)) as [|Hge]; [done|].
  rewrite (lookup_ge_None_2 code n Hge).
  rewrite bool_decide_eq_false_2 by done. simpl. lia.
Qed.

Lemma chunk_value_pack8 (code : str) (i : nat) :
  chunk_value code i
  = pack8 (bit_at code (i + 0)) (bit_at code (i + 1)) (bit_at code (i + 2))
          (bit_at code (i + 3)) (bit_at code (i + 4)) (bit_at code (i + 5))
          (bit_at code (i + 6)) (bit_at code (i + 7)).
Proof.
  unfold chunk_value. cbn [seq foldr]. rewrite !chunk_guard.
  unfold pack8.
  change (Z.shiftl 1 (7 - Z.of_nat 0)) with 128%Z.
  change (Z.shiftl 1 (7 - Z.of_nat 1)) with 64%Z.
  change (Z.shiftl 1 (7 - Z.of_nat 2)) with 32%Z.
  change (Z.shiftl 1 (7 - Z.of_nat 3)) with 16%Z.
  change (Z.shiftl 1 (7 - Z.of_nat 4)) with 8%Z.
  change (Z.shiftl 1 (7 - Z.of_nat 5)) with 4%Z.
  change (Z.shiftl 1 (7 - Z.of_nat 6)) with 2%Z.
  change (Z.shiftl 1 (7 - Z.of_nat 7)) with 1%Z.
  lia.
Qed.

Lemma chunk_value_range (code : str) (i : nat) :
  (0 <= chunk_value code i < 256)%Z.
Proof. rewrite chunk_value_pack8. apply pack8_range. Qed.

(** The test [byte & (1 << (7 - j))] reads the digit [j] of the chunk. *)
Lemma chunk_bit (code : str) (i j : nat) :
  j < 8 ->
  (Z.land (chunk_value code i) (Z.shiftl 1 (7 - Z.of_nat j)) =? 0)%Z
  = negb (bit_at code (i + j)).
Proof.
  intros Hj. rewrite chunk_value_pack8.
  do 8 (destruct j as [|j];
        [destruct (bit_at code (i + 0)), (bit_at code (i + 1)),
           (bit_at code (i + 2)), (bit_at code (i + 3)),
           (bit_at code (i + 4)), (bit_at code (i + 5)),
           (bit_at code (i + 6)), (bit_at code (i + 7)); reflexivity|]).
  lia.
Qed.

Lemma for_each_append (f : nat -> Z) (l : list nat) (result : list byte) :
  (forall i, (0 <= f i < 256)%Z) ->
  for_each (fun result i => append result (f i)) result l
  = Ok (result ++ map (fun i => byte_of_Z (f i)) l).
Proof.
  intros Hf. revert result.
  induction l as [|i l IH]; intros result; simpl.
  - by rewrite app_nil_r.
  - rewrite append_Ok by done. simpl. rewrite IH.
    by rewrite <- app_assoc.
Qed.

Lemma serialize_entry_spec (result : list byte) (entry : byte * str) :
  length entry.2 <= 255 ->
  serialize_entry result entry = Ok (result ++ entry_bytes entry).
Proof.
  intros Hlen. unfold serialize_entry, entry_bytes, chunk_bytes.
  rewrite append_Ok by lia. simpl.
  rewrite (for_each_append (chunk_value entry.2))
    by apply chunk_value_range.
  by rewrite <- !app_assoc.
Qed.

Lemma serialize_entries_spec (codes : list (byte * str)) (result : list byte) :
  Forall (fun p => length p.2 <= 255) codes ->
  for_each serialize_entry result codes
  = Ok (result ++ concat (map entry_bytes codes)).
Proof.
  revert result. induction codes as [|entry codes IH]; intros result Hok;
    simpl.
  - by rewrite app_nil_r.
  - apply Forall_cons in Hok as [Hentry Hok].
    rewrite serialize_entry_spec by done. simpl. rewrite IH by done.
    by rewrite <- app_assoc.
Qed.

Lemma serialize_tree_spec (codes : list (byte * str)) :
  length codes <= 256 ->
  Forall (fun p => length p.2 <= 255) codes ->
  serialize_tree codes = Ok (table_bytes codes).
Proof.
  intros Hcount Hok. unfold serialize_tree, to_bytes2_le, table_bytes.
  set (n := Z.of_nat (length codes)).
  assert (0 <= n <= 256)%Z as Hn by lia.
  destruct (Z.ltb_spec n 0); [lia|].
  destruct (Z.leb_spec 65536 n); [lia|]. simpl.
  assert (0 <= n mod 256 < 256)%Z as Hlo by (apply Z.mod_pos_bound; lia).
  assert (0 <= n / 256 < 256)%Z as Hhi.
  { split; [apply Z.div_pos; lia|apply Z.div_lt_upper_bound; lia]. }
  destruct (byte_of_int_byte_of_Z _ Hlo) as [-> _].
  destruct (byte_of_int_byte_of_Z _ Hhi) as [-> _]. simpl.
  by rewrite serialize_entries_spec.
Qed.

Lemma length_range_by_8 (n : nat) : length (range_by_8 n) = (n + 7) / 8.
Proof. unfold range_by_8. by rewrite length_map, length_seq. Qed.

Lemma chunk_bytes_lookup (code : str) (k : nat) :
  k < (length code + 7) / 8 ->
  chunk_bytes code !! k = Some (byte_of_Z (chunk_value code (8 * k))).
Proof.
  intros Hk. unfold chunk_bytes, range_by_8.
  rewrite !list_lookup_fmap, lookup_seq_lt by done. done.
Qed.

Lemma read_code_prefix (data : list byte) (pos : nat) (code : str) (n : nat) :
  Forall is_bit code ->
  (forall k, k < (length code + 7) / 8 ->
             data !! (pos + k) = Some (byte_of_Z (chunk_value code (8 * k)))) ->
  n <= length code ->
  read_code data pos n = Ok (take n code).
Proof.
  intros Hbits Hdata. unfold read_code.
  induction n as [|n IH]; intros Hn; [done|].
  rewrite seq_S, LZ77Proofs.for_each_app, IH by lia.
  cbn [for_each bind Nat.add].
  destruct (lookup_lt_is_Some_2 code n ltac:(lia)) as [c Hc].
  assert (n / 8 < (length code + 7) / 8) as Hk.
  { apply Nat.Div0.div_lt_upper_bound.
    pose proof (Nat.div_mod (length code + 7) 8 ltac:(lia)).
    pose proof (Nat.mod_upper_bound (length code + 7) 8 ltac:(lia)). lia. }
  unfold index. rewrite (Hdata _ Hk). cbn [bind].
  destruct (byte_of_int_byte_of_Z _ (chunk_value_range code (8 * (n / 8))))
    as [_ ->].
  rewrite (chunk_bit code (8 * (n / 8)) (n mod 8))
    by (apply Nat.mod_upper_bound; lia).
  rewrite <- (Nat.div_mod n 8) by lia.
  rewrite (take_S_r code n c Hc). do 2 f_equal.
  unfold bit_at. rewrite Hc.
  rewrite Forall_forall in Hbits.
  destruct (Hbits c) as [-> | ->];
    [by apply list_elem_of_lookup_2 with n|done|done].
Qed.

Lemma read_code_spec (data : list byte) (pos : nat) (code : str) :
  Forall is_bit code ->
  (forall k, k < (length code + 7) / 8 ->
             data !! (pos + k) = Some (byte_of_Z (chunk_value code (8 * k)))) ->
  read_code data pos (length code) = Ok code.
Proof.
  intros Hbits Hdata.
  rewrite (read_code_prefix data pos code (length code)) by done.
  by rewrite take_ge.
Qed.

Lemma length_entry_bytes (entry : byte * str) :
  length (entry_bytes entry) = 2 + (length entry.2 + 7) / 8.
Proof.
  unfold entry_bytes, chunk_bytes. simpl.
  by rewrite length_map, length_range_by_8.
Qed.

Lemma deserialize_entry_spec (pre suf : list byte) (entry : byte * str)
    (codes : list (byte * str)) :
  length entry.2 <= 255 ->
  Forall is_bit entry.2 ->
  deserialize_entry (pre ++ entry_bytes entry ++ suf) (codes, length pre)
  = Ok (dict_set entry.1 entry.2 codes,
        length pre + length (entry_bytes entry)).
Proof.
  intros Hlen Hbits. unfold deserialize_entry.
  rewrite length_entry_bytes.
  unfold entry_bytes at 1 2. cbn [app].
  rewrite index_app_here. cbn [bind].
  rewrite (index_app_r pre _ 1). cbn [index lookup list_lookup bind].
  destruct (byte_of_int_byte_of_Z (Z.of_nat (length entry.2)) ltac:(lia))
    as [_ ->].
  rewrite Nat2Z.id, read_code_spec; [by rewrite Nat.add_assoc|done|].
  intros k Hk. rewrite <- Nat.add_assoc, lookup_app_r by lia.
  replace (length pre + (2 + k) - length pre) with (S (S k)) by lia.
  change ((entry_bytes entry ++ suf) !! S (S k))
    with ((chunk_bytes entry.2 ++ suf) !! k).
  rewrite lookup_app_l by (unfold chunk_bytes;
                           rewrite length_map, length_range_by_8; lia).
  by apply chunk_bytes_lookup.
Qed.

Lemma deserialize_entries_spec (entries : list (byte * str))
    (pre suf : list byte) (codes : list (byte * str)) (a : nat) :
  Forall (fun p => length p.2 <= 255 /\ Forall is_bit p.2) entries ->
  for_each (fun state _ =>
              deserialize_entry
                (pre ++ concat (map entry_bytes entries) ++ suf) state)
           (codes, length pre) (seq a (length entries))
  = Ok (foldl (fun d item => dict_set item.1 item.2 d) codes entries,
        length pre + length (concat (map entry_bytes entries))).
Proof.
  revert pre codes a.
  induction entries as [|entry entries IH]; intros pre codes a Hok;
    cbn [map concat length seq for_each foldl].
  - by rewrite Nat.add_0_r.
  - apply Forall_cons in Hok as [[Hlen Hbits] Hok].
    rewrite <- app_assoc, deserialize_entry_spec by done. cbn [bind].
    specialize (IH (pre ++ entry_bytes entry) (dict_set entry.1 entry.2 codes)
                   (S a) Hok).
    rewrite <- !app_assoc, length_app in IH. rewrite IH.
    by rewrite length_app, Nat.add_assoc.
Qed.

Lemma deserialize_table_bytes (codes : list (byte * str)) :
  NoDup codes.*1 ->
  Forall (fun p => length p.2 <= 255 /\ Forall is_bit p.2) codes ->
  deserialize_tree (table_bytes codes) = Ok codes.
Proof.
  intros Hnd Hok.
  assert (length codes <= 256) as Hcount.
  { rewrite <- (length_fmap fst codes). by apply TreeProofs.byte_NoDup_length. }
  unfold deserialize_tree, table_bytes.
  set (n := Z.of_nat (length codes)).
  assert (0 <= n <= 256)%Z as Hn by lia.
  assert (0 <= n mod 256 < 256)%Z as Hlo by (apply Z.mod_pos_bound; lia).
  assert (0 <= n / 256 < 256)%Z as Hhi.
  { split; [apply Z.div_pos; lia|apply Z.div_lt_upper_bound; lia]. }
  cbn [app take int_from_bytes_le foldr].
  destruct (byte_of_int_byte_of_Z _ Hlo) as [_ ->].
  destruct (byte_of_int_byte_of_Z _ Hhi) as [_ ->].
  rewrite take_0. cbn [foldr].
  replace (Z.to_nat (n mod 256 + 256 * (n / 256 + 256 * 0)))
    with (length codes).
  2:{ pose proof (Z.div_mod n 256 ltac:(lia)). lia. }
  pose proof (deserialize_entries_spec codes
                [byte_of_Z (n mod 256); byte_of_Z (n / 256)] [] [] 0 Hok)
    as Hloop.
  rewrite app_nil_r in Hloop. cbn [app length] in Hloop.
  rewrite Hloop. simpl. by rewrite (dict_fill codes []).
Qed.

(** *** The layout of the specification *)

Lemma b2z_bit_at (l : str) (n : nat) (c : ascii) :
  l !! n = Some c ->
  Z.b2z (bit_at l n) = if decide (c = "1"%char) then 1%Z else 0%Z.
Proof.
  intros Hc. unfold bit_at. rewrite Hc.
  destruct (decide (c = "1"%char)) as [->|Hne].
  - by rewrite bool_decide_eq_true_2.
  - rewrite bool_decide_eq_false_2; [done|congruence].
Qed.

Lemma bits_value_8 (l : str) :
  length l = 8 ->
  bits_value l
  = pack8 (bit_at l 0) (bit_at l 1) (bit_at l 2) (bit_at l 3)
          (bit_at l 4) (bit_at l 5) (bit_at l 6) (bit_at l 7).
Proof.
  intros Hl.
  destruct l as [|c0 [|c1 [|c2 [|c3 [|c4 [|c5 [|c6 [|c7 [|c8 l]]]]]]]]];
    try discriminate Hl.
  unfold pack8.
  rewrite (b2z_bit_at _ 0 c0), (b2z_bit_at _ 1 c1), (b2z_bit_at _ 2 c2),
    (b2z_bit_at _ 3 c3), (b2z_bit_at _ 4 c4), (b2z_bit_at _ 5 c5),
    (b2z_bit_at _ 6 c6), (b2z_bit_at _ 7 c7) by done.
  unfold bits_value. cbn [foldl]. lia.
Qed.

Lemma bit_at_padded (code : str) (m n : nat) :
  bit_at (code ++ replicate m "0"%char) n = bit_at code n.
Proof.
  unfold bit_at. destruct (Nat.lt_ge_cases n (length code)) as [Hlt|Hge].
  - by rewrite lookup_app_l.
  - rewrite lookup_app_r, (lookup_ge_None_2 code n) by done.
    rewrite (bool_decide_eq_false_2 (None = _)) by done.
    apply bool_decide_eq_false_2. intros Hone.
    by apply lookup_replicate in Hone as [? _].
Qed.

Lemma chunk_value_spec (code : str) (k : nat) :
  k < (length code + 7) / 8 ->
  chunk_value code (8 * k)
  = bits_value
      (take 8 (drop (8 * k)
                 (code ++ replicate ((8 - length code mod 8) mod 8) "0"%char))).
Proof.
  intros Hk.
  set (padded := code ++ replicate ((8 - length code mod 8) mod 8) "0"%char).
  assert (8 * k + 8 <= length padded) as Hlen.
  { unfold padded. rewrite length_app, length_replicate.
    pose proof (Nat.div_mod (length code + 7) 8 ltac:(lia)).
    pose proof (Nat.mod_upper_bound (length code + 7) 8 ltac:(lia)).
    pose proof (Nat.div_mod (length code) 8 ltac:(lia)).
    pose proof (Nat.mod_upper_bound (length code) 8 ltac:(lia)).
    destruct (decide (length code mod 8 = 0)) as [Hz|Hnz].
    - rewrite Hz. change ((8 - 0) mod 8) with 0. lia.
    - rewrite (Nat.mod_small (8 - length code mod 8) 8) by lia. lia. }
  rewrite bits_value_8 by (rewrite length_take, length_drop; lia).
  rewrite chunk_value_pack8.
  assert (forall j, j < 8 ->
            bit_at (take 8 (drop (8 * k) padded)) j = bit_at code (8 * k + j))
    as Hbit.
  { intros j Hj. unfold bit_at at 1.
    rewrite lookup_take_lt, lookup_drop by done.
    apply bit_at_padded. }
  rewrite !Hbit by lia. done.
Qed.

Lemma table_bytes_layout (codes : list (byte * str)) :
  length codes <= 256 ->
  Forall (fun p => length p.2 <= 255) codes ->
  map int_of_byte (table_bytes codes) = spec_table_layout codes.
Proof.
  intros Hcount Hok. unfold table_bytes, spec_table_layout.
  set (n := Z.of_nat (length codes)).
  assert (0 <= n <= 256)%Z as Hn by lia.
  assert (0 <= n mod 256 < 256)%Z as Hlo by (apply Z.mod_pos_bound; lia).
  assert (0 <= n / 256 < 256)%Z as Hhi.
  { split; [apply Z.div_pos; lia|apply Z.div_lt_upper_bound; lia]. }
  cbn [app map].
  destruct (byte_of_int_byte_of_Z _ Hlo) as [_ ->].
  destruct (byte_of_int_byte_of_Z _ Hhi) as [_ ->].
  do 2 f_equal. clear Hcount n Hn Hlo Hhi.
  induction codes as [|entry codes IH]; [done|].
  apply Forall_cons in Hok as [Hlen Hok].
  cbn [map concat]. rewrite map_app, IH by done. f_equal.
  unfold entry_bytes. cbn [map app].
  destruct (byte_of_int_byte_of_Z (Z.of_nat (length entry.2)) ltac:(lia))
    as [_ ->].
  do 2 f_equal. unfold chunk_bytes, range_by_8, spec_code_bytes.
  rewrite !map_map. apply map_ext_in. intros k Hk.
  apply in_seq in Hk.
  destruct (byte_of_int_byte_of_Z _ (chunk_value_range entry.2 (8 * k)))
    as [_ ->].
  apply chunk_value_spec. lia.
Qed.

End TableProofs.

(** C7. For every valid code table (distinct byte symbols, hence at most
    256, each with a code of 1 to 255 binary digits) [serialize_tree]
    succeeds, [deserialize_tree] of its bytes is the table again, and the
    bytes are the count on two bytes little-endian and then, per symbol,
    the symbol, the code length in bits and [ceil(length/8)] bytes with
    the digits of the code most-significant first and zeros after the
    last digit. *)
Theorem serialize_tree_roundtrip (codes : list (byte * str)) :
  NoDup codes.*1 ->
  Forall (fun p => (1 <= length p.2 <= 255)%nat /\ Forall Huffman.is_bit p.2)
         codes ->
  (length codes <= 256)%nat
  /\ exists table,
      Huffman.serialize_tree codes = Ok table
      /\ Huffman.deserialize_tree table = Ok codes
      /\ map int_of_byte table = Huffman.spec_table_layout codes.
Proof.
  intros Hnd Hok.
  assert (length codes <= 256)%nat as Hcount.
  { rewrite <- (length_fmap fst codes). by apply TreeProofs.byte_NoDup_length. }
  assert (Forall (fun p : byte * str => (length p.2 <= 255)%nat) codes) as Hlen.
  { eapply Forall_impl; [exact Hok|]. intros p [[_ ?] _]. done. }
  split; [done|]. exists (Huffman.table_bytes codes).
  split; [by apply TableProofs.serialize_tree_spec|].
  split; [|by apply TableProofs.table_bytes_layout].
  apply TableProofs.deserialize_table_bytes; [done|].
  eapply Forall_impl; [exact Hok|]. intros p [[_ ?] ?]. done.
Qed.

Lemma serialize_tree_roundtrip_witness :
  (2 <= 256)%nat
  /\ exists table,
      Huffman.serialize_tree
        [(x41, ["0"%char]);
         (x42, ["1"%char; "0"%char; "1"%char; "1"%char; "0"%char;
                "0"%char; "1"%char; "0"%char; "1"%char])] = Ok table
      /\ Huffman.deserialize_tree table
         = Ok [(x41, ["0"%char]);
               (x42, ["1"%char; "0"%char; "1"%char; "1"%char; "0"%char;
                      "0"%char; "1"%char; "0"%char; "1"%char])]
      /\ map int_of_byte table = [2; 0; 65; 1; 0; 66; 9; 178; 128].
Proof.
  apply (serialize_tree_roundtrip
           [(x41, ["0"%char]);
            (x42, ["1"%char; "0"%char; "1"%char; "1"%char; "0"%char;
                   "0"%char; "1"%char; "0"%char; "1"%char])]).
  - csimpl. apply NoDup_cons. split; [|apply NoDup_singleton].
    intros H. apply list_elem_of_singleton in H. discriminate H.
  - repeat (apply Forall_cons; split; [split; [simpl; lia|]|]);
      try apply Forall_nil_2;
      repeat (apply Forall_cons; split; [(by left) || (by right)|]);
      apply Forall_nil_2.
Defined.

(** ** Bit packing and greedy decoding *)

Module CodingProofs.
Import Huffman DictProofs.

Local Open Scope nat_scope.

Lemma encode_from (codes : list (byte * str)) (data : list byte) (acc : str) :
  (forall b, b ∈ data -> b ∈ codes.*1) ->
  for_each (fun encoded b => let* code := dict_item codes b in
                             Ok (encoded ++ code)) acc data
  = Ok (acc ++ concat (map (code_of codes) data)).
Proof.
  revert acc. induction data as [|b data IH]; intros acc Hin; simpl.
  - by rewrite app_nil_r.
  - unfold dict_item, code_of at 1.
    destruct (dict_get b codes) as [code|] eqn:Hb.
    + simpl. rewrite IH; [by rewrite <- app_assoc|].
      intros b' Hb'. apply Hin. by apply list_elem_of_further.
    + apply dict_get_None in Hb. destruct Hb. apply Hin, list_elem_of_here.
Qed.

Lemma encode_spec (codes : list (byte * str)) (data : list byte) :
  (forall b, b ∈ data -> b ∈ codes.*1) ->
  encode codes data = Ok (concat (map (code_of codes) data)).
Proof. intros Hin. unfold encode. by rewrite encode_from. Qed.

Lemma encoded_bits (codes : list (byte * str)) (data : list byte) :
  Forall (fun p => Forall is_bit p.2) codes ->
  Forall is_bit (concat (map (code_of codes) data)).
Proof.
  intros Hbits. apply Forall_concat, Forall_forall. intros code Hcode.
  apply list_elem_of_fmap in Hcode as (b & -> & _). unfold code_of.
  destruct (dict_get b codes) as [code|] eqn:Hb; simpl; [|done].
  apply dict_get_Some_elem in Hb. rewrite Forall_forall in Hbits.
  apply (Hbits _ Hb).
Qed.

(** *** Packing eight digits to a byte and back *)

Lemma int_base2_from (digits : str) (acc : Z) :
  Forall is_bit digits ->
  for_each (fun acc c =>
              if decide (c = "0"%char) then Ok (2 * acc)%Z
              else if decide (c = "1"%char) then Ok (2 * acc + 1)%Z
              else Raise ValueError) acc digits
  = Ok (foldl (fun acc c => (2 * acc
                             + (if decide (c = "1"%char) then 1 else 0))%Z)
              acc digits).
Proof.
  revert acc. induction digits as [|c digits IH]; intros acc Hbits; [done|].
  apply Forall_cons in Hbits as [[-> | ->] Hbits]; simpl.
  - rewrite IH by done. by rewrite Z.add_0_r.
  - by rewrite IH.
Qed.

Lemma int_base2_spec (digits : str) :
  digits <> [] -> Forall is_bit digits ->
  int_base2 digits = Ok (bits_value digits).
Proof.
  intros Hne Hbits. unfold int_base2, bits_value.
  destruct digits; [done|]. by apply int_base2_from.
Qed.

Lemma bits_value_range (digits : str) :
  length digits = 8 -> (0 <= bits_value digits < 256)%Z.
Proof.
  intros H. rewrite TableProofs.bits_value_8 by done.
  apply TableProofs.pack8_range.
Qed.

Lemma format_08b_bits_value (digits : str) :
  length digits = 8 -> Forall is_bit digits ->
  format_08b (byte_of_Z (bits_value digits)) = digits.
Proof.
  intros Hl Hbits.
  destruct digits
    as [|c0 [|c1 [|c2 [|c3 [|c4 [|c5 [|c6 [|c7 [|c8 l]]]]]]]]];
    try discriminate Hl.
  repeat match goal with
         | H : Forall is_bit (_ :: _) |- _ =>
             apply Forall_cons in H as [[-> | ->] H]
         end;
    vm_compute; reflexivity.
Qed.

(** A string whose length is a multiple of eight is the concatenation of
    its chunks. *)
Lemma concat_chunks (m : nat) (digits : str) :
  length digits = 8 * m ->
  concat (map (chunk digits) (seq 0 m)) = digits.
Proof.
  revert digits. induction m as [|m IH]; intros digits Hl.
  - by destruct digits.
  - cbn [seq map concat]. rewrite <- fmap_S_seq.
    rewrite <- (take_drop 8 digits) at 3. f_equal.
    rewrite <- (IH (drop 8 digits)) by (rewrite length_drop; lia).
    f_equal. rewrite <- list_fmap_compose. apply list_fmap_ext.
    intros _ k _. unfold chunk. simpl.
    rewrite drop_drop. do 2 f_equal. lia.
Qed.

Lemma chunk_length (m k : nat) (digits : str) :
  length digits = 8 * m -> k < m -> length (chunk digits k) = 8.
Proof.
  intros Hl Hk. unfold chunk. rewrite length_take, length_drop. lia.
Qed.

Lemma chunk_bits (digits : str) (k : nat) :
  Forall is_bit digits -> Forall is_bit (chunk digits k).
Proof. intros H. unfold chunk. by apply Forall_take, Forall_drop. Qed.

Lemma pack_chunks (m : nat) (digits : str) (ks : list nat)
    (packed : list byte) :
  length digits = 8 * m -> Forall is_bit digits ->
  Forall (fun k => k < m) ks ->
  for_each (fun packed i =>
              let* v := int_base2 (take 8 (drop i digits)) in
              append packed v)
           packed (map (fun k => 8 * k) ks)
  = Ok (packed
        ++ map (fun k => byte_of_Z (bits_value (chunk digits k))) ks).
Proof.
  intros Hl Hbits. revert packed.
  induction ks as [|k ks IH]; intros packed Hks; cbn [map for_each].
  - by rewrite app_nil_r.
  - apply Forall_cons in Hks as [Hk Hks].
    fold (chunk digits k).
    pose proof (chunk_length m k digits Hl Hk) as Hc.
    rewrite int_base2_spec;
      [|by destruct (chunk digits k)|by apply chunk_bits].
    cbn [bind]. rewrite append_Ok by (by apply bits_value_range).
    cbn [bind]. rewrite IH by done. by rewrite <- app_assoc.
Qed.

(** [efficient_bytes_to_binary_string] undoes
    [efficient_binary_string_to_bytes]. *)
Lemma binary_string_roundtrip (binary_string : str) :
  Forall is_bit binary_string ->
  exists packed padding,
    efficient_binary_string_to_bytes binary_string = Ok (packed, padding)
    /\ efficient_bytes_to_binary_string packed padding = binary_string.
Proof.
  intros Hbits. unfold efficient_binary_string_to_bytes.
  set (padding := if length binary_string mod 8 =? 0 then 0
                  else 8 - length binary_string mod 8).
  set (padded := binary_string ++ replicate padding "0"%char).
  pose proof (Nat.div_mod (length binary_string) 8 ltac:(lia)) as Hdm.
  pose proof (Nat.mod_upper_bound (length binary_string) 8 ltac:(lia)) as Hm.
  set (m := (length padded + 7) / 8).
  assert (length padded = 8 * m /\ padding < 8) as [Hl Hp].
  { unfold m, padded, padding. rewrite length_app, length_replicate.
    destruct (Nat.eqb_spec (length binary_string mod 8) 0) as [Hz|Hnz].
    - split; [|lia].
      rewrite <- (Nat.div_unique (length binary_string + 0 + 7) 8
                    (length binary_string / 8) 7); lia.
    - split; [|lia].
      rewrite <- (Nat.div_unique
                    (length binary_string
                     + (8 - length binary_string mod 8) + 7) 8
                    (length binary_string / 8 + 1) 7); lia. }
  assert (Forall is_bit padded) as Hpb.
  { apply Forall_app. split; [done|].
    apply Forall_replicate. by left. }
  unfold range_by_8. fold m.
  rewrite (pack_chunks m padded (seq 0 m) [] Hl Hpb).
  2:{ apply Forall_forall. intros k Hk.
      apply list_elem_of_In, in_seq in Hk. lia. }
  cbn [bind app]. eexists _, _. split; [done|].
  unfold efficient_bytes_to_binary_string.
  assert (concat (map format_08b
                    (map (fun k => byte_of_Z (bits_value (chunk padded k)))
                         (seq 0 m))) = padded) as ->.
  { rewrite map_map.
    transitivity (concat (map (chunk padded) (seq 0 m)));
      [|by apply concat_chunks].
    f_equal. apply map_ext_in. intros k Hk. apply in_seq in Hk.
    apply format_08b_bits_value;
      [apply (chunk_length m)|apply chunk_bits]; (done || lia). }
  destruct (Nat.eqb_spec padding 0) as [Hz|Hnz].
  - unfold padded. by rewrite Hz, app_nil_r.
  - unfold padded at 2. rewrite take_app_length'; [done|].
    unfold padded. rewrite length_app, length_replicate. lia.
Qed.

(** *** Greedy decoding *)

Section Decode.
Variable codes : list (byte * str).
Hypothesis codes_NoDup : NoDup codes.*1.
Hypothesis codes_prefix_free : prefix_free codes.
Hypothesis codes_nonempty : Forall (fun p => p.2 <> []) codes.

Lemma codes_values_NoDup : NoDup codes.*2.
Proof using codes_NoDup codes_prefix_free.
  clear codes_nonempty.
  induction codes as [|[s c] rest IH]; csimpl; [apply NoDup_nil_2|].
  csimpl in codes_NoDup. apply NoDup_cons in codes_NoDup as [Hs Hnd].
  apply NoDup_cons. split.
  - intros Hc. apply list_elem_of_fmap in Hc as ([s' c'] & Heq & Hin).
    simpl in Heq. subst c'.
    apply (codes_prefix_free (s, c) (s', c)); simpl.
    + apply list_elem_of_here.
    + by apply list_elem_of_further.
    + intros ->. apply Hs. apply list_elem_of_fmap. by exists (s', c).
    + done.
  - apply IH; [done|].
    intros p q Hp Hq. apply codes_prefix_free; by apply list_elem_of_further.
Qed.

Lemma invert_spec :
  invert codes = map (fun item => (item.2, item.1)) codes.
Proof using codes_NoDup codes_prefix_free.
  unfold invert.
  transitivity
    (foldl (fun d (item : str * byte) => dict_set item.1 item.2 d) []
           (map (fun item : byte * str => (item.2, item.1)) codes)).
  - clear. generalize (@nil (str * byte)).
    induction codes as [|item rest IH]; intros acc; [done|]. simpl.
    apply IH.
  - apply (dict_fill (map (fun item : byte * str => (item.2, item.1)) codes)
             []).
    simpl. rewrite <- list_fmap_compose.
    pose proof codes_values_NoDup as H.
    by replace (fst ∘ (fun item : byte * str => (item.2, item.1)))
      with (@snd byte str) by done.
Qed.

Lemma lookup_code (code : str) (symbol : byte) :
  dict_get code (invert codes) = Some symbol <-> (symbol, code) ∈ codes.
Proof using codes_NoDup codes_prefix_free.
  rewrite invert_spec. split.
  - intros H. apply dict_get_Some_elem, list_elem_of_fmap in H
      as ([s c] & [= -> ->] & Hin). done.
  - intros Hin. apply dict_get_NoDup.
    + rewrite <- list_fmap_compose.
      pose proof codes_values_NoDup as H.
      by replace (fst ∘ (fun item : byte * str => (item.2, item.1)))
        with (@snd byte str) by done.
    + apply list_elem_of_fmap. by exists (symbol, code).
Qed.

(** The digits of one code are consumed and its symbol is written. *)
Lemma decode_symbol (b : byte) (suffix acc rest : str) (out : list byte) :
  (b, acc ++ suffix) ∈ codes ->
  suffix <> [] ->
  foldl (decode_bit (invert codes)) (out, acc) (suffix ++ rest)
  = foldl (decode_bit (invert codes)) (out ++ [b], []) rest.
Proof using codes_NoDup codes_prefix_free.
  revert acc. induction suffix as [|bit suffix IH]; intros acc Hin Hne;
    [done|].
  cbn [app foldl]. unfold decode_bit at 2. cbn [fst snd].
  destruct (decide (suffix = [])) as [->|Hmore].
  - apply lookup_code in Hin. by rewrite Hin.
  - destruct (dict_get (acc ++ [bit]) (invert codes)) as [s|] eqn:Hs.
    + exfalso. apply lookup_code in Hs.
      destruct (decide (s = b)) as [->|Hsb].
      * assert (acc ++ [bit] = acc ++ bit :: suffix) as Heq.
        { apply (dict_get_NoDup codes b) in Hs, Hin; [|done..]. congruence. }
        apply app_inv_head in Heq. congruence.
      * apply (codes_prefix_free _ _ Hs Hin Hsb). simpl.
        exists suffix. by rewrite <- app_assoc.
    + apply IH; [by rewrite <- app_assoc|done].
Qed.

Lemma decode_all (data out : list byte) :
  (forall b, b ∈ data -> b ∈ codes.*1) ->
  foldl (decode_bit (invert codes)) (out, [])
        (concat (map (code_of codes) data))
  = (out ++ data, []).
Proof using codes_NoDup codes_prefix_free codes_nonempty.
  revert out. induction data as [|b data IH]; intros out Hin.
  - by rewrite app_nil_r.
  - cbn [map concat].
    assert (b ∈ codes.*1) as Hb by apply Hin, list_elem_of_here.
    apply list_elem_of_fmap in Hb as ([s c] & -> & Hc). simpl.
    unfold code_of at 1. rewrite (dict_get_NoDup codes s c) by done. simpl.
    rewrite (decode_symbol s c [] _ out); [| |].
    + rewrite IH; [by rewrite <- app_assoc|].
      intros b' Hb'. apply Hin. by apply list_elem_of_further.
    + done.
    + rewrite Forall_forall in codes_nonempty.
      apply (codes_nonempty _ Hc).
Qed.

End Decode.

End CodingProofs.

(** ** The Huffman stage *)

Module StageProofs.
Import Huffman.

Local Open Scope nat_scope.

(** The pipeline of [compress_huffman] on a non-empty buffer: every step
    succeeds, and the table and the packed digits decode to the buffer. *)
Lemma huffman_pipeline (data : list byte) :
  data <> [] ->
  exists tree encoded packed padding table,
    build_huffman_tree (build_frequency_table data) = Ok tree
    /\ encode (build_huffman_codes tree) data = Ok encoded
    /\ efficient_binary_string_to_bytes encoded = Ok (packed, padding)
    /\ serialize_tree (build_huffman_codes tree) = Ok table
    /\ decompress_huffman packed (Applied table padding) = Ok data.
Proof.
  intros Hne.
  destruct (TreeProofs.build_frequency_table_keys data) as [Hnd Hkeys].
  destruct (TreeProofs.build_huffman_tree_spec (build_frequency_table data))
    as (tree & Htree & Hcodes & Hnd_tree & Hperm & Hpf & Hall & _).
  { destruct data as [|x data]; [done|]. intros Hnil.
    assert (x ∈ (build_frequency_table (x :: data)).*1) as Hx
        by (apply Hkeys, list_elem_of_here).
    rewrite Hnil in Hx. by apply elem_of_nil in Hx. }
  { done. }
  assert (forall b, b ∈ data -> b ∈ tree.2.*1) as Hin.
  { intros b Hb. rewrite Hperm. by apply Hkeys. }
  assert (Forall (fun p : byte * str => Forall is_bit p.2) tree.2) as Hbits.
  { eapply Forall_impl; [exact Hall|]. by intros p (_ & _ & ?). }
  assert (Forall (fun p : byte * str => p.2 <> []) tree.2) as Hnonempty.
  { eapply Forall_impl; [exact Hall|]. by intros p (? & _). }
  destruct (CodingProofs.binary_string_roundtrip
              (concat (map (code_of tree.2) data)))
    as (packed & padding & Hpack & Hunpack).
  { by apply CodingProofs.encoded_bits. }
  exists tree, (concat (map (code_of tree.2) data)), packed, padding,
    (table_bytes tree.2).
  rewrite Hcodes. split; [done|].
  split; [by apply CodingProofs.encode_spec|]. split; [done|].
  split.
  { apply TableProofs.serialize_tree_spec.
    - rewrite <- (length_fmap fst tree.2).
      by apply TreeProofs.byte_NoDup_length.
    - eapply Forall_impl; [exact Hall|]. by intros p (_ & ? & _). }
  unfold decompress_huffman.
  rewrite TableProofs.deserialize_table_bytes; [|done|].
  2:{ eapply Forall_impl; [exact Hall|]. by intros p (_ & ? & ?). }
  cbn [bind]. rewrite Hunpack.
  by rewrite (CodingProofs.decode_all tree.2 Hnd_tree Hpf Hnonempty data []).
Qed.

(** The stage never raises, applies itself exactly when the packed bytes,
    the table and ten more bytes are fewer than an input of at least 100
    bytes, and is undone by [decompress_huffman]. *)
Lemma compress_huffman_cases (data : list byte) :
  exists out md,
    compress_huffman data = Ok (out, md)
    /\ decompress_huffman out md = Ok data
    /\ match md with
       | Skipped => out = data
       | Applied table padding =>
           100 <= length data
           /\ length out + length table + 10 < length data
       end.
Proof.
  unfold compress_huffman.
  destruct (Nat.ltb_spec (length data) 100) as [Hshort|Hlong].
  { by exists data, Skipped. }
  destruct (huffman_pipeline data)
    as (tree & encoded & packed & padding & table
        & Htree & Henc & Hpack & Hser & Hdec).
  { destruct data; [simpl in Hlong; lia|done]. }
  rewrite Htree. cbn [bind]. cbv zeta.
  rewrite Henc. cbn [bind]. rewrite Hpack. cbn [bind].
  rewrite Hser. cbn [bind].
  destruct (Nat.leb_spec (length data) (length packed + length table + 10)).
  - by exists data, Skipped.
  - exists packed, (Applied table padding). split; [done|].
    split; [done|]. split; [done|lia].
Qed.

End StageProofs.

(** C8. For every buffer (and a window within the 15 bits of the
    encoding) neither stage raises. [compress_lz77] returns either the
    token stream, marked applied, and then the stream is strictly shorter
    than the input and the input has at least 50 bytes, or the input
    itself marked not applied; it applies itself whenever both
    conditions hold. [compress_huffman] returns either the packed digits
    marked applied, and then the packed bytes plus the serialized table
    plus 10 are fewer than the input length and the input has at least
    100 bytes, or the input itself marked not applied. *)
Theorem stages_shrink_or_fall_back (data : list byte)
    (window_size lookahead_buffer_size : nat) :
  Z.of_nat window_size <= 32767 ->
  (exists stream,
      for_each LZ77.emit []
               (LZ77.lz_tokens data window_size lookahead_buffer_size)
      = Ok stream
      /\ LZ77.compress_lz77 data window_size lookahead_buffer_size
         = if (50 <=? length data)%nat && (length stream <? length data)%nat
           then Ok (stream, LZ77.Applied window_size lookahead_buffer_size)
           else Ok (data, LZ77.Skipped))
  /\ (exists out md,
        Huffman.compress_huffman data = Ok (out, md)
        /\ match md with
           | Huffman.Skipped => out = data
           | Huffman.Applied table padding =>
               (100 <= length data)%nat
               /\ (length out + length table + 10 < length data)%nat
           end).
Proof.
  intros Hw. split.
  - destruct (LZ77Proofs.compress_lz77_cases data window_size
                lookahead_buffer_size Hw) as (stream & Hstream & Hc).
    exists stream. split; [done|]. rewrite Hc.
    destruct (Nat.ltb_spec (length data) 50),
      (Nat.leb_spec 50 (length data)); try lia; simpl; [done|].
    by destruct (length stream <? length data)%nat.
  - destruct (StageProofs.compress_huffman_cases data)
      as (out & md & Hc & _ & Hmd).
    by exists out, md.
Qed.

Lemma stages_shrink_or_fall_back_witness :
  (exists stream,
      for_each LZ77.emit [] (LZ77.lz_tokens (replicate 60 x41) 4096 128)
      = Ok stream
      /\ LZ77.compress_lz77 (replicate 60 x41) 4096 128
         = if (50 <=? length (replicate 60 x41))%nat
              && (length stream <? length (replicate 60 x41))%nat
           then Ok (stream, LZ77.Applied 4096 128)
           else Ok (replicate 60 x41, LZ77.Skipped))
  /\ (exists out md,
        Huffman.compress_huffman (replicate 60 x41) = Ok (out, md)
        /\ match md with
           | Huffman.Skipped => out = replicate 60 x41
           | Huffman.Applied table padding =>
               (100 <= length (replicate 60 x41))%nat
               /\ (length out + length table + 10
                   < length (replicate 60 x41))%nat
           end).
Proof. apply (stages_shrink_or_fall_back (replicate 60 x41) 4096 128). lia. Defined.

(** ** The combined codec *)

(** C1. The round trip [combined_decompress(combined_compress(b)) == b]
    does not hold on the code for every buffer: on 62 zero bytes followed
    by one byte [0xFF] the LZ77 stage is applied, its last token carries
    the byte [0xFF] as its literal, the Huffman stage is skipped (18
    bytes), and decompression returns the 62 zero bytes without the last
    byte. *)
Lemma combined_roundtrip_counterexample :
  Huffman.combined_compress (replicate 62 x00 ++ [xff])
  = Ok ([x00; x00; x00; x01; x01; x00; x03; x03; x00; x07; x07; x00;
         x0f; x0f; x00; x1f; x1f; xff],
        {| Huffman.lz77 := LZ77.Applied 4096 128;
           Huffman.huffman := Huffman.Skipped |})
  /\ Huffman.combined_decompress
       [x00; x00; x00; x01; x01; x00; x03; x03; x00; x07; x07; x00;
        x0f; x0f; x00; x1f; x1f; xff]
       {| Huffman.lz77 := LZ77.Applied 4096 128;
          Huffman.huffman := Huffman.Skipped |}
     = Ok (replicate 62 x00)
  /\ Huffman.combined_decompress
       [x00; x00; x00; x01; x01; x00; x03; x03; x00; x07; x07; x00;
        x0f; x0f; x00; x1f; x1f; xff]
       {| Huffman.lz77 := LZ77.Applied 4096 128;
          Huffman.huffman := Huffman.Skipped |}
     <> Ok (replicate 62 x00 ++ [xff]).
Proof.
  split; [vm_compute; reflexivity|].
  split; [vm_compute; reflexivity|].
  vm_compute. discriminate.
Qed.

(** X1. Where the round trip of the combined codec does hold: for every
    byte buffer that is shorter than 50 bytes (so the empty and the
    single-byte buffer), or holds no byte [0xFF] (whatever its length),
    or more generally on which the LZ77 stage either is not applied or
    emits no token whose literal is a genuine byte [0xFF], the combined
    codec compresses without error and decompressing its output with the
    metadata it returned gives the buffer back. *)
Theorem combined_roundtrip (data : list byte) :
  (length data < 50)%nat
  \/ xff ∉ data
  \/ (forall stream,
        LZ77.compress_lz77 data 4096 128
        = Ok (stream, LZ77.Applied 4096 128) ->
        existsb LZ77.genuine_ff (LZ77.lz_tokens data 4096 128) = false) ->
  exists compressed md,
    Huffman.combined_compress data = Ok (compressed, md)
    /\ Huffman.combined_decompress compressed md = Ok data.
Proof.
  intros Hcases.
  destruct (LZ77Proofs.lz77_roundtrip data 4096 128)
    as (stream & lz_md & Hlz & Hunlz).
  { lia. }
  { intros stream Hc.
    destruct Hcases as [Hshort|[Hno|Hff]].
    - unfold LZ77.compress_lz77 in Hc.
      by destruct (Nat.ltb_spec (length data) 50); [|lia].
    - by apply LZ77Proofs.tokens_no_sentinel.
    - specialize (Hff stream Hc).
      apply Forall_forall. intros t Ht.
      destruct (LZ77.genuine_ff t) eqn:Hg; [|done].
      assert (existsb LZ77.genuine_ff (LZ77.lz_tokens data 4096 128) = true)
        as Hex; [|congruence].
      apply existsb_exists. exists t. split; [|done].
      by apply list_elem_of_In. }
  destruct (StageProofs.compress_huffman_cases stream)
    as (out & h_md & Hh & Hunh & _).
  exists out, {| Huffman.lz77 := lz_md; Huffman.huffman := h_md |}.
  unfold Huffman.combined_compress, Huffman.combined_decompress.
  rewrite Hlz. cbn [bind]. rewrite Hh. cbn [bind Huffman.huffman Huffman.lz77].
  split; [done|]. by rewrite Hunh.
Qed.

Lemma combined_roundtrip_witness :
  exists compressed md,
    Huffman.combined_compress (replicate 200 x41) = Ok (compressed, md)
    /\ Huffman.combined_decompress compressed md = Ok (replicate 200 x41).
Proof.
  apply (combined_roundtrip (replicate 200 x41)).
  right. right. intros stream _. vm_compute. reflexivity.
Defined.

(** ** The container reader *)

Module ContainerProofs.
Import Container.

Local Open Scope nat_scope.

(** Reading a field that is wholly there. *)
Lemma read_app (k : Z) (A B : list byte) :
  length A = Z.to_nat k -> read k (A ++ B) = (A, B).
Proof.
  intros Hk. unfold read. rewrite <- Hk.
  by rewrite take_app_length, drop_app_length.
Qed.

(** Reading a field of a stream cut after [n] bytes. *)
Lemma read_cut (k : Z) (A B : list byte) (n : nat) :
  length A = Z.to_nat k ->
  read k (take n (A ++ B))
  = if decide (length A <= n) then (A, take (n - length A) B)
    else (take n A, []).
Proof.
  intros Hk. unfold read. rewrite <- Hk, take_app.
  destruct (decide (length A <= n)) as [Hle|Hgt].
  - rewrite (take_ge A n) by done.
    by rewrite take_app_length, drop_app_length.
  - replace (n - length A) with 0 by lia. rewrite take_0, app_nil_r.
    rewrite take_ge, drop_ge; [done| |]; rewrite length_take; lia.
Qed.

Lemma read_blob_app (p blob B : list byte) :
  length p = 4 -> length blob = Z.to_nat (int_from_bytes_le p) ->
  read_blob (p ++ blob ++ B) = Ok (blob, B).
Proof.
  intros Hp Hblob. unfold read_blob.
  rewrite (read_app 4 p) by done. step.
  unfold unpack_u32. rewrite Hp. change (4 =? 4) with true. step.
  by rewrite read_app.
Qed.

(** With the fields up to the payload prefix complete, the load succeeds
    and the payload is what [read] finds. *)
Lemma load_complete_head (head rest : list byte) (declared : Z)
    (md : metadata) :
  head_declares head declared md ->
  load_compressed_file (head ++ rest)
  = Some (take (Z.to_nat declared) rest, md).
Proof.
  intros (w & h & c & p1 & hdr & p2 & meta & p3 & -> & Hw & Hh & Hc
          & Hp1 & Hhdr & Hp2 & Hmeta & Hp3 & -> & ->).
  unfold load_compressed_file, load_body.
  rewrite <- !app_assoc, (app_assoc w h).
  rewrite (read_app 8 (w ++ h)) by (rewrite length_app, Hw, Hh; done).
  step. unfold unpack_u32_u32. rewrite length_app, Hw, Hh.
  change (4 + 4 =? 8) with true. step.
  rewrite (take_app_length' w h 4), (drop_app_length' w h 4) by done.
  rewrite (read_app 1 c) by done. step.
  unfold unpack_u8. rewrite Hc. change (1 =? 1) with true. step.
  rewrite (read_blob_app p1 hdr) by done. step.
  rewrite (read_blob_app p2 meta) by done. step.
  unfold read_blob. rewrite (read_app 4 p3) by done. step.
  unfold unpack_u32. rewrite Hp3. change (4 =? 4) with true. step.
  done.
Qed.

Lemma read_blob_nil : read_blob [] = Raise StructError.
Proof. reflexivity. Qed.

Lemma unpack_u32_short (buf : list byte) :
  length buf <> 4 -> unpack_u32 buf = Raise StructError.
Proof.
  intros H. unfold unpack_u32.
  by destruct (Nat.eqb_spec (length buf) 4).
Qed.

(** Reading a length-prefixed blob of a stream cut after [n] bytes: an
    error when the prefix is cut, otherwise the bytes of the blob that
    are there. *)
Lemma read_blob_cut (p blob B : list byte) (n : nat) :
  length p = 4 -> length blob = Z.to_nat (int_from_bytes_le p) ->
  read_blob (take n (p ++ blob ++ B))
  = if decide (4 <= n)
    then Ok (if decide (length blob <= n - 4)
             then (blob, take (n - 4 - length blob) B)
             else (take (n - 4) blob, []))
    else Raise StructError.
Proof.
  intros Hp Hblob. unfold read_blob.
  rewrite (read_cut 4 p) by done. rewrite Hp.
  destruct (decide (4 <= n)) as [Hn|Hn]; step.
  - unfold unpack_u32. rewrite Hp. change (4 =? 4) with true. step.
    by rewrite (read_cut _ blob B (n - 4) Hblob).
  - rewrite unpack_u32_short; [done|]. rewrite length_take. lia.
Qed.

(** A stream cut before the end of the payload prefix does not load. *)
Lemma load_cut_head (head : list byte) (declared : Z) (md : metadata)
    (n : nat) :
  head_declares head declared md ->
  n < length head ->
  load_compressed_file (take n head) = None.
Proof.
  intros (w & h & c & p1 & hdr & p2 & meta & p3 & -> & Hw & Hh & Hc
          & Hp1 & Hhdr & Hp2 & Hmeta & Hp3 & -> & ->) Hn.
  rewrite !length_app in Hn.
  unfold load_compressed_file, load_body.
  rewrite (app_assoc w h).
  rewrite (read_cut 8 (w ++ h)) by (rewrite length_app, Hw, Hh; done).
  rewrite length_app, Hw, Hh. change (4 + 4) with 8.
  destruct (decide (8 <= n)) as [H8|H8]; step.
  2:{ unfold unpack_u32_u32. rewrite length_take, length_app, Hw, Hh.
      by destruct (Nat.eqb_spec (Nat.min n (4 + 4)) 8); [lia|]. }
  unfold unpack_u32_u32. rewrite length_app, Hw, Hh.
  change (4 + 4 =? 8) with true. step.
  rewrite (read_cut 1 c) by done. rewrite Hc.
  destruct (decide (1 <= n - 8)) as [H1|H1]; step.
  2:{ unfold unpack_u8. rewrite length_take, Hc.
      by destruct (Nat.eqb_spec (Nat.min (n - 8) 1) 1); [lia|]. }
  unfold unpack_u8. rewrite Hc. change (1 =? 1) with true. step.
  rewrite (read_blob_cut p1 hdr) by done.
  destruct (decide (4 <= n - 8 - 1)) as [Hq1|Hq1]; step; [|done].
  destruct (decide (length hdr <= n - 8 - 1 - 4)) as [Hb1|Hb1]; step;
    [|by rewrite read_blob_nil].
  rewrite (read_blob_cut p2 meta) by done.
  destruct (decide (4 <= n - 8 - 1 - 4 - length hdr)) as [Hq2|Hq2]; step;
    [|done].
  destruct (decide (length meta <= n - 8 - 1 - 4 - length hdr - 4))
    as [Hb2|Hb2]; step; [|by rewrite read_blob_nil].
  unfold read_blob. unfold read at 1. step.
  rewrite unpack_u32_short; [done|].
  rewrite !length_take. lia.
Qed.

End ContainerProofs.

(** C3, as stated, fails: the [payload_length] prefix below declares five
    bytes, two remain, and the load returns a record with the two bytes
    as its payload. *)
Lemma short_payload_counterexample :
  Container.head_declares
    [x01; x00; x00; x00; x02; x00; x00; x00; x03;
     x00; x00; x00; x00; x00; x00; x00; x00; x05; x00; x00; x00]
    5
    {| Container.width := 1; Container.height := 2; Container.channels := 3;
       Container.header_data := []; Container.encoding_metadata := [] |}
  /\ Container.load_compressed_file
       ([x01; x00; x00; x00; x02; x00; x00; x00; x03;
         x00; x00; x00; x00; x00; x00; x00; x00; x05; x00; x00; x00]
        ++ [x41; x42])
     = Some ([x41; x42],
             {| Container.width := 1; Container.height := 2;
                Container.channels := 3;
                Container.header_data := [];
                Container.encoding_metadata := [] |})
  /\ ~ Container.rejects_short_payload.
Proof.
  assert (Container.head_declares
            [x01; x00; x00; x00; x02; x00; x00; x00; x03;
             x00; x00; x00; x00; x00; x00; x00; x00; x05; x00; x00; x00]
            5
            {| Container.width := 1; Container.height := 2;
               Container.channels := 3;
               Container.header_data := [];
               Container.encoding_metadata := [] |}) as Hhead.
  { exists [x01; x00; x00; x00], [x02; x00; x00; x00], [x03],
      [x00; x00; x00; x00], [], [x00; x00; x00; x00], [],
      [x05; x00; x00; x00].
    repeat split. }
  split; [done|]. split; [reflexivity|].
  intros H. specialize (H _ _ _ [x41; x42] Hhead ltac:(simpl; lia)).
  discriminate H.
Qed.

(** C3, amended. For every stream that holds the fields up to the
    [payload_length] prefix: cut anywhere before the end of that prefix
    it does not load, the result being [(None, None)] through the caught
    [struct.error], not a structured error; followed by any bytes, it
    loads, and the payload returned is the first [payload_length] of
    these bytes, or all of them when they are fewer: a shortened payload
    is returned without error. No read is out of bounds. *)
Theorem load_compressed_file_truncation (head : list byte) (declared : Z)
    (md : Container.metadata) :
  Container.head_declares head declared md ->
  (forall n, (n < length head)%nat ->
             Container.load_compressed_file (take n head) = None)
  /\ (forall rest,
        Container.load_compressed_file (head ++ rest)
        = Some (take (Z.to_nat declared) rest, md))
  /\ (forall rest,
        Z.of_nat (length rest) < declared ->
        Container.load_compressed_file (head ++ rest) = Some (rest, md)).
Proof.
  intros Hhead. split; [|split].
  - intros n Hn. by apply (ContainerProofs.load_cut_head head declared md).
  - intros rest. by apply ContainerProofs.load_complete_head.
  - intros rest Hshort.
    rewrite (ContainerProofs.load_complete_head head rest declared md Hhead).
    by rewrite take_ge by lia.
Qed.

Lemma load_compressed_file_truncation_witness :
  (forall n,
      (n < length [x01; x00; x00; x00; x02; x00; x00; x00; x03;
                   x00; x00; x00; x00; x00; x00; x00; x00;
                   x05; x00; x00; x00])%nat ->
      Container.load_compressed_file
        (take n [x01; x00; x00; x00; x02; x00; x00; x00; x03;
                 x00; x00; x00; x00; x00; x00; x00; x00;
                 x05; x00; x00; x00]) = None)
  /\ (forall rest,
        Container.load_compressed_file
          ([x01; x00; x00; x00; x02; x00; x00; x00; x03;
            x00; x00; x00; x00; x00; x00; x00; x00; x05; x00; x00; x00]
           ++ rest)
        = Some (take (Z.to_nat 5) rest,
                {| Container.width := 1; Container.height := 2;
                   Container.channels := 3;
                   Container.header_data := [];
                   Container.encoding_metadata := [] |}))
  /\ (forall rest,
        Z.of_nat (length rest) < 5 ->
        Container.load_compressed_file
          ([x01; x00; x00; x00; x02; x00; x00; x00; x03;
            x00; x00; x00; x00; x00; x00; x00; x00; x05; x00; x00; x00]
           ++ rest)
        = Some (rest,
                {| Container.width := 1; Container.height := 2;
                   Container.channels := 3;
                   Container.header_data := [];
                   Container.encoding_metadata := [] |})).
Proof.
  apply (load_compressed_file_truncation
           [x01; x00; x00; x00; x02; x00; x00; x00; x03;
            x00; x00; x00; x00; x00; x00; x00; x00; x05; x00; x00; x00]).
  exists [x01; x00; x00; x00], [x02; x00; x00; x00], [x03],
    [x00; x00; x00; x00], [], [x00; x00; x00; x00], [],
    [x05; x00; x00; x00].
  repeat split.
Defined.

(** * Further properties of the codec *)

(** ** What a match is *)

(** X2. Inside the data, the match [find_longest_match] returns is a
    genuine repetition: the [length] bytes that start [offset] bytes
    back are the bytes at the current position, one by one; the match
    fits the lookahead, the offset fits the window and the position, the
    match ends inside the data; and [next_char] is the byte that follows
    the match, or [None] when the match ends at the end of the data. *)
Theorem find_longest_match_is_repetition (data : list byte)
    (current_pos window_size lookahead_buffer_size : nat)
    (offset len : nat) (next_char : option byte) :
  (current_pos < length data)%nat ->
  LZ77.find_longest_match data current_pos window_size lookahead_buffer_size
  = (offset, len, next_char) ->
  (len <= lookahead_buffer_size)%nat
  /\ (offset <= window_size)%nat
  /\ (offset <= current_pos)%nat
  /\ (current_pos + len <= length data)%nat
  /\ (forall k, (k < len)%nat ->
        data !! (current_pos - offset + k)%nat = data !! (current_pos + k)%nat)
  /\ next_char = data !! (current_pos + len)%nat
  /\ (next_char = None <-> (current_pos + len)%nat = length data).
Proof.
  intros Hpos Hfind.
  destruct (FinderProofs.find_longest_match_spec _ _ _ _ _ _ _ Hpos Hfind)
    as (Hnext & Hend & Hla & Hmatch).
  assert ((offset <= window_size)%nat /\ (offset <= current_pos)%nat
          /\ forall k, (k < len)%nat ->
               data !! (current_pos - offset + k)%nat
               = data !! (current_pos + k)%nat) as (Hw & Hp & Hrun).
  { destruct Hmatch as [[-> ->]|(_ & _ & Hp & Hw & Hrun)].
    - repeat split; lia.
    - done. }
  repeat split; try done.
  - rewrite Hnext. intros Hnone. apply lookup_ge_None in Hnone. lia.
  - rewrite Hnext. intros Hlen. apply lookup_ge_None. lia.
Qed.

Lemma find_longest_match_is_repetition_witness :
  (2 <= 10)%nat
  /\ (2 <= 10)%nat
  /\ (2 <= 2)%nat
  /\ (2 + 2 <= length [x41; x42; x41; x42; x43])%nat
  /\ (forall k, (k < 2)%nat ->
        [x41; x42; x41; x42; x43] !! (2 - 2 + k)%nat
        = [x41; x42; x41; x42; x43] !! (2 + k)%nat)
  /\ Some x43 = [x41; x42; x41; x42; x43] !! (2 + 2)%nat
  /\ (Some x43 = None
      <-> (2 + 2)%nat = length [x41; x42; x41; x42; x43]).
Proof.
  apply (find_longest_match_is_repetition
           [x41; x42; x41; x42; x43] 2 10 10 2 2 (Some x43)).
  - simpl. lia.
  - reflexivity.
Defined.

(** ** Values outside the 15 bits of the variable-length encoding *)

Module VarintRangeProofs.
Import LZ77.

Lemma byte_of_int_out_of_range (z : Z) :
  z < 0 \/ 256 <= z -> byte_of_int z = Raise ValueError.
Proof.
  intros Hz. unfold byte_of_int.
  destruct (Z.ltb_spec z 0) as [|Hnn]; [done|].
  destruct (Byte.of_N (Z.to_N z)) as [b|] eqn:Hb; [|done].
  pose proof (Byte.to_N_bounded b). apply Byte.to_of_N in Hb. lia.
Qed.

Lemma encode_field_out_of_range (buf : list byte) (v : Z) :
  v < 0 \/ 65536 <= v -> encode_field buf v = Raise ValueError.
Proof.
  intros Hv. unfold encode_field.
  destruct (Z.ltb_spec v 128) as [Hsmall|Hlarge].
  - unfold append. rewrite byte_of_int_out_of_range; [done|lia].
  - cbn [extend]. unfold append at 1.
    rewrite byte_of_int_out_of_range; [done|]. right.
    assert (256 <= Z.shiftr v 8) as Hhi.
    { rewrite Z.shiftr_div_pow2 by lia. change (2 ^ 8) with 256.
      apply Z.div_le_lower_bound; lia. }
    pose proof (Z.sub_lor_l_same_l 128 (Z.shiftr v 8)) as Hsub.
    assert (0 <= Z.land 128 (Z.lnot (Z.shiftr v 8))) as Hnn.
    { apply Z.land_nonneg. left. lia. }
    lia.
Qed.

(** A value of 32768..65535 is written on two bytes whose first byte
    already has its top bit set; the decoder masks that bit away. *)
Lemma encode_field_wrapped (buf : list byte) (v : Z) :
  0 <= v < 65536 ->
  exists enc,
    encode_field buf v = Ok (buf ++ enc)
    /\ forall pre suf,
        decode_field (pre ++ enc ++ suf) (length pre)
        = Ok (v mod 32768, (length pre + length enc)%nat).
Proof.
  intros Hv. destruct (Z.le_gt_cases v 32767) as [Hlow|Hhigh].
  - destruct (VarintProofs.encode_field_spec buf v) as (enc & He & _ & Hd);
      [lia|].
    exists enc. split; [done|]. intros pre suf.
    rewrite Z.mod_small by lia. apply Hd.
  - unfold encode_field. destruct (Z.ltb_spec v 128) as [|_]; [lia|].
    assert (128 <= v / 256 < 256) as Hq.
    { split; [apply Z.div_le_lower_bound; lia
             |apply Z.div_lt_upper_bound; lia]. }
    assert (Z.lor (Z.shiftr v 8) 128 = v / 256) as Hh.
    { rewrite Z.shiftr_div_pow2 by lia. change (2 ^ 8) with 256.
      pose proof (lor_shifted_low 1 (v / 256 - 128) 7) as Hlow.
      change (1 * 2 ^ 7) with 128 in Hlow.
      replace (v / 256) with (128 + (v / 256 - 128)) at 1 by lia.
      rewrite <- Hlow by lia.
      rewrite (Z.lor_comm (Z.lor _ _) 128), Z.lor_assoc, Z.lor_diag, Hlow; lia. }
    pose proof (low_byte_value v) as Hl.
    assert (0 <= v mod 256 < 256) as Hlr by (apply Z.mod_pos_bound; lia).
    destruct (byte_of_int_Ok (Z.lor (Z.shiftr v 8) 128)) as (h & Hhb & Hhv);
      [lia|].
    destruct (byte_of_int_Ok (Z.land v 255)) as (l & Hlb & Hlv); [lia|].
    exists [h; l]. simpl. unfold append. rewrite Hhb. simpl. rewrite Hlb. simpl.
    rewrite <- app_assoc. simpl. split; [done|]. intros pre suf.
    unfold decode_field. simpl. rewrite index_app_here. simpl.
    rewrite Hhv. destruct (Z.ltb_spec (Z.lor (Z.shiftr v 8) 128) 128); [lia|].
    rewrite index_app_r. simpl. rewrite Hlv, two_byte_value by lia.
    do 2 f_equal. rewrite Hh, Hl.
    pose proof (Z.div_mod v 256).
    apply Z.mod_unique with 1; lia.
Qed.

End VarintRangeProofs.

(** X3. [variable_length_encode] raises [ValueError] when the offset or
    the length is negative or at least 65536. Every other pair is
    encoded without error, also a value of 32768..65535, which the
    two-byte form cannot hold: [variable_length_decode] reads back each
    value modulo 32768, so such a value comes back 32768 too small. *)
Theorem variable_length_encode_range (offset length : Z) :
  (offset < 0 \/ 65536 <= offset \/ length < 0 \/ 65536 <= length ->
   LZ77.variable_length_encode offset length = Raise ValueError)
  /\ (0 <= offset < 65536 -> 0 <= length < 65536 ->
      exists enc,
        LZ77.variable_length_encode offset length = Ok enc
        /\ forall pre suf,
            LZ77.variable_length_decode (pre ++ enc ++ suf) (List.length pre)
            = Ok (offset mod 32768, length mod 32768,
                  (List.length pre + List.length enc)%nat)).
Proof.
  split.
  - intros Hout. unfold LZ77.variable_length_encode.
    destruct (Z.lt_ge_cases offset 0) as [Ho|Ho];
      [by rewrite VarintRangeProofs.encode_field_out_of_range by lia|].
    destruct (Z.le_gt_cases 65536 offset) as [Ho'|Ho'];
      [by rewrite VarintRangeProofs.encode_field_out_of_range by lia|].
    destruct (VarintRangeProofs.encode_field_wrapped [] offset)
      as (e1 & -> & _); [lia|].
    cbn [bind]. by rewrite VarintRangeProofs.encode_field_out_of_range by lia.
  - intros Ho Hl. unfold LZ77.variable_length_encode.
    destruct (VarintRangeProofs.encode_field_wrapped [] offset Ho)
      as (e1 & He1 & Hd1).
    rewrite He1. simpl.
    destruct (VarintRangeProofs.encode_field_wrapped e1 length Hl)
      as (e2 & He2 & Hd2).
    rewrite He2. simpl.
    exists (e1 ++ e2). split; [done|].
    intros pre suf. unfold LZ77.variable_length_decode.
    rewrite <- (app_assoc e1 e2 suf), Hd1. simpl.
    rewrite (app_assoc pre e1 (e2 ++ suf)), <- (length_app pre e1), Hd2. simpl.
    by rewrite !length_app, Nat.add_assoc.
Qed.

Lemma variable_length_encode_range_witness :
  LZ77.variable_length_encode 70000 3 = Raise ValueError
  /\ exists enc,
      LZ77.variable_length_encode 40000 3 = Ok enc
      /\ forall pre suf,
          LZ77.variable_length_decode (pre ++ enc ++ suf) (List.length pre)
          = Ok (40000 mod 32768, 3 mod 32768,
                (List.length pre + List.length enc)%nat).
Proof.
  split.
  - apply (proj1 (variable_length_encode_range 70000 3)). lia.
  - apply (proj2 (variable_length_encode_range 40000 3)); lia.
Defined.

(** ** Each stage alone *)

(** X4. The LZ77 stage alone, for any lookahead and any window within
    the 15 bits of the encoding: when the buffer holds no byte [0xFF],
    or no token of its parse has a genuine byte [0xFF] as literal,
    [compress_lz77] returns without error and [decompress_lz77] of its
    output with the metadata it returned is the buffer. *)
Theorem lz77_stage_roundtrip (data : list byte)
    (window_size lookahead_buffer_size : nat) :
  Z.of_nat window_size <= 32767 ->
  LZ77.sentinel ∉ data
  \/ existsb LZ77.genuine_ff
       (LZ77.lz_tokens data window_size lookahead_buffer_size) = false ->
  exists stream md,
    LZ77.compress_lz77 data window_size lookahead_buffer_size
    = Ok (stream, md)
    /\ LZ77.decompress_lz77 stream md = Ok data.
Proof.
  intros Hw Hff. apply LZ77Proofs.lz77_roundtrip; [done|].
  intros _ _. destruct Hff as [Hno|Hnone].
  - by apply LZ77Proofs.tokens_no_sentinel.
  - apply Forall_forall. intros t Ht.
    destruct (LZ77.genuine_ff t) eqn:Hg; [|done].
    assert (existsb LZ77.genuine_ff
              (LZ77.lz_tokens data window_size lookahead_buffer_size) = true)
      as Hex; [|congruence].
    apply existsb_exists. exists t. split; [|done].
    by apply list_elem_of_In.
Qed.

Lemma lz77_stage_roundtrip_witness :
  exists stream md,
    LZ77.compress_lz77 (replicate 64 x41) 16 8 = Ok (stream, md)
    /\ LZ77.decompress_lz77 stream md = Ok (replicate 64 x41).
Proof.
  apply (lz77_stage_roundtrip (replicate 64 x41) 16 8).
  - lia.
  - right. vm_compute. reflexivity.
Defined.

(** X5. The Huffman stage alone loses nothing, whatever the buffer (the
    byte [0xFF] included): [compress_huffman] returns without error and
    [decompress_huffman] of its output with the metadata it returned is
    the buffer. *)
Theorem huffman_stage_roundtrip (data : list byte) :
  exists out md,
    Huffman.compress_huffman data = Ok (out, md)
    /\ Huffman.decompress_huffman out md = Ok data.
Proof.
  destruct (StageProofs.compress_huffman_cases data)
    as (out & md & Hc & Hd & _).
  by exists out, md.
Qed.

(** X6. Packing a string of binary digits and unpacking it: for every
    string of ['0'] and ['1'], [efficient_binary_string_to_bytes]
    returns [ceil(len/8)] bytes and a padding below 8 that completes the
    length to a multiple of 8, and [efficient_bytes_to_binary_string] of
    the two is the string. *)
Theorem binary_string_packing_roundtrip (binary_string : str) :
  Forall Huffman.is_bit binary_string ->
  exists packed padding,
    Huffman.efficient_binary_string_to_bytes binary_string
    = Ok (packed, padding)
    /\ (padding < 8)%nat
    /\ (8 * length packed = length binary_string + padding)%nat
    /\ length packed = ((length binary_string + 7) / 8)%nat
    /\ Huffman.efficient_bytes_to_binary_string packed padding
       = binary_string.
Proof.
  intros Hbits.
  destruct (CodingProofs.binary_string_roundtrip binary_string Hbits)
    as (packed & padding & Hpack & Hunpack).
  exists packed, padding. split; [done|].
  assert (padding = if (length binary_string mod 8 =? 0)%nat then O
                    else (8 - length binary_string mod 8)%nat) as Hp.
  { unfold Huffman.efficient_binary_string_to_bytes in Hpack.
    destruct (for_each _ _ _) as [bs|e]; [|done].
    cbn [bind] in Hpack. congruence. }
  pose proof (Nat.div_mod (length binary_string) 8 ltac:(lia)) as Hdm.
  pose proof (Nat.mod_upper_bound (length binary_string) 8 ltac:(lia)) as Hm.
  assert (padding < 8)%nat as Hlt.
  { rewrite Hp. destruct (Nat.eqb_spec (length binary_string mod 8) 0); lia. }
  assert (length (concat (map Huffman.format_08b packed))
          = (8 * length packed)%nat) as Hlen.
  { clear. induction packed as [|b packed IH]; [done|].
    cbn [map concat]. rewrite length_app, IH.
    unfold Huffman.format_08b. rewrite length_map, length_seq.
    cbn [length]. lia. }
  assert (8 * length packed = length binary_string + padding)%nat as Hsize.
  { unfold Huffman.efficient_bytes_to_binary_string in Hunpack.
    cbv zeta in Hunpack.
    destruct (Nat.eqb_spec padding 0) as [Hz|Hnz].
    - rewrite <- Hunpack at 1. rewrite Hlen. lia.
    - assert (length binary_string
              = length (take (length (concat (map Huffman.format_08b packed))
                              - padding)
                          (concat (map Huffman.format_08b packed)))) as Hl
        by (by rewrite Hunpack).
      rewrite length_take, Hlen in Hl.
      destruct (Nat.eqb_spec (length binary_string mod 8) 0); lia. }
  repeat split; try done.
  apply (Nat.div_unique _ 8 _ (7 - padding)); lia.
Qed.

Lemma binary_string_packing_roundtrip_witness :
  exists packed padding,
    Huffman.efficient_binary_string_to_bytes
      ["1"; "0"; "1"; "1"; "0"; "0"; "0"; "1"; "1"; "1"]%char
    = Ok (packed, padding)
    /\ (padding < 8)%nat
    /\ (8 * length packed
        = length ["1"; "0"; "1"; "1"; "0"; "0"; "0"; "1"; "1"; "1"]%char
          + padding)%nat
    /\ length packed
       = ((length ["1"; "0"; "1"; "1"; "0"; "0"; "0"; "1"; "1"; "1"]%char
           + 7) / 8)%nat
    /\ Huffman.efficient_bytes_to_binary_string packed padding
       = ["1"; "0"; "1"; "1"; "0"; "0"; "0"; "1"; "1"; "1"]%char.
Proof.
  apply (binary_string_packing_roundtrip
           ["1"; "0"; "1"; "1"; "0"; "0"; "0"; "1"; "1"; "1"]%char).
  repeat (constructor; [(by left) || (by right)|]). constructor.
Defined.

(** ** The frequency table and the shape of the code table *)

Module CountProofs.
Import Huffman.

Local Open Scope nat_scope.

Lemma dict_get_set {V} (d : list (byte * V)) (k k' : byte) (v : V) :
  dict_get k (dict_set k' v d)
  = if decide (k' = k) then Some v else dict_get k d.
Proof.
  induction d as [|[k0 v0] d IH]; cbn [dict_set dict_get].
  - done.
  - destruct (decide (k0 = k')) as [->|Hne]; cbn [dict_get].
    + by destruct (decide (k' = k)).
    + destruct (decide (k0 = k)) as [->|Hk].
      * by destruct (decide (k' = k)); [congruence|].
      * done.
Qed.

Lemma dict_set_increment_sum (d : list (byte * nat)) (k : byte) :
  sum_list (dict_set k (S (default 0 (dict_get k d))) d).*2
  = S (sum_list d.*2).
Proof.
  induction d as [|[k0 v0] d IH]; cbn [dict_set dict_get]; csimpl.
  - done.
  - destruct (decide (k0 = k)) as [->|Hne]; csimpl; [done|].
    rewrite IH. lia.
Qed.

Lemma frequency_table_counts (data : list byte) (acc : list (byte * nat))
    (b : byte) :
  let table :=
    foldl (fun table b => dict_set b (S (default O (dict_get b table))) table)
          acc data in
  default 0 (dict_get b table)
  = default 0 (dict_get b acc) + count_occ byte_eq_dec data b
  /\ sum_list table.*2 = sum_list acc.*2 + length data.
Proof.
  revert acc. induction data as [|x data IH]; intros acc; cbn [foldl].
  - cbn [count_occ length]. lia.
  - cbn zeta in IH |- *.
    destruct (IH (dict_set x (S (default 0 (dict_get x acc))) acc))
      as [-> ->].
    rewrite dict_get_set, dict_set_increment_sum. cbn [count_occ length].
    destruct (decide (x = b)) as [->|Hne].
    + destruct (byte_eq_dec b b); [|done]. simpl. lia.
    + destruct (byte_eq_dec x b); [done|]. lia.
Qed.

(** The codes of a table of two symbols or more are shorter than the
    number of symbols. *)
Lemma build_huffman_tree_depth (freq_table : list (byte * nat)) :
  2 <= length freq_table ->
  exists tree,
    build_huffman_tree freq_table = Ok tree
    /\ Forall (fun p => length p.2 < length tree.2) tree.2.
Proof.
  intros Hmany. unfold build_huffman_tree.
  set (heap := map (fun item : byte * nat => (item.2, [(item.1, [])]))
                   freq_table).
  assert (length heap = length freq_table) as Hlen
      by (unfold heap; by rewrite length_map).
  destruct (Nat.eqb_spec (length heap) 1) as [|_]; [lia|].
  assert (Forall entry_ok heap) as Hok.
  { apply Forall_forall. intros n Hn.
    apply list_elem_of_fmap in Hn as ([symbol weight] & -> & _).
    unfold entry_ok. simpl. split; [done|]. split.
    { intros p q Hp Hq Hsym.
      apply list_elem_of_singleton in Hp, Hq. by subst. }
    split; [left; by exists symbol|].
    apply Forall_singleton. simpl. split; [lia|done]. }
  destruct (TreeProofs.merge_loop_spec (length heap) heap) as
    (root & -> & (_ & _ & _ & Hr_len) & _).
  { intros Hnil. rewrite Hnil in Hlen. simpl in Hlen. lia. }
  { apply Nat.le_succ_diag_r. }
  { done. }
  exists root. simpl. split; [done|].
  eapply Forall_impl; [apply Hr_len|]. by intros p [Hp _].
Qed.

End CountProofs.

(** X7. [build_frequency_table] counts: the entry of a byte is the
    number of its occurrences in the buffer, a byte has no entry exactly
    when it does not occur, no byte has two entries, and the counts add
    up to the length of the buffer. *)
Theorem build_frequency_table_counts (data : list byte) :
  let table := Huffman.build_frequency_table data in
  (forall b,
      dict_get b table
      = if decide (b ∈ data) then Some (count_occ byte_eq_dec data b)
        else None)
  /\ NoDup table.*1
  /\ sum_list table.*2 = length data.
Proof.
  cbn zeta. split; [|split].
  - intros b.
    destruct (CountProofs.frequency_table_counts data [] b) as [Hcount _].
    cbn zeta in Hcount. fold (Huffman.build_frequency_table data) in Hcount.
    cbn [dict_get] in Hcount.
    destruct (TreeProofs.build_frequency_table_keys data) as [_ Hkeys].
    destruct (decide (b ∈ data)) as [Hin|Hout].
    + destruct (dict_get b (Huffman.build_frequency_table data)) as [n|]
        eqn:Hget.
      * simpl in Hcount. by rewrite Hcount.
      * apply DictProofs.dict_get_None in Hget. by apply Hkeys in Hin.
    + apply DictProofs.dict_get_None. by rewrite Hkeys.
  - apply TreeProofs.build_frequency_table_keys.
  - destruct (CountProofs.frequency_table_counts data [] x00) as [_ Hsum].
    cbn zeta in Hsum. by fold (Huffman.build_frequency_table data) in Hsum.
Qed.

(** X8. The code table of a non-empty buffer holds exactly the bytes
    that occur in the buffer, each once, so at most 256 symbols; with
    two distinct bytes or more every code has fewer digits than the
    table has symbols (and one digit when the buffer holds one distinct
    byte), hence at most 255 digits, which the one-byte length field of
    the serialized table can hold. *)
Theorem huffman_code_table_shape (data : list byte) :
  data <> [] ->
  exists tree,
    Huffman.build_huffman_tree (Huffman.build_frequency_table data) = Ok tree
    /\ let codes := Huffman.build_huffman_codes tree in
       NoDup codes.*1
       /\ (forall b, b ∈ codes.*1 <-> b ∈ data)
       /\ (length codes <= 256)%nat
       /\ Forall (fun p => (1 <= length p.2)%nat
                           /\ (length p.2 <= Nat.max 1 (length codes - 1))%nat
                           /\ (length p.2 <= 255)%nat)
                 codes.
Proof.
  intros Hne.
  destruct (TreeProofs.build_frequency_table_keys data) as [Hnd Hkeys].
  assert (Huffman.build_frequency_table data <> []) as Hne'.
  { destruct data as [|b data]; [done|].
    intros Hnil.
    assert (b ∈ (Huffman.build_frequency_table (b :: data)).*1) as Hb
      by (apply Hkeys, list_elem_of_here).
    rewrite Hnil in Hb. by apply elem_of_nil in Hb. }
  destruct (TreeProofs.build_huffman_tree_spec _ Hne' Hnd)
    as (tree & Htree & Hcodes & Hnd_t & Hperm & _ & Hlen & Hsingle).
  exists tree. split; [done|]. cbn zeta. rewrite Hcodes.
  assert (length tree.2 = length (Huffman.build_frequency_table data))
    as Hcount.
  { rewrite <- (length_fmap fst tree.2),
      <- (length_fmap fst (Huffman.build_frequency_table data)).
    by apply Permutation_length. }
  split; [done|]. split.
  { intros b. rewrite <- Hkeys. by rewrite Hperm. }
  split.
  { rewrite <- (length_fmap fst tree.2).
    by apply TreeProofs.byte_NoDup_length. }
  destruct (Nat.le_gt_cases 2 (length (Huffman.build_frequency_table data)))
    as [Hmany|Hone].
  - destruct (CountProofs.build_huffman_tree_depth _ Hmany)
      as (tree' & Htree' & Hdepth).
    assert (tree' = tree) as -> by congruence.
    rewrite Forall_forall in Hlen, Hdepth |- *. intros p Hp.
    destruct (Hlen p Hp) as (Hp1 & Hp2 & _). specialize (Hdepth p Hp).
    destruct p as [s [|c code]]; [done|]. cbn [snd length] in *. lia.
  - destruct (Huffman.build_frequency_table data) as [|[s w] [|item rest]];
      [done| |simpl in Hone; lia].
    rewrite (Hsingle s w eq_refl). apply Forall_singleton. simpl. lia.
Qed.

Lemma huffman_code_table_shape_witness :
  exists tree,
    Huffman.build_huffman_tree
      (Huffman.build_frequency_table [x41; x42; x41; x43]) = Ok tree
    /\ let codes := Huffman.build_huffman_codes tree in
       NoDup codes.*1
       /\ (forall b, b ∈ codes.*1 <-> b ∈ [x41; x42; x41; x43])
       /\ (length codes <= 256)%nat
       /\ Forall (fun p => (1 <= length p.2)%nat
                           /\ (length p.2 <= Nat.max 1 (length codes - 1))%nat
                           /\ (length p.2 <= 255)%nat)
                 codes.
Proof.
  apply (huffman_code_table_shape [x41; x42; x41; x43]). discriminate.
Defined.

(** ** The serialized table inside a longer buffer *)

(** X9. The serialized code table carries its own size: for a table of
    distinct symbols whose codes are binary digits, at most 255 of them
    (the empty code included), [serialize_tree] gives 2 bytes plus, per
    symbol, 2 bytes and [ceil(len(code)/8)] bytes, and
    [deserialize_tree] reads the table back from these bytes whatever
    bytes follow them. *)
Theorem deserialize_tree_ignores_trailing_bytes (codes : list (byte * str))
    (extra : list byte) :
  NoDup codes.*1 ->
  Forall (fun p => (length p.2 <= 255)%nat /\ Forall Huffman.is_bit p.2)
         codes ->
  exists table,
    Huffman.serialize_tree codes = Ok table
    /\ length table
       = (2 + list_sum (map (fun p => 2 + (length p.2 + 7) / 8) codes))%nat
    /\ Huffman.deserialize_tree (table ++ extra) = Ok codes.
Proof.
  intros Hnd Hok.
  assert (length codes <= 256)%nat as Hcount.
  { rewrite <- (length_fmap fst codes). by apply TreeProofs.byte_NoDup_length. }
  exists (Huffman.table_bytes codes). split; [|split].
  - apply TableProofs.serialize_tree_spec; [done|].
    eapply Forall_impl; [apply Hok|]. by intros p [Hp _].
  - unfold Huffman.table_bytes. rewrite length_app, length_concat, map_map.
    cbn [length]. do 2 f_equal. apply map_ext. intros p.
    apply TableProofs.length_entry_bytes.
  - unfold Huffman.deserialize_tree, Huffman.table_bytes.
    set (n := Z.of_nat (length codes)).
    assert (0 <= n <= 256) as Hn by lia.
    assert (0 <= n mod 256 < 256) as Hlo by (apply Z.mod_pos_bound; lia).
    assert (0 <= n / 256 < 256) as Hhi.
    { split; [apply Z.div_pos; lia|apply Z.div_lt_upper_bound; lia]. }
    cbn [app take int_from_bytes_le foldr].
    destruct (byte_of_int_byte_of_Z _ Hlo) as [_ ->].
    destruct (byte_of_int_byte_of_Z _ Hhi) as [_ ->].
    rewrite take_0. cbn [foldr].
    replace (Z.to_nat (n mod 256 + 256 * (n / 256 + 256 * 0)))
      with (length codes).
    2:{ pose proof (Z.div_mod n 256 ltac:(lia)). lia. }
    pose proof (TableProofs.deserialize_entries_spec codes
                  [byte_of_Z (n mod 256); byte_of_Z (n / 256)] extra [] 0 Hok)
      as Hloop.
    cbn [app length] in Hloop.
    rewrite Hloop. simpl. by rewrite (DictProofs.dict_fill codes []).
Qed.

Lemma deserialize_tree_ignores_trailing_bytes_witness :
  exists table,
    Huffman.serialize_tree [(x41, ["0"]%char); (x42, ["1"; "0"]%char)]
    = Ok table
    /\ length table
       = (2 + list_sum (map (fun p : byte * str => 2 + (length p.2 + 7) / 8)
                            [(x41, ["0"]%char); (x42, ["1"; "0"]%char)]))%nat
    /\ Huffman.deserialize_tree (table ++ [xff; x00])
       = Ok [(x41, ["0"]%char); (x42, ["1"; "0"]%char)].
Proof.
  apply (deserialize_tree_ignores_trailing_bytes
           [(x41, ["0"]%char); (x42, ["1"; "0"]%char)] [xff; x00]).
  - apply NoDup_cons. split; [|apply NoDup_singleton].
    intros Hin. apply list_elem_of_singleton in Hin. discriminate.
  - repeat (constructor; [split; [simpl; lia|]|]);
      repeat (constructor; [(by left) || (by right)|]); constructor.
Defined.

(** ** The combined codec never fails and never expands *)

(** X10. [combined_compress] returns without error on every buffer, and
    what it returns is either the buffer itself, with both stages marked
    not applied, or strictly fewer bytes than the buffer. *)
Theorem combined_compress_never_expands (data : list byte) :
  exists compressed md,
    Huffman.combined_compress data = Ok (compressed, md)
    /\ ((compressed = data
         /\ md = {| Huffman.lz77 := LZ77.Skipped;
                    Huffman.huffman := Huffman.Skipped |})
        \/ (length compressed < length data)%nat).
Proof.
  destruct (LZ77Proofs.compress_lz77_cases data 4096 128)
    as (stream & _ & Hlz); [lia|].
  unfold Huffman.combined_compress. rewrite Hlz.
  destruct ((length data <? 50)%nat || negb (length stream <? length data)%nat)
    eqn:Hskip; cbn [bind].
  - destruct (StageProofs.compress_huffman_cases data)
      as (out & h_md & -> & _ & Hsize).
    cbn [bind]. eexists _, _. split; [done|].
    destruct h_md as [|table padding].
    + left. by subst.
    + right. lia.
  - apply orb_false_iff in Hskip as [_ Hshort].
    apply negb_false_iff, Nat.ltb_lt in Hshort.
    destruct (StageProofs.compress_huffman_cases stream)
      as (out & h_md & -> & _ & Hsize).
    cbn [bind]. eexists _, _. split; [done|]. right.
    destruct h_md as [|table padding]; [subst; lia|lia].
Qed.

(** ** Copies that overlap their own output *)

Module CopyProofs.
Import LZ77.

Local Open Scope nat_scope.

Lemma copy_back_periodic (n offset : nat) (result : list byte) :
  0 < offset <= length result ->
  exists copied,
    copy_back n (Z.of_nat offset) result = Ok (result ++ copied)
    /\ length copied = n
    /\ forall k, k < n ->
         (result ++ copied) !! (length result + k)
         = (result ++ copied) !! (length result + k - offset).
Proof.
  revert result. induction n as [|n IH]; intros result Hoff.
  - exists []. rewrite app_nil_r. repeat split. intros k Hk. lia.
  - cbn [copy_back].
    destruct (lookup_lt_is_Some_2 result (length result - offset)) as [b Hb];
      [lia|].
    rewrite (LZ77Proofs.getitem_back result offset b Hoff Hb). cbn [bind].
    destruct (IH (result ++ [b])) as (copied & Hcopy & Hlen & Hper).
    { rewrite length_app. simpl. lia. }
    exists (b :: copied). rewrite Hcopy, <- app_assoc.
    split; [done|]. split; [simpl; lia|].
    intros k Hk. destruct k as [|k].
    + rewrite Nat.add_0_r, list_lookup_middle by done.
      rewrite lookup_app_l by lia. by rewrite Hb.
    + specialize (Hper k ltac:(lia)).
      rewrite <- app_assoc, length_app in Hper. simpl in Hper.
      replace (length result + S k) with (length result + 1 + k) by lia.
      exact Hper.
Qed.

End CopyProofs.

(** X11. What one token makes [decompress_lz77] write. For a token with
    an offset of 1 up to the number of bytes written so far, the loop
    body appends [length] copied bytes and then the literal, unless the
    literal is the byte [0xFF], which it leaves out. Each copied byte is
    the byte [offset] places before it in the output, also when that
    byte was written by the same copy: a length above the offset repeats
    the last [offset] bytes periodically. *)
Theorem decode_token_copies_periodically (stream : list byte) (pos : nat)
    (result : list byte) (offset len : Z) (pos' : nat) (next_char : byte) :
  LZ77.variable_length_decode stream pos = Ok (offset, len, pos') ->
  0 < offset <= Z.of_nat (length result) ->
  stream !! pos' = Some next_char ->
  exists copied,
    LZ77.decode_token stream pos result
    = Ok ((pos' + 1)%nat,
          (result ++ copied)
          ++ (if decide (next_char = LZ77.sentinel) then []
              else [next_char]))
    /\ length copied = Z.to_nat len
    /\ forall k, (k < Z.to_nat len)%nat ->
         (result ++ copied) !! (length result + k)%nat
         = (result ++ copied) !! (length result + k - Z.to_nat offset)%nat.
Proof.
  intros Hdec Hoff Hnext.
  destruct (CopyProofs.copy_back_periodic (Z.to_nat len) (Z.to_nat offset)
              result) as (copied & Hcopy & Hlen & Hper); [lia|].
  rewrite Z2Nat.id in Hcopy by lia.
  exists copied. split; [|done].
  unfold LZ77.decode_token. rewrite Hdec. cbn [bind]. rewrite Hnext.
  destruct (Z.eqb_spec offset 0) as [|_]; [lia|]. cbn [andb].
  rewrite Hcopy. cbn [bind]. unfold LZ77.append_literal.
  destruct (decide (next_char = LZ77.sentinel)); cbn [bind];
    [by rewrite app_nil_r|done].
Qed.

Lemma decode_token_copies_periodically_witness :
  exists copied,
    LZ77.decode_token [x01; x03; x42] 0 [x41]
    = Ok ((2 + 1)%nat,
          ([x41] ++ copied)
          ++ (if decide (x42 = LZ77.sentinel) then [] else [x42]))
    /\ length copied = Z.to_nat 3
    /\ forall k, (k < Z.to_nat 3)%nat ->
         ([x41] ++ copied) !! (length [x41] + k)%nat
         = ([x41] ++ copied) !! (length [x41] + k - Z.to_nat 1)%nat.
Proof.
  apply (decode_token_copies_periodically [x01; x03; x42] 0 [x41] 1 3 2 x42).
  - reflexivity.
  - simpl. lia.
  - reflexivity.
Defined.

(** ** Writing the container and reading it back *)

Module WriterProofs.
Import Container Helper.

Lemma to_bytes_le_spec (size : nat) (v : Z) :
  0 <= v < 256 ^ Z.of_nat size ->
  length (to_bytes_le size v) = size
  /\ int_from_bytes_le (to_bytes_le size v) = v.
Proof.
  revert v. induction size as [|size IH]; intros v Hv.
  - change (256 ^ Z.of_nat 0) with 1 in Hv. split; [done|]. simpl. lia.
  - rewrite Nat2Z.inj_succ, Z.pow_succ_r in Hv by lia.
    cbn [to_bytes_le length].
    assert (0 <= v mod 256 < 256) as Hlo by (apply Z.mod_pos_bound; lia).
    destruct (IH (v / 256)) as [Hlen Hval].
    { split; [apply Z.div_pos; lia|apply Z.div_lt_upper_bound; lia]. }
    split; [by rewrite Hlen|].
    unfold int_from_bytes_le in *. cbn [foldr]. rewrite Hval.
    destruct (byte_of_int_byte_of_Z _ Hlo) as [_ ->].
    pose proof (Z.div_mod v 256 ltac:(lia)). lia.
Qed.

Lemma pack_uint_Ok (size : nat) (v : Z) :
  0 <= v < 256 ^ Z.of_nat size ->
  pack_uint size v = Ok (to_bytes_le size v).
Proof.
  intros Hv. unfold pack_uint.
  destruct (Z.ltb_spec v 0); [lia|].
  destruct (Z.leb_spec (256 ^ Z.of_nat size) v); [lia|done].
Qed.


(** Reading the dimensions, once they are wholly there. *)
Lemma load_body_dims (w h c rest : list byte) :
  length w = 4%nat -> length h = 4%nat -> length c = 1%nat ->
  load_body ((w ++ h ++ c) ++ rest)
  = let* (header_data, file) := read_blob rest in
    let* (encoding_metadata, file) := read_blob file in
    let* (compressed_data, file) := read_blob file in
    Ok (compressed_data,
        {| width := int_from_bytes_le w; height := int_from_bytes_le h;
           channels := int_from_bytes_le c;
           header_data := header_data;
           encoding_metadata := encoding_metadata |}).
Proof.
  intros Hw Hh Hc. unfold load_body.
  rewrite <- !app_assoc, (app_assoc w h).
  rewrite (ContainerProofs.read_app 8 (w ++ h))
    by (rewrite length_app, Hw, Hh; done).
  step. unfold unpack_u32_u32. rewrite length_app, Hw, Hh.
  change (4 + 4 =? 8)%nat with true. step.
  rewrite (take_app_length' w h 4), (drop_app_length' w h 4) by done.
  rewrite (ContainerProofs.read_app 1 c) by done. step.
  unfold unpack_u8. rewrite Hc. change (1 =? 1)%nat with true. step.
  done.
Qed.

(** A length-prefixed blob as [pack_blob] writes it is read back whole. *)
Lemma read_blob_packed (blob rest : list byte) :
  Z.of_nat (length blob) < 2 ^ 32 ->
  pack_blob blob = Ok (to_bytes_le 4 (Z.of_nat (length blob)) ++ blob)
  /\ read_blob ((to_bytes_le 4 (Z.of_nat (length blob)) ++ blob) ++ rest)
     = Ok (blob, rest).
Proof.
  intros Hlen.
  assert (0 <= Z.of_nat (length blob) < 256 ^ Z.of_nat 4) as Hrange.
  { change (256 ^ Z.of_nat 4) with (2 ^ 32). lia. }
  destruct (to_bytes_le_spec 4 _ Hrange) as [Hl Hv].
  split.
  - unfold pack_blob. by rewrite pack_uint_Ok.
  - rewrite <- app_assoc. apply ContainerProofs.read_blob_app; [done|].
    rewrite Hv. lia.
Qed.


Lemma pack_dims_Ok (w h c : Z) :
  0 <= w < 2 ^ 32 -> 0 <= h < 2 ^ 32 -> 0 <= c < 256 ->
  pack_u32_u32_u8 w h c
  = Ok (to_bytes_le 4 w ++ to_bytes_le 4 h ++ to_bytes_le 1 c).
Proof.
  intros Hw Hh Hc. unfold pack_u32_u32_u8.
  rewrite !pack_uint_Ok; [done|..];
    try change (256 ^ Z.of_nat 4) with (2 ^ 32);
    try change (256 ^ Z.of_nat 1) with 256; lia.
Qed.


End WriterProofs.

(** X12. [save_compressed_file] and [load_compressed_file] are inverse
    on what [struct.pack] accepts: when the width and the height are in
    [0, 2**32), the channel count is in [0, 256) and the header, the
    encoding metadata and the payload are shorter than [2**32] bytes,
    the save returns [True], the file it leaves has 21 bytes more than
    the three blobs together, and loading that file gives the payload
    and the metadata back. *)
Theorem save_load_roundtrip (compressed_data : list byte)
    (md : Container.metadata) :
  Helper.packable compressed_data md ->
  exists file,
    Helper.save_compressed_file compressed_data md = (true, file)
    /\ length file
       = (21 + length (Container.header_data md)
          + length (Container.encoding_metadata md)
          + length compressed_data)%nat
    /\ Container.load_compressed_file file = Some (compressed_data, md).
Proof.
  destruct md as [w h c hdr meta]. unfold Helper.packable.
  cbn [Container.width Container.height Container.channels
       Container.header_data Container.encoding_metadata].
  intros (Hw & Hh & Hc & Hhdr & Hmeta & Hcd).
  unfold Helper.save_compressed_file.
  cbn [Container.width Container.height Container.channels
       Container.header_data Container.encoding_metadata].
  rewrite (WriterProofs.pack_dims_Ok w h c Hw Hh Hc).
  rewrite (proj1 (WriterProofs.read_blob_packed hdr [] Hhdr)).
  rewrite (proj1 (WriterProofs.read_blob_packed meta [] Hmeta)).
  rewrite (proj1 (WriterProofs.read_blob_packed compressed_data [] Hcd)).
  destruct (WriterProofs.to_bytes_le_spec 4 w) as [Hlw Hvw];
    [change (256 ^ Z.of_nat 4) with (2 ^ 32); lia|].
  destruct (WriterProofs.to_bytes_le_spec 4 h) as [Hlh Hvh];
    [change (256 ^ Z.of_nat 4) with (2 ^ 32); lia|].
  destruct (WriterProofs.to_bytes_le_spec 1 c) as [Hlc Hvc];
    [change (256 ^ Z.of_nat 1) with 256; lia|].
  eexists. split; [done|]. split.
  { rewrite !length_app. cbn [Helper.to_bytes_le length]. lia. }
  set (dims := Helper.to_bytes_le 4 w ++ Helper.to_bytes_le 4 h
               ++ Helper.to_bytes_le 1 c).
  set (b1 := Helper.to_bytes_le 4 (Z.of_nat (length hdr)) ++ hdr).
  set (b2 := Helper.to_bytes_le 4 (Z.of_nat (length meta)) ++ meta).
  set (b3 := Helper.to_bytes_le 4 (Z.of_nat (length compressed_data))
             ++ compressed_data).
  replace (((dims ++ b1) ++ b2) ++ b3) with (dims ++ b1 ++ b2 ++ b3 ++ [])
    by (by rewrite app_nil_r, <- !app_assoc).
  unfold Container.load_compressed_file, dims.
  rewrite (WriterProofs.load_body_dims _ _ _ _ Hlw Hlh Hlc).
  unfold b1, b2, b3.
  rewrite (proj2 (WriterProofs.read_blob_packed hdr _ Hhdr)). step.
  rewrite (proj2 (WriterProofs.read_blob_packed meta _ Hmeta)). step.
  rewrite (proj2 (WriterProofs.read_blob_packed compressed_data _ Hcd)). step.
  by rewrite Hvw, Hvh, Hvc.
Qed.

Lemma save_load_roundtrip_witness :
  exists file,
    Helper.save_compressed_file [x0a; x0b]
      {| Container.width := 640; Container.height := 480;
         Container.channels := 3;
         Container.header_data := [x42; x4d];
         Container.encoding_metadata := [x80] |}
    = (true, file)
    /\ length file
       = (21 + length [x42; x4d] + length [x80] + length [x0a; x0b])%nat
    /\ Container.load_compressed_file file
       = Some ([x0a; x0b],
               {| Container.width := 640; Container.height := 480;
                  Container.channels := 3;
                  Container.header_data := [x42; x4d];
                  Container.encoding_metadata := [x80] |}).
Proof.
  apply (save_load_roundtrip [x0a; x0b]
           {| Container.width := 640; Container.height := 480;
              Container.channels := 3;
              Container.header_data := [x42; x4d];
              Container.encoding_metadata := [x80] |}).
  unfold Helper.packable. simpl. lia.
Defined.



(** ** The bit-string helpers of helper.py *)

Module BitStringProofs.
Import Huffman Helper.

Local Open Scope nat_scope.

Lemma format_08b_length (b : byte) : length (format_08b b) = 8.
Proof. unfold format_08b. by rewrite length_map, length_seq. Qed.

Lemma format_08b_bits (b : byte) : Forall is_bit (format_08b b).
Proof.
  unfold format_08b. apply Forall_forall. intros c Hc.
  apply list_elem_of_fmap in Hc as (j & -> & _).
  destruct (Z.testbit _ _); [by right|by left].
Qed.

Lemma bits_value_format_08b (b : byte) :
  byte_of_Z (bits_value (format_08b b)) = b.
Proof. destruct b; vm_compute; reflexivity. Qed.

Lemma bytes_to_binary_string_length (data : list byte) :
  length (bytes_to_binary_string data) = 8 * length data.
Proof.
  unfold bytes_to_binary_string.
  induction data as [|b data IH]; [done|].
  cbn [map concat length]. rewrite length_app, IH, format_08b_length. lia.
Qed.

Lemma bytes_to_binary_string_bits (data : list byte) :
  Forall is_bit (bytes_to_binary_string data).
Proof.
  unfold bytes_to_binary_string. apply Forall_concat, Forall_forall.
  intros s Hs. apply list_elem_of_fmap in Hs as (b & -> & _).
  apply format_08b_bits.
Qed.

Lemma bits_value_from_bound (digits : str) (acc : Z) :
  (0 <= acc)%Z ->
  (0 <= foldl (fun acc c => 2 * acc
                            + (if decide (c = "1"%char) then 1 else 0))
              acc digits
   < (acc + 1) * 2 ^ Z.of_nat (length digits))%Z.
Proof.
  revert acc. induction digits as [|c digits IH]; intros acc Hacc.
  - simpl. lia.
  - cbn [foldl length]. rewrite Nat2Z.inj_succ, Z.pow_succ_r by lia.
    assert (0 <= 2 ^ Z.of_nat (length digits))%Z by (apply Z.pow_nonneg; lia).
    destruct (decide (c = "1"%char)).
    + specialize (IH (2 * acc + 1)%Z ltac:(lia)). nia.
    + specialize (IH (2 * acc + 0)%Z ltac:(lia)). nia.
Qed.

Lemma bits_value_short (digits : str) :
  length digits <= 8 -> (0 <= bits_value digits < 256)%Z.
Proof.
  intros Hlen. unfold bits_value.
  pose proof (bits_value_from_bound digits 0 ltac:(lia)) as Hb.
  assert (2 ^ Z.of_nat (length digits) <= 2 ^ 8)%Z
    by (apply Z.pow_le_mono_r; lia).
  change (2 ^ 8)%Z with 256%Z in *. lia.
Qed.

(** The loop of [binary_string_to_bytes] over slices that start inside
    the string: each slice has one to eight digits and gives the byte
    of its value. *)
Lemma pack_slices (digits : str) (ks : list nat) (out : list byte) :
  Forall is_bit digits ->
  Forall (fun k => 8 * k < length digits) ks ->
  for_each (fun out i =>
              let* v := int_base2 (take 8 (drop i digits)) in
              append out v)
           out (map (fun k => 8 * k) ks)
  = Ok (out ++ map (fun k => byte_of_Z (bits_value (chunk digits k))) ks).
Proof.
  intros Hbits. revert out.
  induction ks as [|k ks IH]; intros out Hks; cbn [map for_each].
  - by rewrite app_nil_r.
  - apply Forall_cons in Hks as [Hk Hks].
    fold (chunk digits k).
    assert (0 < length (chunk digits k) <= 8) as Hc.
    { unfold chunk. rewrite length_take, length_drop. lia. }
    rewrite CodingProofs.int_base2_spec;
      [|destruct (chunk digits k); [simpl in Hc; lia|done]
       |by apply CodingProofs.chunk_bits].
    cbn [bind]. rewrite append_Ok by (apply bits_value_short; lia).
    cbn [bind]. rewrite IH by done. by rewrite <- app_assoc.
Qed.

Lemma binary_string_to_bytes_spec (binary_string : str) :
  Forall is_bit binary_string ->
  binary_string_to_bytes binary_string
  = Ok (map (fun k => byte_of_Z (bits_value (chunk binary_string k)))
            (seq 0 ((length binary_string + 7) / 8))).
Proof.
  intros Hbits. unfold binary_string_to_bytes, range_by_8.
  pose proof (Nat.div_mod (length binary_string) 8 ltac:(lia)) as Hdm.
  pose proof (Nat.mod_upper_bound (length binary_string) 8 ltac:(lia)) as Hm.
  set (padding := if length binary_string mod 8 =? 0 then 0
                  else 8 - length binary_string mod 8).
  assert ((length binary_string + padding + 7) / 8
          = (length binary_string + 7) / 8) as ->.
  { unfold padding.
    destruct (Nat.eqb_spec (length binary_string mod 8) 0) as [Hz|Hnz].
    - by rewrite Nat.add_0_r.
    - rewrite <- (Nat.div_unique
                    (length binary_string
                     + (8 - length binary_string mod 8) + 7) 8
                    (length binary_string / 8 + 1) 7) by lia.
      apply (Nat.div_unique _ 8 _ (length binary_string mod 8 - 1)); lia. }
  rewrite (pack_slices binary_string _ [] Hbits); [done|].
  apply Forall_forall. intros k Hk.
  apply list_elem_of_In, in_seq in Hk.
  pose proof (Nat.div_mod (length binary_string + 7) 8 ltac:(lia)) as Hdm7.
  pose proof (Nat.mod_upper_bound (length binary_string + 7) 8 ltac:(lia)).
  lia.
Qed.

(** The slices of the digits of a byte string are the digits of its
    bytes. *)
Lemma unpack_formatted (data : list byte) :
  map (fun k => byte_of_Z (bits_value (chunk (bytes_to_binary_string data) k)))
      (seq 0 (length data))
  = data.
Proof.
  unfold bytes_to_binary_string.
  induction data as [|b data IH]; [done|].
  cbn [length seq map concat]. f_equal.
  - unfold chunk. change (8 * 0) with 0. rewrite drop_0.
    rewrite take_app_length' by (by rewrite format_08b_length).
    apply bits_value_format_08b.
  - rewrite <- fmap_S_seq. etransitivity; [|exact IH].
    rewrite <- list_fmap_compose. apply list_fmap_ext.
    intros _ k _. unfold compose, chunk. do 3 f_equal.
    replace (8 * S k) with (8 + 8 * k) by lia.
    apply drop_app_add'. by rewrite format_08b_length.
Qed.

End BitStringProofs.

(** X14. The bit-string helpers of [helper.py] are inverse on bytes:
    [bytes_to_binary_string] gives eight binary digits per byte, and
    [binary_string_to_bytes] of that string returns the bytes without
    error. *)
Theorem helper_binary_string_roundtrip (data : list byte) :
  length (Helper.bytes_to_binary_string data) = (8 * length data)%nat
  /\ Forall Huffman.is_bit (Helper.bytes_to_binary_string data)
  /\ Helper.binary_string_to_bytes (Helper.bytes_to_binary_string data)
     = Ok data.
Proof.
  split; [apply BitStringProofs.bytes_to_binary_string_length|].
  split; [apply BitStringProofs.bytes_to_binary_string_bits|].
  rewrite BitStringProofs.binary_string_to_bytes_spec
    by apply BitStringProofs.bytes_to_binary_string_bits.
  rewrite BitStringProofs.bytes_to_binary_string_length.
  replace ((8 * length data + 7) / 8)%nat with (length data).
  2:{ apply (Nat.div_unique _ 8 _ 7); lia. }
  by rewrite BitStringProofs.unpack_formatted.
Qed.

(** X15. [binary_string_to_bytes] on a string of binary digits of any
    length: it returns [ceil(len/8)] bytes, the byte at index [k] being
    the value of the slice [binary_string[8k:8k+8]] read as a binary
    number. The string is not padded, so a last slice of fewer than
    eight digits is read as a short number (its digits end up in the low
    bits of the last byte), and [bytes_to_binary_string] gives the
    string back exactly when its length is a multiple of eight. *)
Theorem binary_string_to_bytes_slices (binary_string : str) :
  Forall Huffman.is_bit binary_string ->
  exists out,
    Helper.binary_string_to_bytes binary_string = Ok out
    /\ length out = ((length binary_string + 7) / 8)%nat
    /\ (forall k, (k < length out)%nat ->
          out !! k
          = Some (byte_of_Z
                    (Huffman.bits_value
                       (take 8 (drop (8 * k) binary_string)))))
    /\ (Helper.bytes_to_binary_string out = binary_string
        <-> (length binary_string mod 8 = 0)%nat).
Proof.
  intros Hbits. eexists.
  split; [by apply BitStringProofs.binary_string_to_bytes_spec|].
  set (m := ((length binary_string + 7) / 8)%nat).
  set (out := map _ (seq 0 m)).
  assert (length out = m) as Hlen
      by (unfold out; by rewrite length_map, length_seq).
  split; [done|]. split.
  { intros k Hk. unfold out. rewrite list_lookup_fmap.
    rewrite lookup_seq_lt by lia. done. }
  pose proof (Nat.div_mod (length binary_string) 8 ltac:(lia)) as Hdm.
  split.
  - intros Hback.
    pose proof (BitStringProofs.bytes_to_binary_string_length out) as Hl.
    rewrite Hback in Hl. rewrite Hl, Nat.mul_comm.
    apply Nat.Div0.mod_mul.
  - intros Hmod.
    assert (length binary_string = (8 * m)%nat) as Hl.
    { unfold m.
      rewrite <- (Nat.div_unique (length binary_string + 7) 8
                    (length binary_string / 8) 7); lia. }
    unfold Helper.bytes_to_binary_string, out. rewrite map_map.
    transitivity (concat (map (Huffman.chunk binary_string) (seq 0 m)));
      [|by apply CodingProofs.concat_chunks].
    f_equal. apply map_ext_in. intros k Hk. apply in_seq in Hk.
    apply CodingProofs.format_08b_bits_value;
      [apply (CodingProofs.chunk_length m)|apply CodingProofs.chunk_bits];
      (done || lia).
Qed.

Lemma binary_string_to_bytes_slices_witness :
  exists out,
    Helper.binary_string_to_bytes
      ["1"; "0"; "0"; "0"; "0"; "0"; "0"; "1"; "1"; "1"]%char = Ok out
    /\ length out
       = ((length ["1"; "0"; "0"; "0"; "0"; "0"; "0"; "1"; "1"; "1"]%char
           + 7) / 8)%nat
    /\ (forall k, (k < length out)%nat ->
          out !! k
          = Some (byte_of_Z
                    (Huffman.bits_value
                       (take 8
                          (drop (8 * k)
                             ["1"; "0"; "0"; "0"; "0"; "0"; "0"; "1";
                              "1"; "1"]%char)))))
    /\ (Helper.bytes_to_binary_string out
        = ["1"; "0"; "0"; "0"; "0"; "0"; "0"; "1"; "1"; "1"]%char
        <-> (length ["1"; "0"; "0"; "0"; "0"; "0"; "0"; "1"; "1"; "1"]%char
             mod 8 = 0)%nat).
Proof.
  apply (binary_string_to_bytes_slices
           ["1"; "0"; "0"; "0"; "0"; "0"; "0"; "1"; "1"; "1"]%char).
  repeat (constructor; [(by left) || (by right)|]). constructor.
Defined.

(** ** How far the LZ77 stage can shrink a buffer *)

Module RatioProofs.
Import LZ77.

Local Open Scope nat_scope.

Lemma tokens_from_lengths (data : list byte)
    (window_size lookahead_buffer_size : nat) (fuel pos : nat) :
  Forall (fun t : token =>
            t.1.2 <= Nat.min window_size lookahead_buffer_size)
         (tokens_from fuel data window_size lookahead_buffer_size pos).
Proof.
  revert pos. induction fuel as [|fuel IH]; intros pos; cbn [tokens_from];
    destruct (Nat.ltb_spec pos (length data)) as [Hpos|_];
    try (by apply Forall_nil).
  cbv zeta. apply Forall_cons. split; [|apply IH].
  destruct (find_longest_match data pos window_size lookahead_buffer_size)
    as [[offset len] next_char] eqn:Hfind.
  destruct (FinderProofs.find_longest_match_spec _ _ _ _ _ _ _ Hpos Hfind)
    as (_ & _ & Hla & Hmatch).
  cbn [fst snd]. destruct Hmatch as [[_ ->]|(_ & Hlen & _ & Hw & _)]; lia.
Qed.

Lemma consumed_bound (m : nat) (toks : list token) :
  Forall (fun t : token => t.1.2 <= m) toks ->
  sum_of consumed toks <= (m + 1) * length toks.
Proof.
  induction 1 as [|t toks Ht _ IH]; [simpl; lia|].
  unfold sum_of in *. cbn [foldr length]. unfold consumed at 1.
  destruct t.2; lia.
Qed.

End RatioProofs.

(** X16. A bound on what [compress_lz77] can gain (window within the 15
    bits of the encoding). Every token takes at least three bytes of the
    stream and stands for at most [min(window_size,
    lookahead_buffer_size) + 1] bytes of the buffer, so when the stage
    is applied [3 * len(data)] is at most [(min(window_size,
    lookahead_buffer_size) + 1) * len(stream)]; and with a window or a
    lookahead of at most 2 the stage is never applied: it returns the
    buffer itself. *)
Theorem compress_lz77_ratio_bound (data : list byte)
    (window_size lookahead_buffer_size : nat) :
  Z.of_nat window_size <= 32767 ->
  (forall stream,
      LZ77.compress_lz77 data window_size lookahead_buffer_size
      = Ok (stream, LZ77.Applied window_size lookahead_buffer_size) ->
      (3 * length data
       <= (Nat.min window_size lookahead_buffer_size + 1) * length stream)%nat)
  /\ ((Nat.min window_size lookahead_buffer_size <= 2)%nat ->
      LZ77.compress_lz77 data window_size lookahead_buffer_size
      = Ok (data, LZ77.Skipped)).
Proof.
  intros Hw.
  destruct (LZ77Proofs.compress_lz77_cases data window_size
              lookahead_buffer_size Hw) as (stream0 & Hemit & Hc).
  pose proof (LZ77Proofs.tokens_from_encodable data window_size
                lookahead_buffer_size (length data) 0 Hw) as Henc.
  destruct (LZ77Proofs.emit_all_prefix _ [] stream0 Henc Hemit)
    as (suf & -> & Hsize).
  pose proof (LZ77Proofs.tokens_from_consumed data window_size
                lookahead_buffer_size (length data) 0
                ltac:(lia) ltac:(lia)) as Hsum.
  pose proof (RatioProofs.consumed_bound _ _
                (RatioProofs.tokens_from_lengths data window_size
                   lookahead_buffer_size (length data) 0)) as Hbound.
  fold (LZ77.lz_tokens data window_size lookahead_buffer_size) in *.
  cbn [app] in *. rewrite Hsum, Nat.sub_0_r in Hbound.
  set (m := Nat.min window_size lookahead_buffer_size) in *.
  set (n := length (LZ77.lz_tokens data window_size lookahead_buffer_size))
    in *.
  assert (3 * length data <= (m + 1) * length suf)%nat as Hratio by nia.
  split.
  - intros stream Hstream. rewrite Hc in Hstream.
    destruct ((length data <? 50)%nat || negb (length suf <? length data)%nat);
      [done|].
    by injection Hstream as <-.
  - intros Hsmall. rewrite Hc.
    destruct (Nat.ltb_spec (length data) 50) as [|_]; [done|].
    destruct (Nat.ltb_spec (length suf) (length data)) as [Hlt|_]; [|done].
    nia.
Qed.

Lemma compress_lz77_ratio_bound_witness :
  (forall stream,
      LZ77.compress_lz77 (replicate 64 x41) 16 8
      = Ok (stream, LZ77.Applied 16 8) ->
      (3 * length (replicate 64 x41)
       <= (Nat.min 16 8 + 1) * length stream)%nat)
  /\ ((Nat.min 16 8 <= 2)%nat ->
      LZ77.compress_lz77 (replicate 64 x41) 16 8
      = Ok (replicate 64 x41, LZ77.Skipped)).
Proof.
  apply (compress_lz77_ratio_bound (replicate 64 x41) 16 8). lia.
Defined.
